(** * qpkg: packaging a directory tree with its symbolic links

    A shallow embedding of [qpkg.py] and the statements of its
    specification.  The program walks a source directory, records every
    symbolic link in a manifest ([links.json]), stores the regular files
    and the manifest in a zip container, and on the way back extracts the
    files and replays the manifest.

    The file system is a tree of files, symbolic links and directories
    addressed by component lists; the system calls the program uses are
    modelled on it with the error numbers Linux returns.  The two codecs
    the program delegates to ([json], [zipfile]) are an interface
    ([Codecs]) with a round-trip contract ([CodecsOk]). *)

From Stdlib Require Import String Ascii List Bool Arith Lia.
Import ListNotations.
Open Scope string_scope.
Open Scope list_scope.

Set Implicit Arguments.

(* ================================================================= *)
(** * Part I: the model *)
(* ================================================================= *)

(** ** Path strings *)

(** A path, after [pathlib] has parsed it and it has been made absolute:
    the components below ["/"].  [".."] may occur, [""] and ["."] do not
    (pathlib drops them). *)
Definition path := list string.

(** [os.path.isabs] on POSIX. *)
Definition isabs (s : string) : bool :=
  match s with
  | String c _ => Ascii.eqb c "/"
  | EmptyString => false
  end.

(** [s.split("/")]. *)
Fixpoint split_slash (s : string) : list string :=
  match s with
  | EmptyString => [EmptyString]
  | String c s' =>
      if Ascii.eqb c "/" then EmptyString :: split_slash s'
      else match split_slash s' with
           | [] => [String c EmptyString]
           | w :: ws => String c w :: ws
           end
  end.

(** ["/".join(l)]. *)
Definition join_slash (l : list string) : string := String.concat "/" l.

Fixpoint slash_free (s : string) : bool :=
  match s with
  | EmptyString => true
  | String c s' => negb (Ascii.eqb c "/") && slash_free s'
  end.

(** Every byte is an ASCII character other than NUL. *)
Fixpoint plain_bytes (s : string) : bool :=
  match s with
  | EmptyString => true
  | String c s' =>
      Nat.ltb 0 (nat_of_ascii c) && Nat.ltb (nat_of_ascii c) 128 && plain_bytes s'
  end.

(** Linux takes no name of more than 255 bytes. *)
Definition NAME_MAX : nat := 255.

(** The names of the directory entries the statements are about: no
    ["/"], not [""], ["."] or [".."], ASCII without NUL (so that the
    name is valid UTF-8, which [zipfile] wants), at most [NAME_MAX]
    bytes. *)
Definition valid_name (s : string) : bool :=
  slash_free s && negb (String.eqb s "") && negb (String.eqb s ".")
  && negb (String.eqb s "..") && plain_bytes s
  && Nat.leb (String.length s) NAME_MAX.

(** What a component of a parsed path is: a piece between ["/"]s other
    than [""] and ["."]. *)
Definition comp_ok (c : string) : bool :=
  slash_free c && negb (String.eqb c "") && negb (String.eqb c ".").

(** The components pathlib keeps when it parses a string. *)
Definition components (s : string) : list string :=
  filter (fun c => negb (String.eqb c "" || String.eqb c ".")) (split_slash s).

(** [Path(s)], relative paths being taken from the working directory. *)
Definition Path (cwd : path) (s : string) : path :=
  if isabs s then components s else cwd ++ components s.

(** [p / s]: an absolute right operand replaces the left one. *)
Definition joinpath (p : path) (s : string) : path :=
  if isabs s then components s else p ++ components s.

(** [p.parent]; the root is its own parent. *)
Definition parent (p : path) : path := removelast p.

(** [p.name]. *)
Definition name_of (p : path) : string := last p "".

(** [str(p)] for a relative path. *)
Definition str_rel (p : list string) : string :=
  match p with
  | [] => "."
  | _ => join_slash p
  end.

(** [p.relative_to(base)]: [None] stands for the [ValueError]. *)
Fixpoint relative_to (p base : path) {struct base} : option (list string) :=
  match base with
  | [] => Some p
  | b :: base' =>
      match p with
      | c :: p' => if String.eqb b c then relative_to p' base' else None
      | [] => None
      end
  end.

(** Position of the last ["."] of a name, if any ([name.rfind('.')]). *)
Fixpoint rfind_dot (s : string) : option nat :=
  match s with
  | EmptyString => None
  | String c s' =>
      match rfind_dot s' with
      | Some i => Some (S i)
      | None => if Ascii.eqb c "." then Some 0 else None
      end
  end.

(** [PurePath.suffix]: the last dot counts when it is neither the first
    nor the last character of the name. *)
Definition suffix (p : path) : string :=
  let name := name_of p in
  match rfind_dot name with
  | Some i =>
      if Nat.ltb 0 i && Nat.ltb i (String.length name - 1)
      then substring i (String.length name - i) name
      else ""
  | None => ""
  end.

(** [os.path.normpath] on the components of an absolute path: [".."]
    cancels the component before it, and stays at the root. *)
Fixpoint normpath_acc (acc : list string) (l : list string) : list string :=
  match l with
  | [] => rev acc
  | c :: l' =>
      if String.eqb c ".." then normpath_acc (tl acc) l'
      else normpath_acc (c :: acc) l'
  end.

Definition normpath (p : path) : path := normpath_acc [] p.

Fixpoint strip_common (p start : list string) : list string * list string :=
  match p, start with
  | c :: p', d :: start' =>
      if String.eqb c d then strip_common p' start' else (p, start)
  | _, _ => (p, start)
  end.

(** [os.path.relpath(p, start)] for absolute [p] and [start]. *)
Definition relpath (p start : path) : string :=
  let nonempty := filter (fun x => negb (String.eqb x "")) in
  let '(rest, up) := strip_common (nonempty (normpath p)) (nonempty (normpath start)) in
  str_rel (repeat ".." (length up) ++ rest).

(** ** The file system *)

#[local] Set Warnings "-register-all".

(** A tree of regular files, symbolic links and directories.  The flag
    of a directory is the read bit of its mode: whether its entries can
    be listed.  The process may search every directory and write to it
    (modes such as 0755 and, without the flag, 0311); other permissions,
    owners and time stamps are not part of the model. *)
Inductive node : Type :=
| File (data : string)
| Link (target : string)
| Dir (listable : bool) (entries : list (string * node)).

(** What [lstat] tells about an entry. *)
Inductive kind : Type :=
| KFile (data : string)
| KLink (target : string)
| KDir.

Definition kind_of (n : node) : kind :=
  match n with
  | File d => KFile d
  | Link t => KLink t
  | Dir _ _ => KDir
  end.

(** Directory entries: the first entry of a name is the one a lookup
    finds; a new name goes to the end. *)
Fixpoint assoc {A : Type} (k : string) (l : list (string * A)) : option A :=
  match l with
  | [] => None
  | (k', v) :: l' => if String.eqb k k' then Some v else assoc k l'
  end.

Fixpoint alist_set {A : Type} (k : string) (v : A) (l : list (string * A))
  : list (string * A) :=
  match l with
  | [] => [(k, v)]
  | (k', v') :: l' =>
      if String.eqb k k' then (k, v) :: l' else (k', v') :: alist_set k v l'
  end.

Definition alist_del {A : Type} (k : string) (l : list (string * A))
  : list (string * A) :=
  filter (fun kv => negb (String.eqb k (fst kv))) l.

(** The node at a path none of whose components is a symbolic link. *)
Fixpoint get (n : node) (p : path) : option node :=
  match p with
  | [] => Some n
  | c :: p' =>
      match n with
      | Dir _ es =>
          match assoc c es with
          | Some ch => get ch p'
          | None => None
          end
      | _ => None
      end
  end.

Definition lookup (n : node) (p : path) : option kind :=
  option_map kind_of (get n p).

(** Sets ([Some]) or removes ([None]) the entry at [p]; nothing happens
    when the directory that should hold it is missing. *)
Fixpoint update (p : path) (v : option node) (n : node) : node :=
  match p with
  | [] => n
  | [c] =>
      match n with
      | Dir r es =>
          Dir r (match v with
                 | Some x => alist_set c x es
                 | None => alist_del c es
                 end)
      | _ => n
      end
  | c :: p' =>
      match n with
      | Dir r es =>
          match assoc c es with
          | Some ch => Dir r (alist_set c (update p' v ch) es)
          | None => n
          end
      | _ => n
      end
  end.

(** [p] is [q] or above it. *)
Fixpoint is_prefix (p q : path) : bool :=
  match p, q with
  | [], _ => true
  | a :: p', b :: q' => String.eqb a b && is_prefix p' q'
  | _ :: _, [] => false
  end.

Definition path_eq_dec : forall p q : path, {p = q} + {p <> q} :=
  list_eq_dec string_dec.

Inductive errno : Type :=
| ENOENT | ENOTDIR | EISDIR | EEXIST | ELOOP | EINVAL | EACCES | ENAMETOOLONG.

(** Linux follows at most 40 symbolic links in one path resolution. *)
Definition MAXSYMLINKS : nat := 40.

(** Kernel path resolution from the directory [cur]: the place the path
    names, whether or not something is there; every component before the
    last must lead to a directory.  The last component is followed when
    it is a symbolic link and [follow] is set. *)
Fixpoint namei (fuel : nat) (fs : node) (follow : bool)
         (cur : path) (todo : list string) {struct fuel} : errno + path :=
  (fix go (cur : path) (todo : list string) {struct todo} : errno + path :=
     match todo with
     | [] => inr cur
     | c :: rest =>
         if String.eqb c ".." then go (removelast cur) rest
         else
           match get fs (cur ++ [c]) with
           | Some (Dir _ _) => go (cur ++ [c]) rest
           | Some (Link t) =>
               if follow || negb (Nat.eqb (length rest) 0) then
                 if String.eqb t "" then inl ENOENT
                 else
                   match fuel with
                   | 0 => inl ELOOP
                   | S fuel' =>
                       namei fuel' fs follow
                             (if isabs t then [] else cur)
                             (components t ++ rest)
                   end
               else inr (cur ++ [c])
           | Some (File _) =>
               match rest with
               | [] => inr (cur ++ [c])
               | _ => inl ENOTDIR
               end
           | None =>
               match rest with
               | [] => inr (cur ++ [c])
               | _ => inl ENOENT
               end
           end
     end) cur todo.

(** The number of symbolic links of a tree. *)
Fixpoint count_links (n : node) : nat :=
  match n with
  | File _ => 0
  | Link _ => 1
  | Dir _ es =>
      (fix sum (l : list (string * node)) : nat :=
         match l with
         | [] => 0
         | e :: l' => count_links (snd e) + sum l'
         end) es
  end.

Definition mem_path (p : path) (l : list path) : bool :=
  existsb (fun q => if path_eq_dec p q then true else false) l.

(** [os.path.realpath] (not strict), as [posixpath._joinrealpath] walks:
    the components are taken one by one from the resolved prefix [cur];
    what is not a symbolic link (a file, a directory, nothing) is kept;
    a link is entered, its target is resolved from the directory of the
    link (from the root when it is absolute) and the walk goes on from
    there.  A link that is met again while it is being resolved is a
    loop: the walk stops, and the answer is the path of that link with
    the rest as written ([false]).  The library also remembers the links
    it has resolved; a link it has resolved resolves to the same path
    again, so the model resolves it again.  [entered] has distinct
    links of the tree, so [count_links fs] calls inside one another are
    all there can be. *)
Fixpoint joinrealpath (fuel : nat) (fs : node) (entered : list path)
         (cur : path) (todo : list string) {struct fuel} : path * bool :=
  (fix go (cur : path) (todo : list string) {struct todo} : path * bool :=
     match todo with
     | [] => (cur, true)
     | c :: rest =>
         if String.eqb c ".." then go (removelast cur) rest
         else
           match get fs (cur ++ [c]) with
           | Some (Link t) =>
               if mem_path (cur ++ [c]) entered then ((cur ++ [c]) ++ rest, false)
               else
                 match fuel with
                 | 0 => ((cur ++ [c]) ++ rest, false)
                 | S fuel' =>
                     let '(p, ok) :=
                       joinrealpath fuel' fs ((cur ++ [c]) :: entered)
                                    (if isabs t then [] else cur) (components t) in
                     if ok then go p rest else (p ++ rest, false)
                 end
           | _ => go (cur ++ [c]) rest
           end
     end) cur todo.

(** [realpath] ends with [abspath], which normalises: a path resolved
    to its end has nothing left to normalise, a path left at a loop has
    the rest as it was written, with its [".."]. *)
Definition realpath (fs : node) (p : path) : path :=
  let '(q, ok) := joinrealpath (count_links fs) fs [] [] p in
  if ok then q else normpath q.

(** Whether the walk came to the end of the path, all links resolved. *)
Definition realpath_complete (fs : node) (p : path) : bool :=
  snd (joinrealpath (count_links fs) fs [] [] p).

(** [stat] and [lstat]: where the path leads and what is there. *)
Definition locate (follow : bool) (fs : node) (p : path)
  : errno + (path * option node) :=
  match namei MAXSYMLINKS fs follow [] p with
  | inl e => inl e
  | inr loc => inr (loc, get fs loc)
  end.

Definition stat_kind (follow : bool) (fs : node) (p : path) : option kind :=
  match locate follow fs p with
  | inr (_, Some n) => Some (kind_of n)
  | _ => None
  end.

(** [Path.exists], [Path.is_dir], [Path.is_file] follow symbolic links,
    [Path.is_symlink] does not; all four answer [False] on an error. *)
Definition path_exists (fs : node) (p : path) : bool :=
  match stat_kind true fs p with Some _ => true | None => false end.

Definition path_is_dir (fs : node) (p : path) : bool :=
  match stat_kind true fs p with Some KDir => true | _ => false end.

Definition path_is_file (fs : node) (p : path) : bool :=
  match stat_kind true fs p with Some (KFile _) => true | _ => false end.

Definition path_is_symlink (fs : node) (p : path) : bool :=
  match stat_kind false fs p with Some (KLink _) => true | _ => false end.

(** ** Exceptions, the log, the state *)

(** The exceptions, as far as [except] clauses and the callers tell
    them apart.  [ValueError] stands for its subclasses too
    ([json.JSONDecodeError], [UnicodeDecodeError]). *)
Inductive exn : Type :=
| OSError (e : errno)
| KeyError (key : string)
| RuntimeError
| BadZipFile
| AttributeError
| TypeError
| ValueError.

(** The warnings and errors the program logs (its debug and info lines
    are left out). *)
Inductive record : Type :=
| WarnBrokenLink (target_path : path)
| WarnReadLink (link_path : path) (e : errno)
| ErrRestore (link_path : string) (link_target : string) (e : errno)
| ErrInvalidArguments
| ErrTop (e : exn).

(** The named entries of a zip container, in the order they were added. *)
Definition archive := list (string * string).

(** The [links] dictionary: keys in insertion order, [alist_set] being
    the assignment [links[k] = v]. *)
Definition dict := list (string * string).

(** What [json.loads] can give back, as far as the program tells the
    cases apart. *)
Inductive jvalue : Type :=
| JStr (s : string)
| JOther.

Inductive json : Type :=
| JDict (items : list (string * jvalue))
| JNotDict.

Definition json_of_dict (d : dict) : json :=
  JDict (map (fun kv => (fst kv, JStr (snd kv))) d).

(** The two libraries the program uses as black boxes:
    [json.dump(links, f, indent=2)] / [json.loads] and the bytes of a zip
    file written by [zipfile] / read back by it.  [None] is a failure:
    of [json.loads] a [JSONDecodeError] or a [UnicodeDecodeError], both
    of them [ValueError]s; of [zipfile] whatever it raises on a file it
    cannot read, [BadZipFile] in the model. *)
Class Codecs : Type := {
  json_dumps : dict -> string;
  json_loads : string -> option json;
  zip_encode : archive -> string;
  zip_decode : string -> option archive
}.

Class CodecsOk (C : Codecs) : Prop := {
  json_roundtrip :
    forall d, NoDup (map fst d) -> json_loads (json_dumps d) = Some (json_of_dict d);
  zip_roundtrip :
    forall a, zip_decode (zip_encode a) = Some a
}.

(** The file system, the log, and the entries of the [ZipFile] object
    that is open for writing. *)
Record state : Type := mkState {
  fs : node;
  log : list record;
  zf : archive
}.

Inductive result (A : Type) : Type :=
| Ok (a : A)
| Raise (e : exn).

Arguments Ok {A} a.
Arguments Raise {A} e.

Definition M (A : Type) : Type := state -> result A * state.

Definition ret {A : Type} (a : A) : M A := fun s => (Ok a, s).

Definition bind {A B : Type} (m : M A) (f : A -> M B) : M B :=
  fun s =>
    match m s with
    | (Ok a, s') => f a s'
    | (Raise e, s') => (Raise e, s')
    end.

Definition raise {A : Type} (e : exn) : M A := fun s => (Raise e, s).

Notation "x <- m ;; k" := (bind m (fun x => k))
  (at level 61, m at next level, right associativity).
Notation "m ;; k" := (bind m (fun _ => k))
  (at level 61, right associativity).

(** [try: m  except OSError as e: h e]. *)
Definition try_OSError {A : Type} (m : M A) (h : errno -> M A) : M A :=
  fun s =>
    match m s with
    | (Raise (OSError e), s') => h e s'
    | r => r
    end.

(** [for x in l: body x], with an accumulator for the variables the
    loop assigns. *)
Fixpoint for_fold {A B : Type} (l : list A) (body : A -> B -> M B) (b : B) : M B :=
  match l with
  | [] => ret b
  | x :: l' => b' <- body x b ;; for_fold l' body b'
  end.

Fixpoint for_each {A : Type} (l : list A) (body : A -> M unit) : M unit :=
  match l with
  | [] => ret tt
  | x :: l' => body x ;; for_each l' body
  end.

Definition read_fs {A : Type} (f : node -> A) : M A := fun s => (Ok (f (fs s)), s).

Definition set_fs (f : node) : M unit := fun s => (Ok tt, mkState f (log s) (zf s)).

Definition logger (r : record) : M unit :=
  fun s => (Ok tt, mkState (fs s) (log s ++ [r]) (zf s)).

(** ** System calls *)

Definition os_readlink (p : path) : M string :=
  fun s =>
    match locate false (fs s) p with
    | inl e => (Raise (OSError e), s)
    | inr (_, Some (Link t)) => (Ok t, s)
    | inr (_, Some _) => (Raise (OSError EINVAL), s)
    | inr (_, None) => (Raise (OSError ENOENT), s)
    end.

Definition os_unlink (p : path) : M unit :=
  fun s =>
    match locate false (fs s) p with
    | inl e => (Raise (OSError e), s)
    | inr (_, None) => (Raise (OSError ENOENT), s)
    | inr (_, Some (Dir _ _)) => (Raise (OSError EISDIR), s)
    | inr (loc, Some _) => set_fs (update loc None (fs s)) s
    end.

Definition os_mkdir (p : path) : M unit :=
  fun s =>
    match locate false (fs s) p with
    | inl e => (Raise (OSError e), s)
    | inr (_, Some _) => (Raise (OSError EEXIST), s)
    | inr (loc, None) => set_fs (update loc (Some (Dir true [])) (fs s)) s
    end.

Fixpoint has_nul (s : string) : bool :=
  match s with
  | EmptyString => false
  | String c s' => Ascii.eqb c Ascii.zero || has_nul s'
  end.

(** The length Linux allows a path, its final NUL included. *)
Definition PATH_MAX : nat := 4096.

(** The targets [os.symlink] takes. *)
Definition link_target_ok (t : string) : bool :=
  negb (has_nul t) && Nat.ltb (String.length t) PATH_MAX && negb (String.eqb t "").

(** [os.symlink(target, p)]: Python refuses a target with a NUL byte
    ([ValueError]), Linux a target of [PATH_MAX] bytes or more and an
    empty target. *)
Definition os_symlink (target : string) (p : path) : M unit :=
  fun s =>
    if has_nul target then (Raise ValueError, s)
    else if Nat.leb PATH_MAX (String.length target) then (Raise (OSError ENAMETOOLONG), s)
    else if String.eqb target "" then (Raise (OSError ENOENT), s)
    else
      match locate false (fs s) p with
      | inl e => (Raise (OSError e), s)
      | inr (_, Some _) => (Raise (OSError EEXIST), s)
      | inr (loc, None) => set_fs (update loc (Some (Link target)) (fs s)) s
      end.

(** [open(p, "w")], the data written and the file closed: the place the
    file is at is returned. *)
Definition open_write (p : path) (data : string) : M path :=
  fun s =>
    match locate true (fs s) p with
    | inl e => (Raise (OSError e), s)
    | inr (_, Some (Dir _ _)) => (Raise (OSError EISDIR), s)
    | inr (_, Some (Link _)) => (Raise (OSError ELOOP), s)
    | inr (loc, _) =>
        (Ok loc, mkState (update loc (Some (File data)) (fs s)) (log s) (zf s))
    end.

Definition read_file (p : path) : M string :=
  fun s =>
    match locate true (fs s) p with
    | inl e => (Raise (OSError e), s)
    | inr (_, Some (File d)) => (Ok d, s)
    | inr (_, Some (Dir _ _)) => (Raise (OSError EISDIR), s)
    | inr (_, Some (Link _)) => (Raise (OSError ELOOP), s)
    | inr (_, None) => (Raise (OSError ENOENT), s)
    end.

(** [Path.resolve()] (not strict): the real path; then [stat] is called
    on it, and [ELOOP], which a path left unresolved at a loop gives,
    becomes a [RuntimeError]; other errors of [stat] are ignored. *)
Definition resolves (f : node) (p : path) : bool :=
  match locate true f (realpath f p) with
  | inl ELOOP => false
  | _ => true
  end.

Definition resolve (p : path) : M path :=
  fun s =>
    if resolves (fs s) p then (Ok (realpath (fs s) p), s)
    else (Raise RuntimeError, s).

(** ** Library functions *)

(** [p.mkdir(parents=False, exist_ok=True)]. *)
Definition mkdir_exist_ok (p : path) : M unit :=
  fun s =>
    match os_mkdir p s with
    | (Raise (OSError ENOENT), s') => (Raise (OSError ENOENT), s')
    | (Raise (OSError e), s') =>
        if path_is_dir (fs s') p then (Ok tt, s') else (Raise (OSError e), s')
    | r => r
    end.

(** [p.mkdir(parents=True, exist_ok=True)], by recursion on the reversed
    path (the parent of [rev (c :: rp)] is [rev rp]). *)
Fixpoint mkdir_parents_rev (rp : list string) : M unit :=
  fun s =>
    match os_mkdir (rev rp) s with
    | (Raise (OSError ENOENT), s') =>
        match rp with
        | [] => (Raise (OSError ENOENT), s')
        | _ :: rparent =>
            (mkdir_parents_rev rparent ;; mkdir_exist_ok (rev rp)) s'
        end
    | (Raise (OSError e), s') =>
        if path_is_dir (fs s') (rev rp) then (Ok tt, s') else (Raise (OSError e), s')
    | r => r
    end.

Definition mkdir_parents (p : path) : M unit := mkdir_parents_rev (rev p).

(** [os.makedirs(name)] (with [exist_ok=False]). *)
Fixpoint makedirs_rev (rname : list string) : M unit :=
  match rname with
  | [] => os_mkdir []
  | _ :: rhead =>
      head_exists <- read_fs (fun f => path_exists f (rev rhead)) ;;
      (if head_exists then ret tt
       else fun s =>
              match makedirs_rev rhead s with
              | (Raise (OSError EEXIST), s') => (Ok tt, s')
              | r => r
              end) ;;
      os_mkdir (rev rname)
  end.

Definition makedirs (name : path) : M unit := makedirs_rev (rev name).

(** [DirEntry.is_dir()] follows symbolic links. *)
Definition entry_is_dir (f : node) (top : path) (e : string * node) : bool :=
  match snd e with
  | Dir _ _ => true
  | File _ => false
  | Link _ => path_is_dir f (top ++ [fst e])
  end.

(** [os.walk(top, followlinks=False)], top down, [onerror=None]: a
    directory that cannot be listed yields nothing, and a symbolic link
    to a directory is listed among [dirs] but not entered.  Each item is
    [(root, dirs, files)]. *)
Fixpoint walk_node (f : node) (top : path) (n : node)
  : list (path * list string * list string) :=
  match n with
  | Dir true es =>
      (top,
       map fst (filter (entry_is_dir f top) es),
       map fst (filter (fun e => negb (entry_is_dir f top e)) es))
      :: (fix sub (l : list (string * node)) :=
            match l with
            | [] => []
            | e :: l' => walk_node f (top ++ [fst e]) (snd e) ++ sub l'
            end) es
  | _ => []
  end.

Definition os_walk (f : node) (top : path)
  : list (path * list string * list string) :=
  match locate true f top with
  | inr (_, Some n) => walk_node f top n
  | _ => []
  end.

(** [zf.write(filename, arcname=arcname)].  The [arcname]s of this
    program are [str()] of pathlib paths made of directory entry names,
    which [zipfile] stores as they are.  What [zipfile] refuses beyond
    the errors of the path, a name that is not UTF-8 and a file dated
    before 1980, is not part of the model: the statements on packing
    are about valid names, and time stamps are left out. *)
Definition zf_write (filename : path) (arcname : string) : M unit :=
  fun s =>
    match locate true (fs s) filename with
    | inl e => (Raise (OSError e), s)
    | inr (_, Some (File d)) =>
        (Ok tt, mkState (fs s) (log s) (zf s ++ [(arcname, d)]))
    | inr (_, Some (Dir _ _)) =>
        (Ok tt, mkState (fs s) (log s) (zf s ++ [(arcname ++ "/", "")%string]))
    | inr (_, Some (Link _)) => (Raise (OSError ELOOP), s)
    | inr (_, None) => (Raise (OSError ENOENT), s)
    end.

(** [with zipfile.ZipFile(target_zip, 'w', ZIP_DEFLATED) as zf: body]:
    the file is created empty, and on the way out, an exception or not,
    the container is closed with the entries written so far. *)
Definition with_ZipFile_w {C : Codecs} (target_zip : path) (body : M unit) : M unit :=
  loc <- open_write target_zip "" ;;
  fun s =>
    let '(r, s') := body (mkState (fs s) (log s) []) in
    (r, mkState (update loc (Some (File (zip_encode (zf s')))) (fs s')) (log s') []).

(** [zf.getinfo(name)]: of two entries of one name the later one. *)
Fixpoint getinfo (a : archive) (name : string) : option string :=
  match a with
  | [] => None
  | (n, d) :: a' =>
      match getinfo a' name with
      | Some d' => Some d'
      | None => if String.eqb name n then Some d else None
      end
  end.

(** [name.endswith("/")]. *)
Fixpoint ends_with_slash (s : string) : bool :=
  match s with
  | EmptyString => false
  | String c EmptyString => Ascii.eqb c "/"
  | String _ s' => ends_with_slash s'
  end.

(** The name parts [ZipFile.extract] keeps. *)
Definition sanitize (member : string) : list string :=
  filter (fun x => negb (String.eqb x "" || String.eqb x "." || String.eqb x ".."))
         (split_slash member).

(** [zf.extract(member, target_dir)]. *)
Definition zf_extract (a : archive) (member : string) (target_dir : path) : M unit :=
  match getinfo a member with
  | None => raise (KeyError member)
  | Some data =>
      let targetpath := normpath (target_dir ++ sanitize member) in
      let upperdirs := parent targetpath in
      upper_exists <- read_fs (fun f => path_exists f upperdirs) ;;
      (if upper_exists then ret tt else makedirs upperdirs) ;;
      if ends_with_slash member then
        isdir <- read_fs (fun f => path_is_dir f targetpath) ;;
        if isdir then ret tt else os_mkdir targetpath
      else
        open_write targetpath data ;; ret tt
  end.

(** ** Well-formed trees *)

Fixpoint nodupb (l : list string) : bool :=
  match l with
  | [] => true
  | x :: l' => negb (existsb (String.eqb x) l') && nodupb l'
  end.

(** Every directory of the tree has entries of distinct, valid names. *)
Fixpoint names_ok (n : node) : bool :=
  match n with
  | Dir _ es =>
      nodupb (map fst es)
      && (fix all (l : list (string * node)) : bool :=
            match l with
            | [] => true
            | e :: l' => valid_name (fst e) && names_ok (snd e) && all l'
            end) es
  | _ => true
  end.

(** Every directory of the tree can be listed. *)
Fixpoint all_readable (n : node) : bool :=
  match n with
  | Dir r es =>
      r && (fix all (l : list (string * node)) : bool :=
              match l with
              | [] => true
              | e :: l' => all_readable (snd e) && all l'
              end) es
  | _ => true
  end.

(** Every absolute target of a symbolic link of the tree is resolved by
    [Path.resolve] without a [RuntimeError]: it does not lead into a
    loop of links. *)
Fixpoint abs_links_resolve (f : node) (n : node) : bool :=
  match n with
  | Dir _ es =>
      (fix all (l : list (string * node)) : bool :=
         match l with
         | [] => true
         | e :: l' => abs_links_resolve f (snd e) && all l'
         end) es
  | Link t => negb (isabs t) || resolves f (components t)
  | File _ => true
  end.

(** A path the kernel takes: no component is longer than [NAME_MAX],
    and the path as a string, with its closing NUL, is not longer than
    [PATH_MAX].  The system calls of the model do not have the error
    [ENAMETOOLONG] for other paths; the statements below are about
    paths that fit. *)
Definition path_fits (p : path) : bool :=
  forallb (fun c => Nat.leb (String.length c) NAME_MAX) p
  && Nat.ltb (S (String.length (join_slash p))) PATH_MAX.

(** Every path of the tree [n] placed at [p] fits. *)
Fixpoint tree_fits (p : path) (n : node) : bool :=
  path_fits p
  && match n with
     | Dir _ es =>
         (fix all (l : list (string * node)) : bool :=
            match l with
            | [] => true
            | e :: l' => tree_fits (p ++ [fst e]) (snd e) && all l'
            end) es
     | _ => true
     end.

(** The real path of every absolute target of a symbolic link of the
    tree fits. *)
Fixpoint abs_links_fit (f : node) (n : node) : bool :=
  match n with
  | Dir _ es =>
      (fix all (l : list (string * node)) : bool :=
         match l with
         | [] => true
         | e :: l' => abs_links_fit f (snd e) && all l'
         end) es
  | Link t => negb (isabs t) || path_fits (realpath f (components t))
  | File _ => true
  end.

(** [rel] leads through directories of [n] that can all be listed: the
    walk gets to the entry at [rel]. *)
Fixpoint visible (n : node) (rel : list string) : bool :=
  match rel with
  | [] => true
  | c :: rel' =>
      match n with
      | Dir r es =>
          r && match assoc c es with
               | Some ch => visible ch rel'
               | None => false
               end
      | _ => false
      end
  end.

(** The target the manifest stores for the link at [link_path] whose
    raw target is [t]. *)
Definition portable (f : node) (source_dir link_path : path) (t : string) : string :=
  if isabs t
  then relpath (realpath f (joinpath (parent link_path) t)) (realpath f source_dir)
  else t.

(** The target stored for every symbolic link of the tree [n], which is
    at [p], is one that [os.symlink] takes. *)
Fixpoint links_portable (f : node) (source_dir p : path) (n : node) : bool :=
  match n with
  | Dir _ es =>
      (fix all (l : list (string * node)) : bool :=
         match l with
         | [] => true
         | e :: l' => links_portable f source_dir (p ++ [fst e]) (snd e) && all l'
         end) es
  | Link t => link_target_ok (portable f source_dir p t)
  | File _ => true
  end.

(** What the entry at [rel] of the source becomes in the target. *)
Definition mirror (f : node) (source_dir : path) (rel : list string) : option kind :=
  match get f (source_dir ++ rel) with
  | Some (File d) => Some (KFile d)
  | Some (Link t) => Some (KLink (portable f source_dir (source_dir ++ rel) t))
  | Some (Dir _ _) => Some KDir
  | None => None
  end.

(** What one turn of the scanning loop adds to [links], and one turn of
    the archiving loop to the container, as functions of the file
    system. *)
Definition link_entry (f : node) (source_dir root : path) (name : string)
  : option (string * string) :=
  let item_path := joinpath root name in
  match relative_to item_path source_dir with
  | None => None
  | Some rel =>
      if path_is_symlink f item_path then
        match locate false f item_path with
        | inr (_, Some (Link t)) =>
            let v := portable f source_dir item_path t in
            if String.eqb v "" then None else Some (str_rel rel, v)
        | _ => None
        end
      else None
  end.

Definition file_entry (f : node) (source_dir root : path) (name : string)
  : option (string * string) :=
  let file_path := joinpath root name in
  if path_is_symlink f file_path then None
  else
    match relative_to file_path source_dir with
    | None => None
    | Some rel =>
        match locate true f file_path with
        | inr (_, Some (File d)) => Some (str_rel rel, d)
        | inr (_, Some (Dir _ _)) => Some ((str_rel rel ++ "/")%string, "")
        | _ => None
        end
    end.

Definition opt_list {A : Type} (o : option A) : list A :=
  match o with
  | Some a => [a]
  | None => []
  end.

(** The manifest of a walk: the pairs assigned to [links], in order. *)
Definition manifest_entries (f : node) (source_dir : path)
           (tree : list (path * list string * list string)) : list (string * string) :=
  flat_map (fun item =>
              let '(root, dirs, files) := item in
              flat_map (fun name => opt_list (link_entry f source_dir root name))
                       (files ++ dirs))
           tree.

Definition dict_of (l : list (string * string)) : dict :=
  fold_left (fun d kv => alist_set (fst kv) (snd kv) d) l [].

(** The file entries of a walk, in the order they are written. *)
Definition archive_entries (f : node) (source_dir : path)
           (tree : list (path * list string * list string)) : archive :=
  flat_map (fun item =>
              let '(root, _, files) := item in
              flat_map (fun name => opt_list (file_entry f source_dir root name)) files)
           tree.

(** ** The program *)

Definition is_valid_symlink (link_path : path) : M bool :=
  read_fs (fun f => path_is_symlink f link_path).

Definition get_relative_link_target (link_path source_dir : path) : M (option string) :=
  source_dir <- resolve source_dir ;;
  try_OSError
    (target <- os_readlink link_path ;;
     if negb (isabs target) then ret (Some target)
     else
       target_path <- resolve (joinpath (parent link_path) target) ;;
       target_exists <- read_fs (fun f => path_exists f target_path) ;;
       (if target_exists then ret tt else logger (WarnBrokenLink target_path)) ;;
       ret (Some (relpath target_path source_dir)))
    (fun e => logger (WarnReadLink link_path e) ;; ret None).

(** The body of the scanning loop, for one [name] of [files + dirs]. *)
Definition scan_item (source_dir root : path) (name : string) (links : dict) : M dict :=
  let item_path := joinpath root name in
  match relative_to item_path source_dir with
  | None => raise ValueError
  | Some rel =>
      let rel_path := str_rel rel in
      is_link <- is_valid_symlink item_path ;;
      if is_link then
        link_target <- get_relative_link_target item_path source_dir ;;
        match link_target with
        | Some t => if String.eqb t "" then ret links else ret (alist_set rel_path t links)
        | None => ret links
        end
      else ret links
  end.

(** The body of the archiving loop, for one [file] of [files]. *)
Definition add_file (source_dir root : path) (file : string) : M unit :=
  let file_path := joinpath root file in
  is_link <- is_valid_symlink file_path ;;
  if is_link then ret tt
  else
    match relative_to file_path source_dir with
    | None => raise ValueError
    | Some rel => zf_write file_path (str_rel rel)
    end.

Definition package_directory {C : Codecs} (source_dir target_zip : path) : M unit :=
  source_dir <- resolve source_dir ;;
  target_zip <- resolve target_zip ;;
  tree <- read_fs (fun f => os_walk f source_dir) ;;
  links <- for_fold tree
             (fun item links =>
                let '(root, dirs, files) := item in
                for_fold (files ++ dirs) (scan_item source_dir root) links)
             [] ;;
  let links_json_path := joinpath source_dir "links.json" in
  open_write links_json_path (json_dumps links) ;;
  with_ZipFile_w target_zip
    (zf_write links_json_path "links.json" ;;
     tree <- read_fs (fun f => os_walk f source_dir) ;;
     for_each tree
       (fun item =>
          let '(root, _, files) := item in
          for_each files (add_file source_dir root))) ;;
  os_unlink links_json_path.

(** The body of the restoring loop, for one item of the manifest. *)
Definition restore_link (target_dir : path) (item : string * jvalue) : M unit :=
  let '(link_path, link_target) := item in
  let target_path := joinpath target_dir link_path in
  mkdir_parents (parent target_path) ;;
  occupied <- read_fs (fun f => path_exists f target_path || path_is_symlink f target_path) ;;
  (if occupied then os_unlink target_path else ret tt) ;;
  match link_target with
  | JStr target_link_target =>
      try_OSError
        (os_symlink target_link_target target_path)
        (fun e => logger (ErrRestore link_path target_link_target e))
  | JOther => raise TypeError
  end.

Definition unpackage_directory {C : Codecs} (source_zip target_dir : path) : M unit :=
  source_zip <- resolve source_zip ;;
  target_dir <- resolve target_dir ;;
  mkdir_parents target_dir ;;
  bytes <- read_file source_zip ;;
  match zip_decode bytes with
  | None => raise BadZipFile
  | Some a =>
      match getinfo a "links.json" with
      | None => raise (KeyError "links.json")
      | Some links_json_data =>
          match json_loads links_json_data with
          | None => raise ValueError
          | Some links =>
              for_each (map fst a)
                (fun member =>
                   if String.eqb member "links.json" then ret tt
                   else zf_extract a member target_dir) ;;
              let links_json_path := joinpath target_dir "links.json" in
              present <- read_fs (fun f => path_exists f links_json_path) ;;
              (if present then os_unlink links_json_path else ret tt) ;;
              match links with
              | JNotDict => raise AttributeError
              | JDict items => for_each items (restore_link target_dir)
              end
          end
      end
  end.

(** [main], given the two arguments and the working directory; the
    result is the exit status of the process.  The tests on the file
    system are made from the working directory, the suffixes are those
    of the arguments as they are typed ([Path(".").suffix] is [""]). *)
Definition main {C : Codecs} (cwd : path) (source target : string) (s : state)
  : nat * state :=
  let source_path := Path cwd source in
  let target_path := Path cwd target in
  let run (m : M unit) :=
    match m s with
    | (Ok _, s') => (0, s')
    | (Raise e, s') => (1, mkState (fs s') (log s' ++ [ErrTop e]) (zf s'))
    end in
  if path_is_dir (fs s) source_path && String.eqb (suffix (components target)) ".zip" then
    run (package_directory source_path target_path)
  else if String.eqb (suffix (components source)) ".zip"
          && (path_is_dir (fs s) target_path || negb (path_exists (fs s) target_path)) then
    run (unpackage_directory source_path target_path)
  else
    (1, mkState (fs s) (log s ++ [ErrInvalidArguments]) (zf s)).

(** ** A concrete pair of codecs

    Used to run the model on concrete file systems: a string is written
    character by character, each behind a ["1"], and closed by a ["0"];
    a list of pairs likewise.  The first character tells a manifest from
    a container. *)
Module Sample.

Fixpoint enc_str (s : string) : string :=
  match s with
  | EmptyString => "0"
  | String c s' => String "1" (String c (enc_str s'))
  end.

Fixpoint enc_pairs (l : list (string * string)) : string :=
  match l with
  | [] => "0"
  | (k, v) :: l' => String "1" (enc_str k ++ enc_str v ++ enc_pairs l')
  end.

Fixpoint dec_str (s : string) : option (string * string) :=
  match s with
  | String a rest =>
      if Ascii.eqb a "0" then Some (EmptyString, rest)
      else
        match rest with
        | String c rest' =>
            match dec_str rest' with
            | Some (w, r) => Some (String c w, r)
            | None => None
            end
        | EmptyString => None
        end
  | EmptyString => None
  end.

Fixpoint dec_pairs (fuel : nat) (s : string) : option (list (string * string)) :=
  match fuel with
  | 0 => None
  | S fuel' =>
      match s with
      | String a rest =>
          if Ascii.eqb a "0" then
            match rest with EmptyString => Some [] | _ => None end
          else
            match dec_str rest with
            | Some (k, r1) =>
                match dec_str r1 with
                | Some (v, r2) =>
                    match dec_pairs fuel' r2 with
                    | Some l => Some ((k, v) :: l)
                    | None => None
                    end
                | None => None
                end
            | None => None
            end
      | EmptyString => None
      end
  end.

Definition tagged (tag : ascii) (l : list (string * string)) : string :=
  String tag (enc_pairs l).

Definition untag (tag : ascii) (s : string) : option (list (string * string)) :=
  match s with
  | String a rest => if Ascii.eqb a tag then dec_pairs (S (String.length rest)) rest else None
  | EmptyString => None
  end.

Definition codecs : Codecs := {|
  json_dumps := tagged "J";
  json_loads := fun s => option_map json_of_dict (untag "J" s);
  zip_encode := tagged "Z";
  zip_decode := untag "Z"
|}.

End Sample.

(** ** Concrete file systems

    A root with [/etc/hosts] and a home directory [/home], the working
    directory of the runs below. *)
Module Demo.

Definition root (home : list (string * node)) : node :=
  Dir true [("etc", Dir true [("hosts", File "127.0.0.1")]);
            ("home", Dir true home)].

Definition st (home : list (string * node)) : state := mkState (root home) [] [].

Definition cwd : path := ["home"].
Definition src : path := ["home"; "src"].
Definition zip : path := ["home"; "out.zip"].
Definition dst : path := ["home"; "dst"].

(** The tree of the specification: a file, a relative link, and an
    absolute link in a subdirectory. *)
Definition tree : node :=
  Dir true [("a.txt", File "hello");
            ("link_rel", Link "a.txt");
            ("sub", Dir true [("link_abs", Link "/etc/hosts")])].

(** A source with a directory that cannot be listed. *)
Definition guarded : node :=
  Dir true [("a.txt", File "hello");
            ("secret", Dir false [("key.pem", File "k")])].

(** A container as the sample codecs write it. *)
Definition container (manifest : dict) (files : archive) : node :=
  File (Sample.tagged "Z" (("links.json", Sample.tagged "J" manifest) :: files)).

End Demo.

(* ================================================================= *)
(** * Notions the statements are written with *)

Unset Implicit Arguments.

(** The state with another file system. *)
Definition with_fs (s : state) (f : node) : state := mkState f (log s) (zf s).

(** What a system call writes at a path: nothing, a file, a link, or
    an empty directory. *)
Definition leaf (v : option node) : Prop :=
  match v with
  | Some (Dir _ es) => es = []
  | _ => True
  end.

(** A path is tame when it has no [".."] and everything strictly above
    its end is a directory or missing: no symbolic link and no file is
    in the way. *)
Definition tame_from (f : node) (cur : path) (todo : list string) : Prop :=
  ~ In ".." todo /\
  lookup f cur = Some KDir /\
  forall q r, todo = q ++ r -> q <> [] -> r <> [] ->
              lookup f (cur ++ q) = None \/ lookup f (cur ++ q) = Some KDir.

(** From the root. *)
Definition tame (f : node) (p : path) : Prop := tame_from f [] p.

(** The path itself is not a symbolic link. *)
Definition not_link (f : node) (p : path) : Prop :=
  forall t, lookup f p <> Some (KLink t).

(** [f'] is [f] with the directories down to [p] made. *)
Definition dirs_made (f f' : node) (p : path) : Prop :=
  forall q, lookup f' q = if is_prefix q p then Some KDir else lookup f q.

(** Components that can be names of entries. *)
Definition valid_rel (cs : list string) : Prop := Forall (fun c => valid_name c = true) cs.

(** The triple [os.walk] yields for a directory. *)
Definition walk_item (f : node) (root : path) (es : list (string * node))
  : path * list string * list string :=
  (root,
   map fst (filter (entry_is_dir f root) es),
   map fst (filter (fun e => negb (entry_is_dir f root e)) es)).

(** The directories the walk gets to. *)
Definition walked (n : node) (rel : list string) (es : list (string * node)) : Prop :=
  visible n rel = true /\ get n rel = Some (Dir true es).

(** The manifest after one item of the scan. *)
Definition add_entry (d : dict) (o : option (string * string)) : dict :=
  match o with
  | Some kv => alist_set (fst kv) (snd kv) d
  | None => d
  end.

(** Pairs of one key have one value. *)
Definition functional (l : list (string * string)) : Prop :=
  forall k v v', In (k, v) l -> In (k, v') l -> v = v'.

(** The manifest has [k -> v]: a link the walk reaches at [k], with
    the portable target [v]. *)
Definition link_at (f : node) (src : path) (n : node) (k v : string) : Prop :=
  exists rel t,
    rel <> [] /\ visible n rel = true /\ get n rel = Some (Link t) /\
    k = join_slash rel /\ v = portable f src (src ++ rel) t /\ v <> "".

(** The container has the file [k] with content [d]: a regular file
    the walk reaches at [k]. *)
Definition file_at (n : node) (k d : string) : Prop :=
  exists rel,
    rel <> [] /\ visible n rel = true /\ get n rel = Some (File d) /\ k = join_slash rel.

(** What [package_directory] needs of the source and of the place of
    the container: the source is a directory reached without [".."] and
    without symbolic links, its entries have valid, distinct names, none
    at the top is [links.json]; the container goes to a directory that
    is there, outside the source, where nothing or a regular file is;
    the source root can be listed, and no absolute target of a link of
    the source leads into a loop of links; the paths of the source, of
    the temporary manifest, of the container and the real paths of the
    absolute targets fit. *)
Definition pack_ready (f : node) (src zip : path) (r : bool)
           (es : list (string * node)) : Prop :=
  get f src = Some (Dir r es) /\
  ~ In ".." src /\
  names_ok (Dir r es) = true /\
  assoc "links.json" es = None /\
  ~ In ".." zip /\
  zip <> [] /\
  lookup f (parent zip) = Some KDir /\
  (lookup f zip = None \/ exists d, lookup f zip = Some (KFile d)) /\
  is_prefix src zip = false /\
  r = true /\
  abs_links_resolve f (Dir r es) = true /\
  abs_links_fit f (Dir r es) = true /\
  tree_fits src (Dir r es) = true /\
  path_fits (src ++ ["links.json"]) = true /\
  path_fits zip = true.

(** The target holds nothing that is not the image of a source entry. *)
Definition mirrors (f0 : node) (src tgt : path) (g : node) : Prop :=
  ~ In ".." tgt /\
  lookup g tgt = Some KDir /\
  forall rel k, rel <> [] -> lookup g (tgt ++ rel) = Some k -> mirror f0 src rel = Some k.

(** What is below the target stays. *)
Definition grows (tgt : path) (g g' : node) : Prop :=
  forall rel k, lookup g (tgt ++ rel) = Some k -> lookup g' (tgt ++ rel) = Some k.

(** The entry named [key] is in the target, as in the source. *)
Definition placed (f0 : node) (src tgt : path) (key : string) (s : state) : Prop :=
  forall rel, valid_rel rel -> key = join_slash rel ->
              exists k, mirror f0 src rel = Some k /\ lookup (fs s) (tgt ++ rel) = Some k.

(** The target directory is not there yet, or is there and empty. *)
Definition fresh_target (f : node) (tgt : path) : Prop :=
  tame f tgt /\
  (lookup f tgt = None \/ lookup f tgt = Some KDir) /\
  forall rel, rel <> [] -> lookup f (tgt ++ rel) = None.

(** [m] keeps the property [Q] of the file system, whatever its
    outcome. *)
Definition preserves {A : Type} (Q : node -> Prop) (m : M A) : Prop :=
  forall s r s', m s = (r, s') -> Q (fs s) -> Q (fs s').

(** [Q] survives writing [v] at a place that is not a directory. *)
Definition stable (Q : node -> Prop) (v : option node) : Prop :=
  forall n loc, lookup n loc <> Some KDir ->
                (v <> None -> lookup n loc = None \/ exists d d', v = Some (File d) /\ lookup n loc = Some (KFile d')) ->
                Q n -> Q (update loc v n).

(** No regular file at [X]. *)
Definition no_file (X : path) (n : node) : Prop := forall d, lookup n X <> Some (KFile d).

(** The arguments are invalid: the source is neither a directory nor a
    container (a regular file named with the suffix [.zip]); or it is a
    directory and the target has not the suffix [.zip]; or it is a
    container and the target exists and is not a directory. *)
Definition invalid_arguments (f : node) (cwd : path) (source target : string) : Prop :=
  (lookup f (Path cwd source) <> Some KDir
   /\ ~ ((exists d, lookup f (Path cwd source) = Some (KFile d))
         /\ suffix (components source) = ".zip"))
  \/ (lookup f (Path cwd source) = Some KDir /\ suffix (components target) <> ".zip")
  \/ (((exists d, lookup f (Path cwd source) = Some (KFile d))
       /\ suffix (components source) = ".zip")
      /\ lookup f (Path cwd target) <> None
      /\ lookup f (Path cwd target) <> Some KDir).

(* ================================================================= *)
(** * Part II: properties *)

#[local] Arguments update : simpl never.
#[local] Arguments get : simpl never.

(* ----------------------------------------------------------------- *)
(** ** Association lists and trees *)

Lemma is_prefix_app p q : is_prefix p (p ++ q) = true.
Proof. induction p; simpl; auto. rewrite String.eqb_refl; auto. Qed.

Lemma is_prefix_spec p q : is_prefix p q = true <-> exists r, q = p ++ r.
Proof.
  revert q; induction p as [|a p IH]; intros q; simpl.
  - split; eauto.
  - destruct q as [|b q].
    + split; [discriminate|intros [r H]; discriminate].
    + rewrite andb_true_iff, String.eqb_eq, IH. split.
      * intros [-> [r ->]]. eauto.
      * intros [r H]. inversion H; subst. eauto.
Qed.

Lemma assoc_set_same A k (v : A) es : assoc k (alist_set k v es) = Some v.
Proof.
  induction es as [|[k' v'] es IH]; simpl.
  - now rewrite String.eqb_refl.
  - destruct (String.eqb_spec k k'); simpl.
    + now rewrite String.eqb_refl.
    + destruct (String.eqb_spec k k'); [contradiction|auto].
Qed.

Lemma assoc_set_other A k k' (v : A) es : k' <> k -> assoc k' (alist_set k v es) = assoc k' es.
Proof.
  intros Hne. induction es as [|[k0 v0] es IH]; simpl.
  - destruct (String.eqb_spec k' k); [contradiction|auto].
  - destruct (String.eqb_spec k k0); simpl.
    + subst. destruct (String.eqb_spec k' k0); [contradiction|auto].
    + destruct (String.eqb_spec k' k0); auto.
Qed.

Lemma assoc_del_same A k (es : list (string * A)) : assoc k (alist_del k es) = None.
Proof.
  induction es as [|[k' v'] es IH]; simpl; auto.
  destruct (String.eqb_spec k k'); simpl; auto.
  destruct (String.eqb_spec k k'); [contradiction|auto].
Qed.

Lemma assoc_del_other A k k' (es : list (string * A)) : k' <> k -> assoc k' (alist_del k es) = assoc k' es.
Proof.
  intros Hne. induction es as [|[k0 v0] es IH]; simpl; auto.
  destruct (String.eqb_spec k k0); simpl.
  - subst. destruct (String.eqb_spec k' k0); [contradiction|auto].
  - destruct (String.eqb_spec k' k0); auto.
Qed.

Lemma update_single c v n :
  update [c] v n =
  match n with
  | Dir r es => Dir r (match v with Some x => alist_set c x es | None => alist_del c es end)
  | _ => n end.
Proof. reflexivity. Qed.

Lemma update_cons c p v n :
  p <> [] ->
  update (c :: p) v n =
  match n with
  | Dir r es => match assoc c es with
                | Some ch => Dir r (alist_set c (update p v ch) es)
                | None => n end
  | _ => n end.
Proof. destruct p; [congruence|reflexivity]. Qed.

Lemma get_cons n c p :
  get n (c :: p) = match n with
                   | Dir _ es => match assoc c es with Some ch => get ch p | None => None end
                   | _ => None end.
Proof. reflexivity. Qed.

(* update never changes what kind of node the root is *)
Lemma kind_of_update p v n : kind_of (update p v n) = kind_of n.
Proof.
  destruct p as [|c [|c' p]]; auto.
  - rewrite update_single. destruct n; auto.
  - rewrite update_cons by discriminate. destruct n; auto. destruct (assoc c entries); auto.
Qed.

(* lookups that do not pass through [p] *)
Lemma get_update_other p v n q :
  is_prefix p q = false -> is_prefix q p = false -> get (update p v n) q = get n q.
Proof.
  revert n q. induction p as [|c p IH]; intros n q Hpq Hqp.
  - discriminate.
  - destruct q as [|d q]; [discriminate|].
    simpl in Hpq, Hqp.
    destruct (String.eqb_spec c d) as [->|Hne].
    + rewrite String.eqb_refl in Hqp. cbn [andb] in *.
      destruct p as [|c' p].
      * destruct q; discriminate.
      * rewrite update_cons by discriminate. destruct n as [| |r es]; auto.
        destruct (assoc d es) as [ch|] eqn:E; auto.
        rewrite !get_cons, assoc_set_same, E. apply IH; auto.
    + assert (d <> c) by congruence.
      destruct p as [|c' p].
      * rewrite update_single. destruct n as [| |r es]; auto. rewrite !get_cons.
        destruct v; [rewrite assoc_set_other|rewrite assoc_del_other]; auto.
      * rewrite update_cons by discriminate. destruct n as [| |r es]; auto.
        destruct (assoc c es) as [ch|] eqn:E; auto.
        rewrite !get_cons, assoc_set_other; auto.
Qed.

(* lookups strictly above [p] see the same kind *)
Lemma get_update_above q p' v n :
  p' <> [] -> get (update (q ++ p') v n) q = option_map (update p' v) (get n q).
Proof.
  revert n. induction q as [|d q IH]; intros n Hne; simpl app.
  - reflexivity.
  - rewrite update_cons by (destruct q, p'; try discriminate; congruence).
    rewrite !get_cons.
    destruct n as [| |r0 es]; auto.
    destruct (assoc d es) as [ch|] eqn:Ea; rewrite ?get_cons, ?Ea; auto.
    rewrite assoc_set_same. apply IH; auto.
Qed.

Lemma lookup_update_above q p' v n :
  p' <> [] -> lookup (update (q ++ p') v n) q = lookup n q.
Proof.
  intros. unfold lookup. rewrite get_update_above by auto.
  destruct (get n q); simpl; auto. now rewrite kind_of_update.
Qed.

(* at [p] itself and below *)
Lemma get_update_at p c v n r es q :
  get n p = Some (Dir r es) ->
  get (update (p ++ [c]) v n) (p ++ c :: q) =
  match v with Some x => get x q | None => None end.
Proof.
  revert n. induction p as [|d p IH]; intros n H; simpl app.
  - inversion H; subst. rewrite update_single, get_cons.
    destruct v; [now rewrite assoc_set_same | now rewrite assoc_del_same].
  - rewrite get_cons in H.
    destruct n as [| |r0 es0]; try discriminate.
    destruct (assoc d es0) as [ch|] eqn:E; try discriminate.
    rewrite update_cons by (destruct p; discriminate).
    cbv iota beta. rewrite E, get_cons, assoc_set_same.
    eapply IH; eauto.
Qed.

Lemma get_nil n : get n [] = Some n.
Proof. reflexivity. Qed.

Lemma get_app n p q :
  get n (p ++ q) = match get n p with Some m => get m q | None => None end.
Proof.
  revert n. induction p as [|c p IH]; intros n; simpl app; auto.
  rewrite !get_cons. destruct n; auto. destruct (assoc c entries); auto.
Qed.

Lemma lookup_dir n p : lookup n p = Some KDir <-> exists r es, get n p = Some (Dir r es).
Proof.
  unfold lookup. destruct (get n p) as [[| |r es]|]; simpl; split;
    try discriminate; try (intros (? & ? & ?); discriminate); eauto.
Qed.

Lemma lookup_below_nondir n p q :
  lookup n p <> Some KDir -> q <> [] -> lookup n (p ++ q) = None.
Proof.
  intros H Hq. unfold lookup in *. rewrite get_app.
  destruct (get n p) as [[| |r es]|]; simpl in *; auto; try congruence;
    destruct q; try congruence; reflexivity.
Qed.

Lemma update_noop p c v n :
  lookup n p <> Some KDir -> update (p ++ [c]) v n = n.
Proof.
  revert n. induction p as [|d p IH]; intros n H; simpl app.
  - rewrite update_single. destruct n; auto. exfalso. apply H. reflexivity.
  - rewrite update_cons by (destruct p; discriminate).
    destruct n as [| |r es]; auto.
    destruct (assoc d es) as [ch|] eqn:E; auto.
    rewrite IH.
    + f_equal. clear -E. induction es as [|[k x] es IHes]; simpl in *; try discriminate.
      destruct (String.eqb_spec d k); subst.
      * congruence.
      * f_equal. auto.
    + intros Hc. apply H. unfold lookup in *. rewrite get_cons, E. exact Hc.
Qed.

Lemma lookup_update_same p c v n :
  lookup n p = Some KDir ->
  lookup (update (p ++ [c]) v n) (p ++ [c]) = option_map kind_of v.
Proof.
  intros H. apply lookup_dir in H. destruct H as (r & es & H).
  unfold lookup. rewrite get_update_at with (q := []) (r := r) (es := es) by exact H. destruct v; reflexivity.
Qed.

Lemma is_prefix_refl p : is_prefix p p = true.
Proof. induction p; simpl; auto. now rewrite String.eqb_refl. Qed.

Lemma prefix_cases p q :
  (exists r, q = p ++ r) \/ (exists r, r <> [] /\ p = q ++ r) \/
  (is_prefix p q = false /\ is_prefix q p = false).
Proof.
  destruct (is_prefix p q) eqn:E1.
  - left. now apply is_prefix_spec.
  - destruct (is_prefix q p) eqn:E2; auto.
    right; left. apply is_prefix_spec in E2. destruct E2 as [r ->].
    exists r. split; auto. intros ->. rewrite app_nil_r, is_prefix_refl in E1. discriminate.
Qed.

Lemma rev_case (A : Type) (l : list A) : l = [] \/ exists l' x, l = l' ++ [x].
Proof.
  destruct l as [|a l] using rev_ind; [now left|right; eauto].
Qed.

(** Writing or removing a leaf changes what is at that place only. *)
Lemma lookup_update_diff P v n q :
  leaf v -> lookup n P <> Some KDir -> q <> P ->
  lookup (update P v n) q = lookup n q.
Proof.
  intros Hleaf Hold Hne.
  destruct (rev_case _ P) as [->|(p & c & ->)]; [reflexivity|].
  destruct (option_map kind_of (get n p)) as [[| |]|] eqn:Hp;
    try (rewrite update_noop; [reflexivity|unfold lookup; congruence]).
  assert (Hd : lookup n p = Some KDir) by exact Hp.
  destruct (prefix_cases (p ++ [c]) q) as [[r ->]|[(r & Hr & E)|[E1 E2]]].
  - destruct r as [|d r]; [rewrite app_nil_r in Hne; congruence|].
    replace (lookup n ((p ++ [c]) ++ d :: r)) with (@None kind)
      by (symmetry; apply lookup_below_nondir; [exact Hold|discriminate]).
    apply lookup_dir in Hd. destruct Hd as (r0 & es & Hd).
    unfold lookup. rewrite <- app_assoc. simpl app.
    rewrite get_update_at with (r := r0) (es := es) by exact Hd.
    destruct v as [[| |r1 es1]|]; try reflexivity.
    simpl in Hleaf. subst. reflexivity.
  - rewrite E. apply lookup_update_above; auto.
  - unfold lookup. rewrite get_update_other; auto.
Qed.

Lemma lookup_below_nondir_or_self n p q :
  lookup n p <> Some KDir -> lookup n p = None -> lookup n (p ++ q) = None.
Proof.
  intros H Hn. destruct q; [now rewrite app_nil_r|].
  apply lookup_below_nondir; auto. discriminate.
Qed.

(* ----------------------------------------------------------------- *)
(** ** Path resolution on paths without links *)

Lemma namei_nil fuel f follow cur : namei fuel f follow cur [] = inr cur.
Proof. destruct fuel; reflexivity. Qed.

Lemma namei_cons fuel f follow cur c rest :
  namei fuel f follow cur (c :: rest) =
  if String.eqb c ".." then namei fuel f follow (removelast cur) rest
  else
    match get f (cur ++ [c]) with
    | Some (Dir _ _) => namei fuel f follow (cur ++ [c]) rest
    | Some (Link t) =>
        if follow || negb (Nat.eqb (length rest) 0) then
          if String.eqb t "" then inl ENOENT
          else
            match fuel with
            | 0 => inl ELOOP
            | S fuel' =>
                namei fuel' f follow (if isabs t then [] else cur) (components t ++ rest)
            end
        else inr (cur ++ [c])
    | Some (File _) => match rest with [] => inr (cur ++ [c]) | _ => inl ENOTDIR end
    | None => match rest with [] => inr (cur ++ [c]) | _ => inl ENOENT end
    end.
Proof. destruct fuel; reflexivity. Qed.

Lemma joinrealpath_nil fuel f entered cur :
  joinrealpath fuel f entered cur [] = (cur, true).
Proof. destruct fuel; reflexivity. Qed.

Lemma joinrealpath_cons fuel f entered cur c rest :
  joinrealpath fuel f entered cur (c :: rest) =
  if String.eqb c ".." then joinrealpath fuel f entered (removelast cur) rest
  else
    match get f (cur ++ [c]) with
    | Some (Link t) =>
        if mem_path (cur ++ [c]) entered then ((cur ++ [c]) ++ rest, false)
        else
          match fuel with
          | 0 => ((cur ++ [c]) ++ rest, false)
          | S fuel' =>
              let '(p, ok) :=
                joinrealpath fuel' f ((cur ++ [c]) :: entered)
                             (if isabs t then [] else cur) (components t) in
              if ok then joinrealpath fuel f entered p rest else (p ++ rest, false)
          end
    | _ => joinrealpath fuel f entered (cur ++ [c]) rest
    end.
Proof. destruct fuel; reflexivity. Qed.

Lemma tame_from_step f cur c rest :
  tame_from f cur (c :: rest) -> rest <> [] ->
  lookup f (cur ++ [c]) = Some KDir ->
  tame_from f (cur ++ [c]) rest.
Proof.
  intros (Hdd & Hcur & Hpre) Hrest Hc. repeat split; auto.
  - intros Hin. apply Hdd. now right.
  - intros q r -> Hq Hr. rewrite <- app_assoc. apply (Hpre ([c] ++ q) r); auto.
    discriminate.
Qed.

Lemma namei_tame fuel f follow todo : forall cur,
  tame_from f cur todo -> todo <> [] ->
  (follow = true -> not_link f (cur ++ todo)) ->
  namei fuel f follow cur todo =
  match lookup f (cur ++ removelast todo) with
  | Some KDir => inr (cur ++ todo)
  | _ => inl ENOENT
  end.
Proof.
  induction todo as [|c rest IH]; intros cur Ht Hne Hfollow; [congruence|].
  pose proof Ht as (Hdd & Hcur & Hpre).
  rewrite namei_cons.
  destruct (String.eqb_spec c "..") as [->|Hc]; [exfalso; apply Hdd; now left|].
  destruct rest as [|c' rest].
  - simpl removelast. rewrite app_nil_r, Hcur.
    unfold not_link, lookup in Hfollow.
    destruct (get f (cur ++ [c])) as [[d|t|r es]|]; auto.
    + simpl. destruct follow; simpl; auto.
      exfalso. apply (Hfollow eq_refl t). reflexivity.
    + now rewrite namei_nil.
  - replace (cur ++ removelast (c :: c' :: rest))
      with ((cur ++ [c]) ++ removelast (c' :: rest))
      by (rewrite <- app_assoc; reflexivity).
    destruct (Hpre [c] (c' :: rest) eq_refl) as [Hn|Hd]; try discriminate.
    + rewrite lookup_below_nondir_or_self by (rewrite ?Hn; auto; discriminate).
      unfold lookup in Hn. destruct (get f (cur ++ [c])); [discriminate|reflexivity].
    + pose proof Hd as Hd'. apply lookup_dir in Hd'. destruct Hd' as (r & es & Hg).
      rewrite Hg. rewrite IH.
      * replace ((cur ++ [c]) ++ c' :: rest) with (cur ++ c :: c' :: rest)
          by (rewrite <- app_assoc; reflexivity).
        reflexivity.
      * apply tame_from_step; auto. discriminate.
      * discriminate.
      * rewrite <- app_assoc. exact Hfollow.
Qed.

Lemma joinrealpath_plain fuel f entered todo : forall cur,
  ~ In ".." todo ->
  (forall q r, todo = q ++ r -> q <> [] -> not_link f (cur ++ q)) ->
  joinrealpath fuel f entered cur todo = (cur ++ todo, true).
Proof.
  induction todo as [|c rest IH]; intros cur Hdd Hnl.
  - now rewrite joinrealpath_nil, app_nil_r.
  - rewrite joinrealpath_cons.
    destruct (String.eqb_spec c "..") as [->|Hc]; [exfalso; apply Hdd; now left|].
    assert (E : joinrealpath fuel f entered (cur ++ [c]) rest = (cur ++ c :: rest, true)).
    { rewrite IH.
      - now rewrite <- app_assoc.
      - intros Hin. apply Hdd. now right.
      - intros q r -> Hq. rewrite <- app_assoc. apply (Hnl ([c] ++ q) r); auto. discriminate. }
    pose proof (Hnl [c] rest eq_refl) as H1. unfold not_link, lookup in H1.
    destruct (get f (cur ++ [c])) as [[d|t|r es]|]; auto.
    exfalso. apply (H1 ltac:(discriminate) t). reflexivity.
Qed.

Lemma tame_not_link f p q r :
  tame f p -> p = q ++ r -> r <> [] -> not_link f q.
Proof.
  intros (Hdd & Hroot & Hpre) -> Hr t.
  destruct q as [|c q].
  - simpl in *. rewrite Hroot. discriminate.
  - destruct (Hpre (c :: q) r eq_refl) as [H|H]; try discriminate; auto;
      simpl in H; rewrite H; discriminate.
Qed.

Lemma realpath_tame f p : tame f p -> not_link f p -> realpath f p = p.
Proof.
  intros Ht Hnl. unfold realpath. rewrite joinrealpath_plain; auto.
  - apply Ht.
  - intros q r E Hq. simpl. destruct r as [|d r].
    + rewrite app_nil_r in E. now subst.
    + eapply tame_not_link; eauto. discriminate.
Qed.

Lemma locate_tame f follow p :
  tame f p -> p <> [] -> (follow = true -> not_link f p) ->
  locate follow f p =
  match lookup f (parent p) with
  | Some KDir => inr (p, get f p)
  | _ => inl ENOENT
  end.
Proof.
  intros Ht Hne Hf. unfold locate. rewrite namei_tame; auto.
  simpl. unfold parent. destruct (lookup f (removelast p)) as [[| |]|]; auto.
Qed.

Lemma locate_root f follow : locate follow f [] = inr ([], Some f).
Proof. unfold locate. now rewrite namei_nil. Qed.

(** On a path without links [Path.resolve] has no loop to meet. *)
Lemma resolves_tame f p : tame f p -> not_link f p -> resolves f p = true.
Proof.
  intros Ht Hnl. unfold resolves. rewrite realpath_tame by auto.
  destruct p as [|c p].
  - now rewrite locate_root.
  - rewrite locate_tame by (auto; discriminate).
    now destruct (lookup f (parent (c :: p))) as [[| |]|].
Qed.

(* ----------------------------------------------------------------- *)
(** ** System calls on paths without links *)

Lemma parent_snoc (p : path) c : parent (p ++ [c]) = p.
Proof. unfold parent. apply removelast_last. Qed.

Lemma lookup_parent_dir f p :
  p <> [] -> lookup f p <> None -> lookup f (parent p) = Some KDir.
Proof.
  intros Hne H. destruct (rev_case _ p) as [->|(p' & c & ->)]; [congruence|].
  rewrite parent_snoc.
  destruct (lookup f p') as [[| |]|] eqn:E; auto; exfalso; apply H;
    apply lookup_below_nondir; rewrite ?E; discriminate.
Qed.

Lemma lookup_prefix_dir f q r :
  r <> [] -> lookup f (q ++ r) <> None -> lookup f q = Some KDir.
Proof.
  intros Hr H.
  destruct (lookup f q) as [[| |]|] eqn:E; auto; exfalso; apply H;
    apply lookup_below_nondir; rewrite ?E; auto; discriminate.
Qed.

Lemma stat_kind_tame f follow p :
  tame f p -> (follow = true -> not_link f p) -> stat_kind follow f p = lookup f p.
Proof.
  intros Ht Hf. unfold stat_kind.
  destruct p as [|c p'] using rev_ind.
  - rewrite locate_root. reflexivity.
  - clear IHp'. rewrite locate_tame; auto; [|destruct p'; discriminate].
    rewrite parent_snoc.
    destruct (lookup f p') as [[| |]|] eqn:E;
      try (symmetry; apply lookup_below_nondir; rewrite ?E; discriminate).
    unfold lookup. destruct (get f (p' ++ [c])); reflexivity.
Qed.

Lemma path_exists_tame f p :
  tame f p -> not_link f p ->
  path_exists f p = match lookup f p with Some _ => true | None => false end.
Proof. intros. unfold path_exists. now rewrite stat_kind_tame. Qed.

Lemma path_is_dir_tame f p :
  tame f p -> not_link f p ->
  path_is_dir f p = match lookup f p with Some KDir => true | _ => false end.
Proof. intros. unfold path_is_dir. now rewrite stat_kind_tame. Qed.

Lemma path_is_symlink_tame f p :
  tame f p ->
  path_is_symlink f p = match lookup f p with Some (KLink _) => true | _ => false end.
Proof. intros. unfold path_is_symlink. rewrite stat_kind_tame; auto. discriminate. Qed.

Lemma lookup_get_none f p : lookup f p = None -> get f p = None.
Proof. unfold lookup. destruct (get f p); [discriminate|auto]. Qed.

Lemma os_mkdir_new s p :
  tame (fs s) p -> lookup (fs s) (parent p) = Some KDir -> p <> [] ->
  lookup (fs s) p = None ->
  os_mkdir p s = (Ok tt, with_fs s (update p (Some (Dir true [])) (fs s))).
Proof.
  intros Ht Hp Hne Hn. unfold os_mkdir. rewrite locate_tame; auto; [|discriminate].
  rewrite Hp, (lookup_get_none _ _ Hn). reflexivity.
Qed.

Lemma os_mkdir_exists s p k :
  tame (fs s) p -> lookup (fs s) p = Some k ->
  os_mkdir p s = (Raise (OSError EEXIST), s).
Proof.
  intros Ht Hk. unfold os_mkdir.
  destruct (path_eq_dec p []) as [->|Hne].
  - rewrite locate_root. reflexivity.
  - rewrite locate_tame; auto; [|discriminate].
    rewrite lookup_parent_dir; auto; [|congruence].
    unfold lookup in Hk. destruct (get (fs s) p); [reflexivity|discriminate].
Qed.

Lemma os_mkdir_noparent s p :
  tame (fs s) p -> p <> [] -> lookup (fs s) (parent p) = None ->
  os_mkdir p s = (Raise (OSError ENOENT), s).
Proof.
  intros Ht Hne Hn. unfold os_mkdir. rewrite locate_tame; auto; [|discriminate].
  now rewrite Hn.
Qed.

Lemma os_unlink_leaf s p :
  tame (fs s) p ->
  p <> [] ->
  (exists k, lookup (fs s) p = Some k /\ k <> KDir) ->
  os_unlink p s = (Ok tt, with_fs s (update p None (fs s))).
Proof.
  intros Ht Hne (k & Hk & Hnd). unfold os_unlink. rewrite locate_tame; auto; [|discriminate].
  rewrite lookup_parent_dir; auto; [|congruence].
  unfold lookup in Hk. destruct (get (fs s) p) as [[| |]|]; simpl in Hk; try discriminate;
    try reflexivity. congruence.
Qed.

Lemma link_target_ok_spec t :
  link_target_ok t = true ->
  has_nul t = false /\ Nat.leb PATH_MAX (String.length t) = false /\ t <> "".
Proof.
  unfold link_target_ok. rewrite !andb_true_iff, !negb_true_iff.
  intros [[H1 H2] H3]. split; [exact H1|]. split.
  - apply Nat.leb_gt. now apply Nat.ltb_lt.
  - intros ->. discriminate.
Qed.

Lemma os_symlink_new s p t :
  tame (fs s) p -> lookup (fs s) (parent p) = Some KDir -> p <> [] ->
  lookup (fs s) p = None -> link_target_ok t = true ->
  os_symlink t p s = (Ok tt, with_fs s (update p (Some (Link t)) (fs s))).
Proof.
  intros Ht Hp Hne Hn Hnt. unfold os_symlink.
  destruct (link_target_ok_spec t Hnt) as (-> & -> & Hnn).
  destruct (String.eqb_spec t ""); [contradiction|].
  rewrite locate_tame; auto; [|discriminate].
  rewrite Hp, (lookup_get_none _ _ Hn). reflexivity.
Qed.

Lemma open_write_tame s p data :
  tame (fs s) p -> lookup (fs s) (parent p) = Some KDir -> p <> [] ->
  (lookup (fs s) p = None \/ exists d, lookup (fs s) p = Some (KFile d)) ->
  open_write p data s = (Ok p, with_fs s (update p (Some (File data)) (fs s))).
Proof.
  intros Ht Hp Hne Hk. unfold open_write.
  rewrite locate_tame; auto.
  - rewrite Hp. unfold lookup in Hk.
    destruct (get (fs s) p) as [[| |]|]; try reflexivity;
      destruct Hk as [Hk|[d Hk]]; discriminate.
  - intros _ t. destruct Hk as [Hk|[d Hk]]; rewrite Hk; discriminate.
Qed.

Lemma read_file_tame s p d :
  tame (fs s) p -> lookup (fs s) p = Some (KFile d) ->
  read_file p s = (Ok d, s).
Proof.
  intros Ht Hk. unfold read_file.
  destruct (path_eq_dec p []) as [->|Hne].
  - destruct Ht as (_ & Hroot & _). rewrite Hk in Hroot. discriminate.
  - rewrite locate_tame; auto.
    + rewrite lookup_parent_dir; auto; [|congruence].
      unfold lookup in Hk. destruct (get (fs s) p) as [[| |]|]; try discriminate.
      simpl in Hk. congruence.
    + intros _ t. rewrite Hk. discriminate.
Qed.

(** What a leaf written at [p] changes. *)
Lemma lookup_write f p v q :
  p <> [] -> lookup f (parent p) = Some KDir -> leaf v -> lookup f p <> Some KDir ->
  lookup (update p v f) q =
  if path_eq_dec q p then option_map kind_of v else lookup f q.
Proof.
  intros Hne Hp Hl Hold.
  destruct (path_eq_dec q p) as [->|Hq].
  - destruct (rev_case _ p) as [->|(p' & c & ->)]; [congruence|].
    rewrite parent_snoc in Hp. now apply lookup_update_same.
  - now apply lookup_update_diff.
Qed.

Lemma is_prefix_snoc q p c :
  is_prefix q (p ++ [c]) = true <-> is_prefix q p = true \/ q = p ++ [c].
Proof.
  rewrite !is_prefix_spec. split.
  - intros [r E]. destruct (rev_case _ r) as [->|(r' & x & ->)].
    + right. now rewrite app_nil_r in E.
    + left. rewrite app_assoc in E. apply app_inj_tail in E. destruct E as [-> _]. eauto.
  - intros [[r ->]| ->].
    + exists (r ++ [c]). now rewrite app_assoc.
    + exists []. now rewrite app_nil_r.
Qed.

Lemma tame_prefix f p r : tame f (p ++ r) -> tame f p.
Proof.
  intros (Hdd & Hroot & Hpre). repeat split; auto.
  - intros Hin. apply Hdd. apply in_or_app. now left.
  - intros q r' -> Hq Hr'. apply (Hpre q (r' ++ r)).
    + now rewrite app_assoc.
    + auto.
    + destruct r'; [congruence|discriminate].
Qed.

Lemma tame_above f p r :
  tame f (p ++ r) -> r <> [] -> lookup f p = None \/ lookup f p = Some KDir.
Proof.
  intros (Hdd & Hroot & Hpre) Hr. destruct p as [|c p].
  - right. exact Hroot.
  - apply (Hpre (c :: p) r); auto. discriminate.
Qed.

Lemma tame_intro f p :
  ~ In ".." p -> lookup f [] = Some KDir ->
  (forall q r, p = q ++ r -> q <> [] -> r <> [] ->
               lookup f q = None \/ lookup f q = Some KDir) ->
  tame f p.
Proof. intros. repeat split; auto. Qed.

(** Two file systems that agree on what is at or above [p]. *)
Lemma tame_transfer f f' p :
  tame f p ->
  lookup f' [] = Some KDir ->
  (forall q r, p = q ++ r -> r <> [] ->
               lookup f' q = lookup f q \/ lookup f' q = Some KDir) ->
  tame f' p.
Proof.
  intros (Hdd & Hroot & Hpre) Hroot' H. apply tame_intro; auto.
  intros q r E Hq Hr. destruct (H q r E Hr) as [-> | ->]; auto.
  apply (Hpre q r); auto.
Qed.

Lemma dirs_made_refl f p :
  lookup f p = Some KDir -> dirs_made f f p.
Proof.
  intros H q. destruct (is_prefix q p) eqn:E; auto.
  apply is_prefix_spec in E. destruct E as [r ->].
  destruct r; [now rewrite app_nil_r in H|].
  eapply lookup_prefix_dir with (r := s :: r); [discriminate|]. rewrite H. discriminate.
Qed.

Lemma dirs_made_step f f1 p c :
  dirs_made f f1 p ->
  lookup f (p ++ [c]) = None ->
  dirs_made f (update (p ++ [c]) (Some (Dir true [])) f1) (p ++ [c]).
Proof.
  intros H Hn q.
  assert (Hp : lookup f1 p = Some KDir) by (rewrite H, is_prefix_refl; reflexivity).
  assert (HP : lookup f1 (p ++ [c]) = None).
  { rewrite H. destruct (is_prefix (p ++ [c]) p) eqn:E; auto.
    apply is_prefix_spec in E. destruct E as [r E].
    apply (f_equal (@length _)) in E. rewrite !length_app in E. simpl in E. lia. }
  rewrite lookup_write; auto.
  - destruct (path_eq_dec q (p ++ [c])) as [->|Hq].
    + now rewrite is_prefix_refl.
    + rewrite H. destruct (is_prefix q (p ++ [c])) eqn:E.
      * apply is_prefix_snoc in E. destruct E as [-> | ]; [reflexivity|contradiction].
      * destruct (is_prefix q p) eqn:E'; auto.
        exfalso. assert (is_prefix q (p ++ [c]) = true) by (apply is_prefix_snoc; now left).
        congruence.
  - destruct p; discriminate.
  - now rewrite parent_snoc.
  - simpl. auto.
  - rewrite HP. discriminate.
Qed.

Lemma tame_after_dirs f f1 p c :
  tame f (p ++ [c]) -> dirs_made f f1 p -> tame f1 (p ++ [c]).
Proof.
  intros Ht H. apply tame_transfer with (f := f); [exact Ht| |].
  - rewrite H. reflexivity.
  - intros q r E Hr. rewrite H. destruct (is_prefix q p); auto.
Qed.

Lemma mkdir_parents_snoc p c s :
  mkdir_parents (p ++ [c]) s =
  match os_mkdir (p ++ [c]) s with
  | (Raise (OSError ENOENT), s') => (mkdir_parents p ;; mkdir_exist_ok (p ++ [c])) s'
  | (Raise (OSError e), s') =>
      if path_is_dir (fs s') (p ++ [c]) then (Ok tt, s') else (Raise (OSError e), s')
  | r => r
  end.
Proof.
  unfold mkdir_parents. rewrite rev_app_distr. simpl rev at 1. simpl app.
  cbn [mkdir_parents_rev]. simpl rev. rewrite rev_involutive. reflexivity.
Qed.

Lemma mkdir_parents_spec p : forall s,
  tame (fs s) p ->
  lookup (fs s) p = None \/ lookup (fs s) p = Some KDir ->
  exists s', mkdir_parents p s = (Ok tt, s') /\ dirs_made (fs s) (fs s') p.
Proof.
  induction p as [|c p IH] using rev_ind; intros s Ht Hk.
  - exists s. split.
    + unfold mkdir_parents. cbn [rev mkdir_parents_rev]. unfold os_mkdir.
      rewrite locate_root. cbn [fst snd].
      rewrite path_is_dir_tame; auto.
      * destruct Ht as (_ & -> & _). reflexivity.
      * intros t. destruct Ht as (_ & -> & _). discriminate.
    + apply dirs_made_refl. apply Ht.
  - rewrite mkdir_parents_snoc.
    assert (Hne : p ++ [c] <> []) by (destruct p; discriminate).
    destruct Hk as [Hn|Hd].
    + destruct (@tame_above (fs s) p [c] Ht ltac:(discriminate)) as [Hpn|Hpd].
      * rewrite os_mkdir_noparent; auto; [|now rewrite parent_snoc].
        destruct (IH s (@tame_prefix (fs s) p [c] Ht) (or_introl Hpn)) as (s1 & E1 & H1).
        unfold bind. rewrite E1. unfold mkdir_exist_ok.
        rewrite os_mkdir_new; auto.
        -- eexists. split; [reflexivity|]. simpl. now apply dirs_made_step.
        -- eapply tame_after_dirs; eauto.
        -- rewrite parent_snoc, H1, is_prefix_refl. reflexivity.
        -- rewrite H1. destruct (is_prefix (p ++ [c]) p) eqn:E; auto.
           apply is_prefix_spec in E. destruct E as [r E].
           apply (f_equal (@length _)) in E. rewrite !length_app in E. simpl in E. lia.
      * rewrite os_mkdir_new; auto; [|now rewrite parent_snoc].
        eexists. split; [reflexivity|]. simpl.
        apply dirs_made_step; auto. now apply dirs_made_refl.
    + erewrite os_mkdir_exists; eauto.
      rewrite path_is_dir_tame; auto.
      * rewrite Hd. exists s. split; auto. now apply dirs_made_refl.
      * intros t. rewrite Hd. discriminate.
Qed.

Lemma makedirs_snoc p c :
  makedirs (p ++ [c]) =
  (head_exists <- read_fs (fun f => path_exists f p) ;;
   (if head_exists then ret tt
    else fun s =>
           match makedirs p s with
           | (Raise (OSError EEXIST), s') => (Ok tt, s')
           | r => r
           end) ;;
   os_mkdir (p ++ [c])).
Proof.
  unfold makedirs. rewrite rev_app_distr. simpl rev at 1. simpl app.
  cbn [makedirs_rev]. simpl rev. rewrite rev_involutive. reflexivity.
Qed.

Lemma makedirs_spec p : forall s,
  tame (fs s) p ->
  lookup (fs s) p = None ->
  exists s', makedirs p s = (Ok tt, s') /\ dirs_made (fs s) (fs s') p.
Proof.
  induction p as [|c p IH] using rev_ind; intros s Ht Hn.
  - destruct Ht as (_ & Hr & _). congruence.
  - rewrite makedirs_snoc.
    assert (Hne : p ++ [c] <> []) by (destruct p; discriminate).
    unfold bind at 1. unfold read_fs at 1.
    rewrite path_exists_tame; [|eapply tame_prefix; eauto|].
    + destruct (@tame_above (fs s) p [c] Ht ltac:(discriminate)) as [Hpn|Hpd].
      * rewrite Hpn.
        destruct (IH s (@tame_prefix (fs s) p [c] Ht) Hpn) as (s1 & E1 & H1).
        unfold bind. rewrite E1.
        rewrite os_mkdir_new; auto.
        -- eexists. split; [reflexivity|]. simpl. now apply dirs_made_step.
        -- eapply tame_after_dirs; eauto.
        -- rewrite parent_snoc, H1, is_prefix_refl. reflexivity.
        -- rewrite H1. destruct (is_prefix (p ++ [c]) p) eqn:E; auto.
           apply is_prefix_spec in E. destruct E as [r E].
           apply (f_equal (@length _)) in E. rewrite !length_app in E. simpl in E. lia.
      * rewrite Hpd. unfold bind, ret.
        rewrite os_mkdir_new; auto; [|now rewrite parent_snoc].
        eexists. split; [reflexivity|]. simpl.
        apply dirs_made_step; auto. now apply dirs_made_refl.
    + intros t. destruct (@tame_above (fs s) p [c] Ht ltac:(discriminate)) as [H|H];
        rewrite H; discriminate.
Qed.

(* ----------------------------------------------------------------- *)
(** ** Path strings *)

Lemma split_slash_sep s t :
  slash_free s = true -> split_slash (s ++ String "/" t) = s :: split_slash t.
Proof.
  induction s as [|c s IH]; simpl; intros H.
  - reflexivity.
  - apply andb_true_iff in H. destruct H as [Hc Hs].
    destruct (Ascii.eqb c "/"); [discriminate|]. now rewrite IH.
Qed.

Lemma split_slash_one s : slash_free s = true -> split_slash s = [s].
Proof.
  induction s as [|c s IH]; simpl; intros H; auto.
  apply andb_true_iff in H. destruct H as [Hc Hs].
  destruct (Ascii.eqb c "/"); [discriminate|]. now rewrite IH.
Qed.

Lemma join_slash_cons c d cs :
  join_slash (c :: d :: cs) = (c ++ String "/" (join_slash (d :: cs)))%string.
Proof. reflexivity. Qed.

Lemma split_join cs :
  cs <> [] -> Forall (fun c => slash_free c = true) cs ->
  split_slash (join_slash cs) = cs.
Proof.
  induction cs as [|c cs IH]; intros Hne H; [congruence|].
  inversion H; subst. destruct cs as [|d cs].
  - simpl. now apply split_slash_one.
  - rewrite join_slash_cons, split_slash_sep by auto. f_equal. apply IH; auto. discriminate.
Qed.

Lemma valid_name_slash_free c : valid_name c = true -> slash_free c = true.
Proof. unfold valid_name. rewrite !andb_true_iff. tauto. Qed.

Lemma valid_name_neq c :
  valid_name c = true -> c <> "" /\ c <> "." /\ c <> "..".
Proof.
  unfold valid_name. rewrite !andb_true_iff, !negb_true_iff, !String.eqb_neq. tauto.
Qed.

Lemma valid_rel_slash_free cs : valid_rel cs -> Forall (fun c => slash_free c = true) cs.
Proof. intros H. eapply Forall_impl; [|exact H]. intros. now apply valid_name_slash_free. Qed.

Lemma filter_all A (f : A -> bool) l : Forall (fun x => f x = true) l -> filter f l = l.
Proof. induction 1; simpl; auto. rewrite H. now f_equal. Qed.

Lemma components_join cs : valid_rel cs -> components (join_slash cs) = cs.
Proof.
  intros H. unfold components. destruct cs as [|c cs]; [reflexivity|].
  rewrite split_join; [|discriminate|now apply valid_rel_slash_free].
  apply filter_all. eapply Forall_impl; [|exact H]. intros a Ha. simpl in Ha.
  apply valid_name_neq in Ha. destruct Ha as (H1 & H2 & _).
  apply String.eqb_neq in H1, H2. now rewrite H1, H2.
Qed.

Lemma sanitize_join cs : valid_rel cs -> sanitize (join_slash cs) = cs.
Proof.
  intros H. unfold sanitize. destruct cs as [|c cs]; [reflexivity|].
  rewrite split_join; [|discriminate|now apply valid_rel_slash_free].
  apply filter_all. eapply Forall_impl; [|exact H]. intros a Ha. simpl in Ha.
  apply valid_name_neq in Ha. destruct Ha as (H1 & H2 & H3).
  apply String.eqb_neq in H1, H2, H3. now rewrite H1, H2, H3.
Qed.

Lemma join_slash_inj cs ds :
  valid_rel cs -> valid_rel ds -> join_slash cs = join_slash ds -> cs = ds.
Proof.
  intros Hc Hd E. rewrite <- (components_join cs Hc), <- (components_join ds Hd). now rewrite E.
Qed.

Lemma isabs_join cs : valid_rel cs -> isabs (join_slash cs) = false.
Proof.
  intros H. destruct cs as [|c cs]; [reflexivity|]. inversion H; subst.
  pose proof (valid_name_neq _ H2) as (Hne & _).
  pose proof (valid_name_slash_free _ H2) as Hsf.
  destruct c as [|a c]; [congruence|]. simpl in Hsf.
  apply andb_true_iff in Hsf. destruct Hsf as [Ha _].
  destruct cs; simpl; now apply negb_true_iff in Ha.
Qed.

Lemma joinpath_join p cs : valid_rel cs -> joinpath p (join_slash cs) = p ++ cs.
Proof. intros H. unfold joinpath. now rewrite isabs_join, components_join. Qed.

Lemma joinpath_name p c : valid_name c = true -> joinpath p c = p ++ [c].
Proof.
  intros H. apply (joinpath_join p [c]). now constructor.
Qed.

Lemma str_rel_join cs : cs <> [] -> str_rel cs = join_slash cs.
Proof. destruct cs; [congruence|reflexivity]. Qed.

Lemma relative_to_app src rel : relative_to (src ++ rel) src = Some rel.
Proof.
  induction src as [|a src IH]; [reflexivity|].
  simpl. now rewrite String.eqb_refl.
Qed.

Lemma normpath_acc_plain l : forall acc, ~ In ".." l -> normpath_acc acc l = rev acc ++ l.
Proof.
  induction l as [|c l IH]; intros acc H; simpl.
  - now rewrite app_nil_r.
  - destruct (String.eqb_spec c ".."); [exfalso; apply H; now left|].
    rewrite IH; [|intros Hin; apply H; now right]. simpl. now rewrite <- app_assoc.
Qed.

Lemma normpath_plain p : ~ In ".." p -> normpath p = p.
Proof. intros. unfold normpath. now rewrite normpath_acc_plain. Qed.

Lemma valid_rel_no_dotdot cs : valid_rel cs -> ~ In ".." cs.
Proof.
  intros H Hin. unfold valid_rel in H. rewrite Forall_forall in H.
  apply H in Hin. discriminate.
Qed.

Lemma join_slash_nonempty cs :
  cs <> [] -> Forall (fun c => c <> "") cs -> join_slash cs <> "".
Proof.
  intros Hne H. destruct cs as [|c cs]; [congruence|]. inversion H; subst.
  destruct c; [congruence|]. destruct cs; discriminate.
Qed.

Lemma strip_common_subset (p q : list string) :
  forall x, In x (fst (strip_common p q)) -> In x p.
Proof.
  revert q. induction p as [|c p IH]; intros q x; simpl.
  - destruct q; simpl; auto.
  - destruct q as [|d q]; simpl; auto.
    destruct (String.eqb c d); simpl; auto.
    intros Hin. right. eapply IH; eauto.
Qed.

Lemma relpath_nonempty p start : relpath p start <> "".
Proof.
  unfold relpath.
  set (ne := filter (fun x => negb (String.eqb x ""))).
  pose proof (strip_common_subset (ne (normpath p)) (ne (normpath start))) as Hs.
  destruct (strip_common (ne (normpath p)) (ne (normpath start))) as [rest up].
  simpl in Hs. unfold str_rel.
  destruct (repeat ".." (length up) ++ rest) as [|c l] eqn:E; [discriminate|].
  rewrite <- E. apply join_slash_nonempty; [rewrite E; discriminate|].
  apply Forall_app. split.
  - apply Forall_forall. intros x Hx. apply repeat_spec in Hx. subst. discriminate.
  - apply Forall_forall. intros x Hx. apply Hs in Hx. unfold ne in Hx.
    apply filter_In in Hx. destruct Hx as [_ Hx]. apply negb_true_iff in Hx.
    now apply String.eqb_neq.
Qed.

(** ** [os.path.relpath] leads back

    Joining the start with the relative path and normalising gives the
    path that was asked for. *)

Lemma split_slash_free s : Forall (fun c => slash_free c = true) (split_slash s).
Proof.
  induction s as [|a s IH]; simpl; [repeat constructor|].
  destruct (Ascii.eqb a "/") eqn:Ea; [constructor; auto|].
  destruct (split_slash s) as [|w ws]; [repeat constructor; simpl; now rewrite Ea|].
  inversion IH; subst. constructor; auto. simpl. now rewrite Ea.
Qed.

Lemma components_ok s : Forall (fun c => comp_ok c = true) (components s).
Proof.
  unfold components. pose proof (split_slash_free s) as H.
  induction (split_slash s) as [|c l IH]; simpl; [constructor|].
  inversion H; subst.
  destruct (negb (String.eqb c "" || String.eqb c ".")) eqn:E; auto.
  constructor; auto. unfold comp_ok. rewrite H2. simpl.
  apply negb_true_iff, orb_false_iff in E. destruct E as [-> ->]. reflexivity.
Qed.

Lemma comp_ok_spec c : comp_ok c = true -> slash_free c = true /\ c <> "" /\ c <> ".".
Proof.
  unfold comp_ok. rewrite !andb_true_iff, !negb_true_iff.
  intros [[H1 H2] H3]. split; [exact H1|]. split; intros ->; discriminate.
Qed.

Lemma components_join_ok cs :
  Forall (fun c => comp_ok c = true) cs -> components (join_slash cs) = cs.
Proof.
  intros H. unfold components. destruct cs as [|c cs]; [reflexivity|].
  rewrite split_join; [|discriminate|].
  - apply filter_all. eapply Forall_impl; [|exact H]. intros a Ha. simpl in Ha.
    apply comp_ok_spec in Ha. destruct Ha as (_ & H1 & H2).
    apply String.eqb_neq in H1, H2. now rewrite H1, H2.
  - eapply Forall_impl; [|exact H]. intros a Ha. now apply comp_ok_spec in Ha.
Qed.

Lemma components_str_rel cs :
  Forall (fun c => comp_ok c = true) cs -> components (str_rel cs) = cs.
Proof.
  intros H. destruct cs as [|c cs]; [reflexivity|].
  unfold str_rel. now apply components_join_ok.
Qed.

Lemma isabs_str_rel cs :
  Forall (fun c => comp_ok c = true) cs -> isabs (str_rel cs) = false.
Proof.
  intros H. destruct cs as [|c cs]; [reflexivity|]. inversion H; subst.
  apply comp_ok_spec in H2. destruct H2 as (Hsf & Hne & _).
  destruct c as [|a c]; [congruence|]. simpl in Hsf.
  apply andb_true_iff in Hsf. destruct Hsf as [Ha _].
  unfold str_rel. destruct cs; simpl; now apply negb_true_iff in Ha.
Qed.

Lemma normpath_acc_app a : forall acc b,
  normpath_acc acc (a ++ b) = normpath_acc (rev (normpath_acc acc a)) b.
Proof.
  induction a as [|c a IH]; intros acc b; simpl.
  - now rewrite rev_involutive.
  - destruct (String.eqb c ".."); apply IH.
Qed.

Lemma normpath_acc_up n : forall acc b,
  normpath_acc acc (repeat ".." n ++ b) = normpath_acc (skipn n acc) b.
Proof.
  induction n as [|n IH]; intros acc b; simpl; [reflexivity|].
  rewrite IH. destruct acc; simpl; [now rewrite skipn_nil|reflexivity].
Qed.

Lemma normpath_acc_no_dotdot l : forall acc,
  ~ In ".." acc -> ~ In ".." (normpath_acc acc l).
Proof.
  induction l as [|c l IH]; intros acc H; simpl.
  - now rewrite <- in_rev.
  - destruct (String.eqb_spec c "..") as [->|Hc]; apply IH.
    + destruct acc; simpl in *; tauto.
    + simpl. intros [E|E]; [congruence|tauto].
Qed.

Lemma normpath_acc_ok l : forall acc,
  Forall (fun c => comp_ok c = true) acc -> Forall (fun c => comp_ok c = true) l ->
  Forall (fun c => comp_ok c = true) (normpath_acc acc l).
Proof.
  induction l as [|c l IH]; intros acc Ha Hl; simpl.
  - now apply Forall_rev.
  - inversion Hl; subst. destruct (String.eqb c ".."); apply IH; auto.
    destruct acc; simpl; auto. now inversion Ha.
Qed.

Lemma normpath_idem p : normpath (normpath p) = normpath p.
Proof. apply normpath_plain. apply normpath_acc_no_dotdot. intros []. Qed.

Lemma strip_common_spec p : forall q,
  exists common,
    p = common ++ fst (strip_common p q) /\ q = common ++ snd (strip_common p q).
Proof.
  induction p as [|c p IH]; intros q.
  - exists []. destruct q; auto.
  - destruct q as [|d q]; [exists []; auto|]. simpl.
    destruct (String.eqb_spec c d) as [->|Hne]; [|exists []; auto].
    destruct (IH q) as (common & H1 & H2). exists (d :: common). simpl.
    now rewrite <- H1, <- H2.
Qed.

Lemma comp_ok_nonempty l :
  Forall (fun c => comp_ok c = true) l ->
  filter (fun x => negb (String.eqb x "")) l = l.
Proof.
  intros H. apply filter_all. eapply Forall_impl; [|exact H]. intros a Ha. simpl in Ha.
  apply comp_ok_spec in Ha. destruct Ha as (_ & H1 & _).
  apply String.eqb_neq in H1. now rewrite H1.
Qed.

Lemma relpath_spec p start :
  Forall (fun c => comp_ok c = true) p ->
  Forall (fun c => comp_ok c = true) start ->
  isabs (relpath p start) = false
  /\ normpath (start ++ components (relpath p start)) = normpath p.
Proof.
  intros Hp Hs. unfold relpath.
  assert (HP : Forall (fun c => comp_ok c = true) (normpath p))
    by (apply normpath_acc_ok; auto).
  assert (HS : Forall (fun c => comp_ok c = true) (normpath start))
    by (apply normpath_acc_ok; auto).
  rewrite !comp_ok_nonempty by auto.
  destruct (strip_common_spec (normpath p) (normpath start)) as (common & E1 & E2).
  destruct (strip_common (normpath p) (normpath start)) as [rest up]. simpl in E1, E2.
  assert (Hrest : Forall (fun c => comp_ok c = true) rest).
  { rewrite E1 in HP. apply Forall_app in HP. apply HP. }
  assert (HX : Forall (fun c => comp_ok c = true) (repeat ".." (length up) ++ rest)).
  { apply Forall_app. split; auto. apply Forall_forall. intros x Hx.
    apply repeat_spec in Hx. now subst. }
  split; [now apply isabs_str_rel|].
  rewrite components_str_rel by auto.
  unfold normpath at 1. rewrite normpath_acc_app. fold (normpath start).
  rewrite E2, rev_app_distr, normpath_acc_up.
  rewrite skipn_app, skipn_all2 by (rewrite length_rev; lia).
  rewrite length_rev, Nat.sub_diag. simpl.
  rewrite normpath_acc_plain.
  - now rewrite rev_involutive, <- E1.
  - intros Hin. apply (normpath_acc_no_dotdot p [] (fun x => x)).
    fold (normpath p). rewrite E1. apply in_or_app. now right.
Qed.

(** The real path is made of components. *)
Lemma Forall_removelast (A : Type) (P : A -> Prop) (l : list A) :
  Forall P l -> Forall P (removelast l).
Proof.
  induction l as [|x l IH]; intros H; simpl; auto.
  inversion H; subst. destruct l; auto.
Qed.

Lemma joinrealpath_ok f : forall fuel entered todo cur,
  Forall (fun c => comp_ok c = true) cur ->
  Forall (fun c => comp_ok c = true) todo ->
  Forall (fun c => comp_ok c = true) (fst (joinrealpath fuel f entered cur todo)).
Proof.
  induction fuel as [|fuel IHf]; intros entered todo;
    induction todo as [|c rest IH]; intros cur Hc Ht;
    try (rewrite joinrealpath_nil; exact Hc);
    rewrite joinrealpath_cons; inversion Ht; subst;
    (destruct (String.eqb c "..");
     [apply IH; auto; now apply Forall_removelast|]);
    assert (Hcc : Forall (fun c => comp_ok c = true) (cur ++ [c]))
      by (apply Forall_app; auto);
    (destruct (get f (cur ++ [c])) as [[d|t|r es]|]; try (apply IH; auto));
    (destruct (mem_path (cur ++ [c]) entered); [simpl; apply Forall_app; auto|]).
  - simpl. apply Forall_app; auto.
  - assert (Hp : Forall (fun c => comp_ok c = true)
                        (fst (joinrealpath fuel f ((cur ++ [c]) :: entered)
                                (if isabs t then [] else cur) (components t)))).
    { apply IHf; [destruct (isabs t); auto|apply components_ok]. }
    destruct (joinrealpath fuel f ((cur ++ [c]) :: entered)
                (if isabs t then [] else cur) (components t)) as [p ok].
    simpl in Hp.
    destruct ok; [apply IH; auto|simpl; apply Forall_app; auto].
Qed.

Lemma realpath_ok f p :
  Forall (fun c => comp_ok c = true) p ->
  Forall (fun c => comp_ok c = true) (realpath f p).
Proof.
  intros H. unfold realpath.
  pose proof (joinrealpath_ok f (count_links f) [] p [] (Forall_nil _) H) as Hq.
  destruct (joinrealpath (count_links f) f [] [] p) as [q ok]. simpl in Hq.
  destruct ok; [exact Hq|]. unfold normpath. apply normpath_acc_ok; auto.
Qed.

(** A real path that is complete has no symbolic link on it. *)
Lemma snoc_prefix (A : Type) (q r cur : list A) (c : A) :
  q ++ r = cur ++ [c] -> (exists r', cur = q ++ r') \/ q = cur ++ [c].
Proof.
  intros E. destruct (rev_case _ r) as [->|(r' & x & ->)].
  - right. now rewrite app_nil_r in E.
  - left. exists r'. rewrite app_assoc in E. now apply app_inj_tail in E.
Qed.

Lemma joinrealpath_real f : forall fuel entered todo cur,
  (forall q r, cur = q ++ r -> q <> [] -> not_link f q) ->
  snd (joinrealpath fuel f entered cur todo) = true ->
  forall q r, fst (joinrealpath fuel f entered cur todo) = q ++ r -> q <> [] ->
              not_link f q.
Proof.
  assert (Hrm : forall cur : path,
             (forall q r, cur = q ++ r -> q <> [] -> not_link f q) ->
             forall q r, removelast cur = q ++ r -> q <> [] -> not_link f q).
  { intros cur H q r E. destruct (rev_case _ cur) as [->|(l & x & ->)].
    - simpl in E. destruct q; [congruence|discriminate].
    - rewrite removelast_last in E. apply (H q (r ++ [x])). now rewrite E, app_assoc. }
  assert (Hsn : forall (cur : path) c,
             (forall q r, cur = q ++ r -> q <> [] -> not_link f q) ->
             not_link f (cur ++ [c]) ->
             forall q r, cur ++ [c] = q ++ r -> q <> [] -> not_link f q).
  { intros cur c H Hn q r E. symmetry in E. apply snoc_prefix in E.
    destruct E as [[r' ->]| ->]; eauto. }
  induction fuel as [|fuel IHf]; intros entered todo;
    induction todo as [|c rest IH]; intros cur Hc;
    try (rewrite joinrealpath_nil; intros _; exact Hc);
    rewrite joinrealpath_cons;
    (destruct (String.eqb c "..");
     [apply IH; apply Hrm; exact Hc|]);
    (destruct (get f (cur ++ [c])) as [[d|t|r0 es]|] eqn:Eg;
     try (apply IH; apply Hsn; [exact Hc|];
          intros t'; unfold lookup; rewrite ?Eg; discriminate));
    (destruct (mem_path (cur ++ [c]) entered); [intros Hok; simpl in Hok; discriminate Hok|]).
  - intros Hok. simpl in Hok. discriminate Hok.
  - assert (Hrec : snd (joinrealpath fuel f ((cur ++ [c]) :: entered)
                            (if isabs t then [] else cur) (components t)) = true ->
                     forall q r,
                       fst (joinrealpath fuel f ((cur ++ [c]) :: entered)
                              (if isabs t then [] else cur) (components t)) = q ++ r ->
                       q <> [] -> not_link f q).
    { apply IHf. destruct (isabs t); auto.
      intros q r E. destruct q; [congruence|discriminate]. }
    revert Hrec.
    destruct (joinrealpath fuel f ((cur ++ [c]) :: entered)
                (if isabs t then [] else cur) (components t)) as [p ok].
    intros Hrec.
    destruct ok; [|intros Hok; simpl in Hok; discriminate Hok].
    apply IH. apply Hrec. reflexivity.
Qed.

Lemma realpath_real f p :
  realpath_complete f p = true ->
  forall q r, realpath f p = q ++ r -> q <> [] -> not_link f q.
Proof.
  unfold realpath_complete, realpath.
  pose proof (joinrealpath_real f (count_links f) [] p []) as H.
  destruct (joinrealpath (count_links f) f [] [] p) as [q0 ok]. simpl in *.
  intros Hok. subst ok. apply H; [|reflexivity].
  intros q r E. destruct q; [congruence|discriminate].
Qed.

(* ----------------------------------------------------------------- *)
(** ** The directory walk *)

(** Induction on nodes, with the hypothesis on every entry of a
    directory. *)
Lemma node_ind2 (P : node -> Prop)
      (HF : forall d, P (File d)) (HL : forall t, P (Link t))
      (HD : forall r es, Forall (fun e => P (snd e)) es -> P (Dir r es)) :
  forall n, P n.
Proof.
  fix IH 1. intros [d|t|r es]; [apply HF|apply HL|].
  apply HD. induction es as [|e es IHes]; constructor; [apply IH|exact IHes].
Qed.

Lemma nodupb_NoDup l : nodupb l = true -> NoDup l.
Proof.
  induction l as [|x l IH]; simpl; intros H; constructor.
  - apply andb_true_iff in H. destruct H as [H _]. apply negb_true_iff in H.
    intros Hin. assert (existsb (String.eqb x) l = true); [|congruence].
    apply existsb_exists. exists x. split; auto. apply String.eqb_refl.
  - apply andb_true_iff in H. apply IH, H.
Qed.

Lemma names_ok_dir r es :
  names_ok (Dir r es) = true ->
  NoDup (map fst es) /\
  Forall (fun e => valid_name (fst e) = true /\ names_ok (snd e) = true) es.
Proof.
  cbn [names_ok]. rewrite andb_true_iff. intros [H1 H2]. split.
  - now apply nodupb_NoDup.
  - clear H1. induction es as [|e es IH]; constructor.
    + rewrite !andb_true_iff in H2. tauto.
    + apply IH. rewrite !andb_true_iff in H2. tauto.
Qed.

Lemma assoc_In A c (v : A) es : assoc c es = Some v -> In (c, v) es.
Proof.
  induction es as [|[k x] es IH]; simpl; [discriminate|].
  destruct (String.eqb_spec c k); intros H.
  - inversion H; subst. now left.
  - right. auto.
Qed.

Lemma In_assoc A c (v : A) es :
  NoDup (map fst es) -> In (c, v) es -> assoc c es = Some v.
Proof.
  induction es as [|[k x] es IH]; simpl; intros Hnd Hin; [contradiction|].
  inversion Hnd; subst. destruct Hin as [E|Hin].
  - inversion E; subst. now rewrite String.eqb_refl.
  - destruct (String.eqb_spec c k) as [->|]; auto.
    exfalso. apply H1. apply in_map_iff. exists (k, v). auto.
Qed.

Lemma names_ok_child r es c ch :
  names_ok (Dir r es) = true -> assoc c es = Some ch ->
  valid_name c = true /\ names_ok ch = true.
Proof.
  intros H Ha. apply names_ok_dir in H. destruct H as [_ H].
  rewrite Forall_forall in H. apply (H (c, ch)). now apply assoc_In.
Qed.

Lemma names_ok_get n : forall rel m,
  names_ok n = true -> get n rel = Some m -> valid_rel rel /\ names_ok m = true.
Proof.
  intros rel. revert n. induction rel as [|c rel IH]; intros n m Hn Hg.
  - rewrite get_nil in Hg. inversion Hg; subst. split; [constructor|auto].
  - rewrite get_cons in Hg. destruct n as [| |r es]; try discriminate.
    destruct (assoc c es) as [ch|] eqn:E; try discriminate.
    destruct (names_ok_child r es c ch Hn E) as [Hv Hc].
    destruct (IH ch m Hc Hg). split; auto. constructor; auto.
Qed.

Lemma walk_node_dir f top es :
  walk_node f top (Dir true es) =
  walk_item f top es :: flat_map (fun e => walk_node f (top ++ [fst e]) (snd e)) es.
Proof.
  cbn [walk_node]. unfold walk_item. f_equal.
Qed.

Lemma walk_node_other f top n :
  (forall es, n <> Dir true es) -> walk_node f top n = [].
Proof.
  destruct n as [| |[|] es]; auto. intros H. now destruct (H es).
Qed.

Lemma walk_node_complete f : forall rel n top es,
  walked n rel es -> In (walk_item f (top ++ rel) es) (walk_node f top n).
Proof.
  induction rel as [|c rel IH]; intros n top es [Hv Hg].
  - rewrite get_nil in Hg. inversion Hg; subst. rewrite walk_node_dir, app_nil_r. now left.
  - rewrite get_cons in Hg. simpl in Hv.
    destruct n as [| |r es0]; try discriminate.
    destruct (assoc c es0) as [ch|] eqn:E; try discriminate.
    apply andb_true_iff in Hv. destruct Hv as [-> Hv].
    rewrite walk_node_dir. right. apply in_flat_map.
    exists (c, ch). split; [now apply assoc_In|]. simpl.
    replace (top ++ c :: rel) with ((top ++ [c]) ++ rel) by now rewrite <- app_assoc.
    apply IH. split; auto.
Qed.

Lemma walk_node_sound f n : forall top item,
  names_ok n = true ->
  In item (walk_node f top n) ->
  exists rel es, walked n rel es /\ item = walk_item f (top ++ rel) es.
Proof.
  induction n as [d|t|r es IH] using node_ind2; intros top item Hok Hin;
    try contradiction.
  destruct r; [|contradiction].
  rewrite walk_node_dir in Hin. destruct Hin as [<-|Hin].
  - exists [], es. rewrite app_nil_r. repeat split.
  - apply in_flat_map in Hin. destruct Hin as ([c ch] & He & Hin). simpl in Hin.
    rewrite Forall_forall in IH.
    pose proof (names_ok_dir true es Hok) as [Hnd Hall].
    rewrite Forall_forall in Hall. destruct (Hall _ He) as [_ Hc]. simpl in Hc.
    destruct (IH _ He _ _ Hc Hin) as (rel & es' & [Hv Hg] & ->).
    exists (c :: rel), es'. repeat split.
    + simpl. now rewrite (In_assoc _ c ch es Hnd He).
    + rewrite get_cons. now rewrite (In_assoc _ c ch es Hnd He).
    + now rewrite <- app_assoc.
Qed.

Lemma files_dirs_names f root es name :
  In name (map fst (filter (fun e => negb (entry_is_dir f root e)) es)
           ++ map fst (filter (entry_is_dir f root) es))
  <-> In name (map fst es).
Proof.
  rewrite in_app_iff, !in_map_iff. split.
  - intros [(e & <- & H)|(e & <- & H)]; apply filter_In in H; exists e; tauto.
  - intros (e & <- & H). destruct (entry_is_dir f root e) eqn:E.
    + right. exists e. split; auto. apply filter_In. auto.
    + left. exists e. split; auto. apply filter_In. rewrite E. auto.
Qed.

Lemma In_names_assoc A name (es : list (string * A)) :
  In name (map fst es) <-> exists ch, assoc name es = Some ch.
Proof.
  split.
  - induction es as [|[k x] es IH]; simpl; [contradiction|].
    intros [->|H]; [rewrite String.eqb_refl; eauto|].
    destruct (String.eqb name k); eauto.
  - intros [ch H]. apply assoc_In in H. apply in_map_iff. exists (name, ch). auto.
Qed.

Lemma visible_snoc n : forall rel c,
  visible n (rel ++ [c]) = true <->
  visible n rel = true /\ exists es ch, get n rel = Some (Dir true es) /\ assoc c es = Some ch.
Proof.
  intros rel. revert n. induction rel as [|d rel IH]; intros n c; simpl.
  - destruct n as [| |r es]; try (split; [discriminate|intros (_ & ? & ? & H & _); discriminate]).
    rewrite get_nil. destruct (assoc c es) as [ch|] eqn:E.
    + rewrite andb_true_r. split.
      * intros ->. split; auto. eauto.
      * intros (_ & es' & ch' & H & _). congruence.
    + rewrite andb_false_r. split; [discriminate|].
      intros (_ & es' & ch' & H & H'). inversion H; subst. congruence.
  - rewrite get_cons.
    destruct n as [| |r es]; try (split; [discriminate|intros [? _]; discriminate]).
    destruct (assoc d es) as [ch|] eqn:E.
    + rewrite !andb_true_iff, IH. tauto.
    + rewrite andb_false_r. split; [discriminate|intros [? _]; discriminate].
Qed.

Lemma visible_get n : forall rel, visible n rel = true -> get n rel <> None.
Proof.
  intros rel. revert n. induction rel as [|c rel IH]; intros n H.
  - rewrite get_nil. discriminate.
  - simpl in H. rewrite get_cons. destruct n as [| |r es]; try discriminate.
    destruct (assoc c es); [|now rewrite andb_false_r in H].
    apply andb_true_iff in H. apply IH, H.
Qed.

(* ----------------------------------------------------------------- *)
(** ** Loops of the monad *)

(** A loop whose body never raises and keeps the invariant [P]. *)
Lemma for_fold_pure (A B : Type) (P : state -> Prop) (g : A -> B -> B)
      (body : A -> B -> M B) (l : list A) :
  (forall x b s, In x l -> P s -> exists s', body x b s = (Ok (g x b), s') /\ P s') ->
  forall b s, P s ->
  exists s', for_fold l body b s = (Ok (fold_left (fun b x => g x b) l b), s') /\ P s'.
Proof.
  induction l as [|x l IH]; intros Hbody b s Hs; simpl.
  - exists s. split; auto.
  - destruct (Hbody x b s (or_introl eq_refl) Hs) as (s1 & E1 & H1).
    unfold bind. rewrite E1. apply IH; auto.
    intros y b' s' Hy. apply Hbody. now right.
Qed.

Lemma for_each_collect (A : Type) (f : node) (h : A -> archive)
      (body : A -> M unit) (l : list A) :
  (forall x s, In x l -> fs s = f ->
               exists s', body x s = (Ok tt, s') /\ fs s' = f /\ zf s' = zf s ++ h x) ->
  forall s, fs s = f ->
  exists s', for_each l body s = (Ok tt, s') /\ fs s' = f /\ zf s' = zf s ++ flat_map h l.
Proof.
  induction l as [|x l IH]; intros Hbody s Hs; simpl.
  - exists s. rewrite app_nil_r. auto.
  - destruct (Hbody x s (or_introl eq_refl) Hs) as (s1 & E1 & H1 & Z1).
    unfold bind. rewrite E1.
    destruct (IH (fun y s' Hy => Hbody y s' (or_intror Hy)) s1 H1) as (s2 & E2 & H2 & Z2).
    exists s2. repeat split; auto. now rewrite Z2, Z1, <- app_assoc.
Qed.

Lemma fold_left_flat_map (A B C : Type) (g : C -> B -> C) (h : A -> list B) (l : list A) :
  forall c,
  fold_left (fun c x => fold_left g (h x) c) l c = fold_left g (flat_map h l) c.
Proof.
  induction l as [|x l IH]; intros c; simpl; auto.
  now rewrite fold_left_app, IH.
Qed.

Ltac finish_step := eexists; split; [reflexivity|simpl; auto].

Lemma scan_item_pure source_dir root name links s rel :
  relative_to (joinpath root name) source_dir = Some rel ->
  resolves (fs s) source_dir = true ->
  (forall loc t,
      locate false (fs s) (joinpath root name) = inr (loc, Some (Link t)) ->
      isabs t = true ->
      resolves (fs s) (joinpath (parent (joinpath root name)) t) = true) ->
  exists s',
    scan_item source_dir root name links s
    = (Ok (add_entry links (link_entry (fs s) source_dir root name)), s')
    /\ fs s' = fs s /\ zf s' = zf s.
Proof.
  intros Hrel Hsd Habs. unfold scan_item, link_entry. rewrite Hrel.
  unfold bind, is_valid_symlink, read_fs.
  destruct (path_is_symlink (fs s) (joinpath root name)); [|finish_step].
  unfold get_relative_link_target, bind, resolve, read_fs, try_OSError, os_readlink.
  rewrite Hsd.
  destruct (locate false (fs s) (joinpath root name)) as [e|[loc [[d|t|r es]|]]] eqn:El;
    try finish_step.
  unfold portable. destruct (isabs t) eqn:Ea; simpl.
  - rewrite (Habs loc t eq_refl Ea).
    destruct (path_exists (fs s) _); simpl; destruct (String.eqb _ ""); finish_step.
  - destruct (String.eqb t ""); finish_step.
Qed.

Lemma add_file_pure source_dir root name s :
  (path_is_symlink (fs s) (joinpath root name) = false ->
   exists rel loc d,
     relative_to (joinpath root name) source_dir = Some rel /\
     locate true (fs s) (joinpath root name) = inr (loc, Some (File d))) ->
  exists s',
    add_file source_dir root name s = (Ok tt, s')
    /\ fs s' = fs s
    /\ zf s' = zf s ++ opt_list (file_entry (fs s) source_dir root name).
Proof.
  intros H. unfold add_file, file_entry, bind, is_valid_symlink, read_fs.
  destruct (path_is_symlink (fs s) (joinpath root name)).
  - exists s. simpl. rewrite app_nil_r. auto.
  - destruct (H eq_refl) as (rel & loc & d & -> & Hl).
    unfold zf_write. rewrite Hl. eexists. split; [reflexivity|]. simpl. auto.
Qed.

Lemma tame_dir f p : ~ In ".." p -> lookup f p = Some KDir -> tame f p.
Proof.
  intros Hdd Hd. apply tame_intro; auto.
  - destruct p; auto. apply (lookup_prefix_dir f [] (s :: p)); [discriminate|].
    simpl. rewrite Hd. discriminate.
  - intros q r -> Hq Hr. right. apply (lookup_prefix_dir f q r); auto.
    rewrite Hd. discriminate.
Qed.

Lemma tame_parent f p c : ~ In ".." (p ++ [c]) -> lookup f p = Some KDir -> tame f (p ++ [c]).
Proof.
  intros Hdd Hd.
  assert (Hp : tame f p).
  { apply tame_dir; auto. intros Hin. apply Hdd. apply in_or_app. now left. }
  apply tame_intro; auto.
  - apply Hp.
  - intros q r E Hq Hr. right.
    destruct (rev_case _ r) as [->|(r' & x & ->)]; [congruence|].
    rewrite app_assoc in E. apply app_inj_tail in E. destruct E as [-> _].
    destruct r' as [|y r']; [now rewrite app_nil_r in Hd|].
    apply (lookup_prefix_dir f q (y :: r')); [discriminate|]. rewrite Hd. discriminate.
Qed.

Lemma lookup_under f src n rel :
  get f src = Some n -> lookup f (src ++ rel) = lookup n rel.
Proof. intros H. unfold lookup. now rewrite get_app, H. Qed.

Lemma get_under f src n rel :
  get f src = Some n -> get f (src ++ rel) = get n rel.
Proof. intros H. now rewrite get_app, H. Qed.

Section Walked.

Variables (f : node) (src : path) (n : node).
Hypothesis Hsrc : get f src = Some n.
Hypothesis Hdd : ~ In ".." src.
Hypothesis Hok : names_ok n = true.

Lemma walked_entry rr es name ch :
  walked n rr es -> assoc name es = Some ch ->
  valid_name name = true /\ valid_rel (rr ++ [name]) /\
  get f ((src ++ rr) ++ [name]) = Some ch /\
  tame f ((src ++ rr) ++ [name]) /\
  lookup f (src ++ rr) = Some KDir.
Proof.
  intros [Hv Hg] Ha.
  destruct (names_ok_get n rr _ Hok Hg) as [Hrr Hokd].
  destruct (names_ok_child _ _ _ _ Hokd Ha) as [Hname _].
  assert (Hrel : valid_rel (rr ++ [name])).
  { apply Forall_app. split; auto. }
  assert (Hd : lookup f (src ++ rr) = Some KDir).
  { rewrite (lookup_under f src n rr Hsrc). unfold lookup. now rewrite Hg. }
  split; [auto|]. split; [auto|]. split; [|split; [|auto]].
  - rewrite <- app_assoc, (get_under f src n _ Hsrc), get_app, Hg, get_cons, Ha. reflexivity.
  - apply tame_parent; auto. rewrite <- app_assoc. intros Hin.
    apply in_app_or in Hin. destruct Hin as [Hin|Hin]; [auto|].
    now apply (valid_rel_no_dotdot _ Hrel).
Qed.

Lemma link_entry_walked rr es name ch :
  walked n rr es -> assoc name es = Some ch ->
  link_entry f src (src ++ rr) name =
  match ch with
  | Link t =>
      let v := portable f src ((src ++ rr) ++ [name]) t in
      if String.eqb v "" then None else Some (join_slash (rr ++ [name]), v)
  | _ => None
  end.
Proof.
  intros Hw Ha.
  destruct (walked_entry rr es name ch Hw Ha) as (Hname & Hrel & Hg & Ht & Hd).
  unfold link_entry. rewrite joinpath_name by auto.
  rewrite <- app_assoc at 1. rewrite relative_to_app.
  rewrite path_is_symlink_tame by auto.
  rewrite locate_tame; auto; [|destruct (src ++ rr); discriminate|discriminate].
  rewrite parent_snoc, Hd. unfold lookup. rewrite Hg.
  destruct ch; simpl; auto.
  rewrite str_rel_join; auto. destruct rr; discriminate.
Qed.

Lemma file_entry_walked rr es name ch :
  walked n rr es -> assoc name es = Some ch ->
  file_entry f src (src ++ rr) name =
  match ch with
  | File d => Some (join_slash (rr ++ [name]), d)
  | Link _ => None
  | Dir _ _ => Some ((join_slash (rr ++ [name]) ++ "/")%string, "")
  end.
Proof.
  intros Hw Ha.
  destruct (walked_entry rr es name ch Hw Ha) as (Hname & Hrel & Hg & Ht & Hd).
  unfold file_entry. rewrite joinpath_name by auto.
  rewrite path_is_symlink_tame by auto.
  unfold lookup. rewrite Hg.
  destruct ch as [d|t|r es']; simpl; auto.
  - rewrite <- app_assoc at 1. rewrite relative_to_app.
    rewrite locate_tame; auto.
    + rewrite parent_snoc, Hd, Hg. rewrite str_rel_join; auto. destruct rr; discriminate.
    + destruct (src ++ rr); discriminate.
    + intros _ t. unfold lookup. rewrite Hg. discriminate.
  - rewrite <- app_assoc at 1. rewrite relative_to_app.
    rewrite locate_tame; auto.
    + rewrite parent_snoc, Hd, Hg. rewrite str_rel_join; auto. destruct rr; discriminate.
    + destruct (src ++ rr); discriminate.
    + intros _ t. unfold lookup. rewrite Hg. discriminate.
Qed.

Lemma walked_snoc rel c ch :
  visible n (rel ++ [c]) = true -> get n (rel ++ [c]) = Some ch ->
  exists es, walked n rel es /\ assoc c es = Some ch.
Proof.
  intros Hv Hg. apply visible_snoc in Hv. destruct Hv as (Hv & es & ch' & Hd & Ha).
  exists es. split; [split; auto|].
  rewrite get_app, Hd, get_cons, Ha in Hg. rewrite get_nil in Hg. congruence.
Qed.

Lemma snoc_walked rr es c ch :
  walked n rr es -> assoc c es = Some ch ->
  visible n (rr ++ [c]) = true /\ get n (rr ++ [c]) = Some ch.
Proof.
  intros [Hv Hg] Ha. split.
  - apply visible_snoc. split; auto. eauto.
  - now rewrite get_app, Hg, get_cons, Ha.
Qed.

Lemma manifest_In k v :
  In (k, v) (manifest_entries f src (walk_node f src n)) <->
  exists rel t,
    rel <> [] /\ visible n rel = true /\ get n rel = Some (Link t) /\
    k = join_slash rel /\ v = portable f src (src ++ rel) t /\ v <> "".
Proof.
  unfold manifest_entries. rewrite in_flat_map. split.
  - intros (item & Hitem & Hin).
    destruct (walk_node_sound f n src item Hok Hitem) as (rr & es & Hw & ->).
    unfold walk_item in Hin. apply in_flat_map in Hin. destruct Hin as (name & Hname & Hin).
    apply files_dirs_names, In_names_assoc in Hname. destruct Hname as [ch Ha].
    rewrite (link_entry_walked rr es name ch Hw Ha) in Hin.
    destruct ch as [d|t|r es']; try contradiction. cbv zeta in Hin.
    destruct (String.eqb_spec (portable f src ((src ++ rr) ++ [name]) t) "") as [|Hne];
      [contradiction|].
    destruct Hin as [E|[]]. inversion E; subst.
    destruct (snoc_walked rr es name _ Hw Ha) as [Hv Hg].
    exists (rr ++ [name]), t. rewrite app_assoc. repeat split; auto.
    destruct rr; discriminate.
  - intros (rel & t & Hne & Hv & Hg & -> & -> & Hv').
    destruct (rev_case _ rel) as [->|(rr & c & ->)]; [congruence|].
    destruct (walked_snoc rr c _ Hv Hg) as (es & Hw & Ha).
    exists (walk_item f (src ++ rr) es). split; [now apply walk_node_complete|].
    unfold walk_item. apply in_flat_map. exists c. split.
    + apply files_dirs_names, In_names_assoc. eauto.
    + rewrite (link_entry_walked rr es c _ Hw Ha). cbv zeta.
      rewrite app_assoc in Hv'. apply String.eqb_neq in Hv'. rewrite Hv'.
      left. now rewrite app_assoc.
Qed.

Lemma In_files es root name :
  NoDup (map fst es) ->
  In name (map fst (filter (fun e => negb (entry_is_dir f root e)) es)) ->
  exists ch, assoc name es = Some ch /\ forall r es', ch <> Dir r es'.
Proof.
  intros Hnd Hin. apply in_map_iff in Hin. destruct Hin as ([c ch] & <- & Hin).
  apply filter_In in Hin. destruct Hin as [Hin Hd]. exists ch. split.
  - now apply In_assoc.
  - intros r es' ->. discriminate.
Qed.

Lemma files_In es root name d :
  assoc name es = Some (File d) ->
  In name (map fst (filter (fun e => negb (entry_is_dir f root e)) es)).
Proof.
  intros Ha. apply in_map_iff. exists (name, File d). split; auto.
  apply filter_In. split; [now apply assoc_In|reflexivity].
Qed.

Lemma archive_In k d :
  In (k, d) (archive_entries f src (walk_node f src n)) <->
  exists rel,
    rel <> [] /\ visible n rel = true /\ get n rel = Some (File d) /\ k = join_slash rel.
Proof.
  unfold archive_entries. rewrite in_flat_map. split.
  - intros (item & Hitem & Hin).
    destruct (walk_node_sound f n src item Hok Hitem) as (rr & es & Hw & ->).
    unfold walk_item in Hin. apply in_flat_map in Hin. destruct Hin as (name & Hname & Hin).
    pose proof Hw as [_ Hg].
    destruct (names_ok_get n rr _ Hok Hg) as [_ Hokd].
    apply names_ok_dir in Hokd. destruct Hokd as [Hnd _].
    destruct (In_files es _ name Hnd Hname) as (ch & Ha & Hnd').
    rewrite (file_entry_walked rr es name ch Hw Ha) in Hin.
    destruct ch as [d'|t|r es']; try contradiction; [|now destruct (Hnd' r es')].
    destruct Hin as [E|[]]. inversion E; subst.
    destruct (snoc_walked rr es name _ Hw Ha) as [Hv Hg'].
    exists (rr ++ [name]). repeat split; auto. destruct rr; discriminate.
  - intros (rel & Hne & Hv & Hg & ->).
    destruct (rev_case _ rel) as [->|(rr & c & ->)]; [congruence|].
    destruct (walked_snoc rr c _ Hv Hg) as (es & Hw & Ha).
    exists (walk_item f (src ++ rr) es). split; [now apply walk_node_complete|].
    unfold walk_item. apply in_flat_map. exists c. split.
    + eapply files_In; eauto.
    + rewrite (file_entry_walked rr es c _ Hw Ha). now left.
Qed.

End Walked.

(* ----------------------------------------------------------------- *)
(** ** Dictionaries, archives and the sample codecs *)

Lemma alist_set_In (A : Type) k (v : A) l k0 v0 :
  In (k0, v0) (alist_set k v l) -> (k0, v0) = (k, v) \/ In (k0, v0) l.
Proof.
  induction l as [|[k' v'] l IH]; simpl.
  - intros [E|[]]. now left.
  - destruct (String.eqb_spec k k'); simpl.
    + intros [E|H]; auto.
    + intros [E|H]; auto. destruct (IH H); auto.
Qed.

Lemma alist_set_keys (A : Type) k (v : A) l :
  map fst (alist_set k v l) = map fst l \/
  (~ In k (map fst l) /\ map fst (alist_set k v l) = map fst l ++ [k]).
Proof.
  induction l as [|[k' v'] l IH]; simpl.
  - right. auto.
  - destruct (String.eqb_spec k k'); simpl.
    + left. now subst.
    + destruct IH as [->|[Hn ->]]; auto. right. split; auto. intros [E|H]; auto.
Qed.

Lemma alist_set_NoDup (A : Type) k (v : A) l :
  NoDup (map fst l) -> NoDup (map fst (alist_set k v l)).
Proof.
  intros H. destruct (alist_set_keys A k v l) as [->|[Hn ->]]; auto.
  apply NoDup_app; auto.
  - repeat constructor. intros [].
  - intros x Hx [<-|[]]. contradiction.
Qed.

Lemma dict_of_snoc l kv :
  dict_of (l ++ [kv]) = alist_set (fst kv) (snd kv) (dict_of l).
Proof. unfold dict_of. now rewrite fold_left_app. Qed.

Lemma dict_of_NoDup l : NoDup (map fst (dict_of l)).
Proof.
  induction l as [|kv l IH] using rev_ind.
  - constructor.
  - rewrite dict_of_snoc. now apply alist_set_NoDup.
Qed.

Lemma dict_of_sound l k v : In (k, v) (dict_of l) -> In (k, v) l.
Proof.
  induction l as [|[k' v'] l IH] using rev_ind; [intros []|].
  rewrite dict_of_snoc. intros H. apply alist_set_In in H. simpl in H.
  apply in_or_app. destruct H as [E|H]; [right; left; now symmetry|left; auto].
Qed.

Lemma dict_of_complete l k v :
  functional l -> In (k, v) l -> assoc k (dict_of l) = Some v.
Proof.
  induction l as [|[k' v'] l IH] using rev_ind; intros Hf Hin; [contradiction|].
  rewrite dict_of_snoc. simpl.
  destruct (String.eqb_spec k k') as [->|Hne].
  - rewrite assoc_set_same. f_equal.
    apply (Hf k' v' v); [apply in_or_app; right; now left|auto].
  - rewrite assoc_set_other by auto. apply IH.
    + intros k0 v0 v0' H1 H2. apply (Hf k0); apply in_or_app; now left.
    + apply in_app_or in Hin. destruct Hin as [|[E|[]]]; auto. congruence.
Qed.

Lemma dict_of_In l k v :
  functional l -> (In (k, v) (dict_of l) <-> In (k, v) l).
Proof.
  intros Hf. split; [apply dict_of_sound|].
  intros H. apply assoc_In. now apply dict_of_complete.
Qed.

Lemma getinfo_In a name d : getinfo a name = Some d -> In (name, d) a.
Proof.
  induction a as [|[k x] a IH]; simpl; [discriminate|].
  destruct (getinfo a name) as [d'|].
  - intros E. inversion E; subst. right. auto.
  - destruct (String.eqb_spec name k); [|intros; discriminate].
    intros E. inversion E; subst. now left.
Qed.

Lemma getinfo_functional a name d :
  functional a -> In (name, d) a -> getinfo a name = Some d.
Proof.
  induction a as [|[k x] a IH]; intros Hf Hin; [contradiction|]. simpl.
  assert (Hf' : functional a).
  { intros k0 v0 v0' H1 H2. apply (Hf k0); now right. }
  destruct (getinfo a name) as [d'|] eqn:E.
  - f_equal. apply getinfo_In in E. apply (Hf name); [now right|auto].
  - destruct Hin as [Heq|Hin].
    + inversion Heq; subst. now rewrite String.eqb_refl.
    + specialize (IH Hf' Hin). discriminate.
Qed.

Lemma getinfo_none a name : getinfo a name = None <-> ~ In name (map fst a).
Proof.
  induction a as [|[k x] a IH]; simpl.
  - split; auto.
  - destruct (getinfo a name) as [d'|] eqn:E.
    + split; [discriminate|]. intros H. exfalso. apply H. right.
      apply getinfo_In in E. apply in_map_iff. exists (name, d'). auto.
    + destruct (String.eqb_spec name k) as [->|Hne].
      * split; [discriminate|]. intros H. exfalso. apply H. now left.
      * split; auto. intros _ [H|H]; [congruence|]. now apply IH in H.
Qed.

(** The sample codecs keep the contract. *)
Lemma dec_enc_str s rest : Sample.dec_str (Sample.enc_str s ++ rest) = Some (s, rest).
Proof.
  induction s as [|c s IH]; simpl; auto. now rewrite IH.
Qed.

Lemma enc_str_length s : String.length (Sample.enc_str s) = S (2 * String.length s).
Proof. induction s; simpl; auto. rewrite IHs. lia. Qed.

Lemma string_length_app (a b : string) :
  String.length (a ++ b) = String.length a + String.length b.
Proof. induction a; simpl; auto. Qed.

Lemma string_app_assoc (a b c : string) : ((a ++ b) ++ c = a ++ (b ++ c))%string.
Proof. induction a; simpl; auto. now rewrite IHa. Qed.

Lemma dec_enc_pairs l : forall fuel,
  String.length (Sample.enc_pairs l) <= fuel ->
  Sample.dec_pairs fuel (Sample.enc_pairs l) = Some l.
Proof.
  induction l as [|[k v] l IH]; intros fuel Hf; simpl in *.
  - destruct fuel; [lia|reflexivity].
  - destruct fuel; [lia|]. simpl.
    rewrite dec_enc_str, dec_enc_str, IH; auto.
    rewrite !string_length_app, !enc_str_length in Hf. lia.
Qed.

Lemma untag_tagged tag l : Sample.untag tag (Sample.tagged tag l) = Some l.
Proof.
  unfold Sample.untag, Sample.tagged. rewrite Ascii.eqb_refl.
  apply dec_enc_pairs. lia.
Qed.

Lemma sample_codecs_ok : CodecsOk Sample.codecs.
Proof.
  constructor; intros.
  - cbn [json_loads json_dumps Sample.codecs]. now rewrite untag_tagged.
  - cbn [zip_decode zip_encode Sample.codecs]. apply untag_tagged.
Qed.

(* ----------------------------------------------------------------- *)
(** ** The two walks of [package_directory] *)

Lemma fold_left_ext (A B : Type) (g g' : B -> A -> B) (l : list A) :
  (forall b x, In x l -> g b x = g' b x) -> forall b, fold_left g l b = fold_left g' l b.
Proof.
  induction l as [|x l IH]; intros H b; simpl; auto.
  rewrite H by now left. apply IH. intros. apply H. now right.
Qed.

Lemma fold_add_entry (A : Type) (h : A -> option (string * string)) (l : list A) :
  forall b,
  fold_left (fun b x => add_entry b (h x)) l b
  = fold_left (fun d kv => alist_set (fst kv) (snd kv) d)
              (flat_map (fun x => opt_list (h x)) l) b.
Proof.
  induction l as [|x l IH]; intros b; simpl; auto.
  rewrite fold_left_app, IH. destruct (h x); reflexivity.
Qed.

Lemma os_walk_tame f src n :
  tame f src -> get f src = Some n -> not_link f src ->
  os_walk f src = walk_node f src n.
Proof.
  intros Ht Hg Hnl. unfold os_walk.
  destruct (path_eq_dec src []) as [->|Hne].
  - rewrite locate_root. rewrite get_nil in Hg. now inversion Hg.
  - rewrite locate_tame; auto. rewrite lookup_parent_dir; auto.
    + now rewrite Hg.
    + unfold lookup. rewrite Hg. discriminate.
Qed.

Lemma lookup_get_file f p d : lookup f p = Some (KFile d) -> get f p = Some (File d).
Proof.
  unfold lookup. destruct (get f p) as [[| |]|]; simpl; try discriminate. congruence.
Qed.

Lemma abs_links_resolve_child f r es c ch :
  abs_links_resolve f (Dir r es) = true -> assoc c es = Some ch ->
  abs_links_resolve f ch = true.
Proof.
  cbn [abs_links_resolve]. intros H Ha.
  induction es as [|[k x] es IH]; simpl in *; [discriminate|].
  apply andb_true_iff in H. destruct H as [H1 H2].
  destruct (String.eqb c k); [now inversion Ha; subst|auto].
Qed.

Lemma abs_links_resolve_get f : forall rel n t,
  abs_links_resolve f n = true -> get n rel = Some (Link t) -> isabs t = true ->
  resolves f (components t) = true.
Proof.
  induction rel as [|c rel IH]; intros n t Hl Hg Ha.
  - rewrite get_nil in Hg. inversion Hg; subst. simpl in Hl.
    rewrite Ha in Hl. exact Hl.
  - rewrite get_cons in Hg. destruct n as [| |r es]; try discriminate.
    destruct (assoc c es) as [ch|] eqn:E; [|discriminate].
    apply (IH ch t); auto. apply (abs_links_resolve_child f r es c ch Hl E).
Qed.

Section Loops.

Variables (f : node) (src : path) (n : node).
Hypothesis Hsrc : get f src = Some n.
Hypothesis Hdd : ~ In ".." src.
Hypothesis Hok : names_ok n = true.

Lemma item_relative rr es name :
  walked n rr es -> In name (map fst es) ->
  joinpath (src ++ rr) name = (src ++ rr) ++ [name] /\
  relative_to (joinpath (src ++ rr) name) src = Some (rr ++ [name]).
Proof.
  intros Hw Hin. apply In_names_assoc in Hin. destruct Hin as [ch Ha].
  destruct (walked_entry f src n Hsrc Hdd Hok rr es name ch Hw Ha) as (Hname & _).
  rewrite joinpath_name by auto. split; auto.
  now rewrite <- app_assoc, relative_to_app.
Qed.

Lemma scan_loop z s :
  resolves f src = true -> abs_links_resolve f n = true ->
  fs s = f -> zf s = z ->
  exists s1,
    for_fold (walk_node f src n)
      (fun item links =>
         let '(root, dirs, files) := item in
         for_fold (files ++ dirs) (scan_item src root) links) [] s
    = (Ok (dict_of (manifest_entries f src (walk_node f src n))), s1)
    /\ fs s1 = f /\ zf s1 = z.
Proof.
  intros Hres Habs Hf Hz.
  destruct (for_fold_pure _ _ (fun s' => fs s' = f /\ zf s' = z)
              (fun item b =>
                 let '(root, dirs, files) := item in
                 fold_left (fun b name => add_entry b (link_entry f src root name))
                           (files ++ dirs) b)
              (fun item links =>
                 let '(root, dirs, files) := item in
                 for_fold (files ++ dirs) (scan_item src root) links)
              (walk_node f src n)) with (b := @nil (string * string)) (s := s)
    as (s1 & E & H1 & H2); auto.
  - intros item b s0 Hin [Hf0 Hz0].
    destruct (walk_node_sound f n src item Hok Hin) as (rr & es & Hw & ->).
    unfold walk_item.
    apply (for_fold_pure _ _ (fun s' => fs s' = f /\ zf s' = z)
             (fun name b => add_entry b (link_entry f src (src ++ rr) name))); auto.
    intros name b' s' Hname [Hf' Hz'].
    apply files_dirs_names in Hname.
    destruct (item_relative rr es name Hw Hname) as [Hjoin Hrel].
    destruct (scan_item_pure src (src ++ rr) name b' s' _ Hrel) as (s2 & E2 & F2 & Z2).
    + now rewrite Hf'.
    + rewrite Hf', Hjoin. intros loc t Hl Ha.
      unfold joinpath. rewrite Ha.
      apply In_names_assoc in Hname. destruct Hname as [ch Hch].
      destruct (walked_entry f src n Hsrc Hdd Hok rr es name ch Hw Hch)
        as (_ & _ & Hgc & Ht & Hd).
      rewrite locate_tame in Hl; [|exact Ht|destruct (src ++ rr); discriminate|discriminate].
      rewrite parent_snoc, Hd, Hgc in Hl. injection Hl as _ Hch'. rewrite Hch' in Hgc.
      rewrite <- app_assoc, (get_under f src n _ Hsrc) in Hgc.
      apply (abs_links_resolve_get f (rr ++ [name]) n t Habs Hgc Ha).
    + exists s2. rewrite E2, Hf'. repeat split; congruence.
  - exists s1. split; [|auto]. rewrite E. repeat f_equal.
    unfold dict_of, manifest_entries.
    rewrite <- fold_left_flat_map. apply fold_left_ext.
    intros b [[root dirs] files] _. apply fold_add_entry.
Qed.

Lemma add_file_ready rr es name :
  walked n rr es ->
  In name (map fst (filter (fun e => negb (entry_is_dir f (src ++ rr) e)) es)) ->
  path_is_symlink f (joinpath (src ++ rr) name) = false ->
  exists rel loc d,
    relative_to (joinpath (src ++ rr) name) src = Some rel /\
    locate true f (joinpath (src ++ rr) name) = inr (loc, Some (File d)).
Proof.
  intros Hw Hin Hsym. pose proof Hw as [_ Hg].
  destruct (names_ok_get n rr _ Hok Hg) as [_ Hokd].
  apply names_ok_dir in Hokd. destruct Hokd as [Hnd _].
  destruct (In_files f es _ name Hnd Hin) as (ch & Ha & Hnd').
  destruct (walked_entry f src n Hsrc Hdd Hok rr es name ch Hw Ha)
    as (Hname & Hrel & Hgc & Ht & Hd).
  rewrite joinpath_name in * by auto.
  rewrite path_is_symlink_tame in Hsym by auto. unfold lookup in Hsym. rewrite Hgc in Hsym.
  destruct ch as [d|t|r es']; [|discriminate|now destruct (Hnd' r es')].
  exists (rr ++ [name]), ((src ++ rr) ++ [name]), d. split.
  - now rewrite <- app_assoc, relative_to_app.
  - rewrite locate_tame; auto.
    + now rewrite parent_snoc, Hd, Hgc.
    + destruct (src ++ rr); discriminate.
    + intros _ t. unfold lookup. rewrite Hgc. discriminate.
Qed.

Lemma archive_loop s :
  fs s = f ->
  exists s1,
    for_each (walk_node f src n)
      (fun item =>
         let '(root, _, files) := item in
         for_each files (add_file src root)) s
    = (Ok tt, s1)
    /\ fs s1 = f /\ zf s1 = zf s ++ archive_entries f src (walk_node f src n).
Proof.
  intros Hf.
  apply (for_each_collect _ f
           (fun item =>
              let '(root, _, files) := item in
              flat_map (fun name => opt_list (file_entry f src root name)) files)); auto.
  intros item s0 Hin Hf0.
  destruct (walk_node_sound f n src item Hok Hin) as (rr & es & Hw & ->).
  unfold walk_item.
  apply (for_each_collect _ f
           (fun name => opt_list (file_entry f src (src ++ rr) name))); auto.
  intros name s' Hname Hf'.
  destruct (add_file_pure src (src ++ rr) name s') as (s2 & E2 & F2 & Z2).
  - rewrite Hf'. now apply add_file_ready with (es := es).
  - exists s2. rewrite E2, Z2, Hf'. repeat split; congruence.
Qed.

End Loops.

Lemma zf_write_file s p arc d :
  tame (fs s) p -> lookup (fs s) p = Some (KFile d) ->
  zf_write p arc s = (Ok tt, mkState (fs s) (log s) (zf s ++ [(arc, d)])).
Proof.
  intros Ht Hk. unfold zf_write.
  destruct (path_eq_dec p []) as [->|Hne].
  - destruct Ht as (_ & Hroot & _). rewrite Hk in Hroot. discriminate.
  - rewrite locate_tame; auto.
    + rewrite lookup_parent_dir; auto; [|congruence].
      now rewrite (lookup_get_file _ _ _ Hk).
    + intros _ t. rewrite Hk. discriminate.
Qed.

Lemma parent_neq (p : path) : p <> [] -> parent p <> p.
Proof.
  intros Hne E. destruct (rev_case _ p) as [->|(q & c & ->)]; [congruence|].
  rewrite parent_snoc in E. apply (f_equal (@length _)) in E.
  rewrite length_app in E. simpl in E. lia.
Qed.

Lemma parent_last (p : path) : p <> [] -> p = parent p ++ [name_of p].
Proof. intros. unfold parent, name_of. now apply app_removelast_last. Qed.

Lemma tame_child f p :
  p <> [] -> ~ In ".." p -> lookup f (parent p) = Some KDir -> tame f p.
Proof.
  intros Hne Hdd Hp. rewrite (parent_last p Hne) in *. rewrite parent_snoc in Hp.
  now apply tame_parent.
Qed.

Lemma NoDup_nodupb l : NoDup l -> nodupb l = true.
Proof.
  induction 1 as [|x l Hx Hnd IH]; simpl; auto.
  rewrite IH, andb_true_r. apply negb_true_iff.
  destruct (existsb (String.eqb x) l) eqn:E; auto.
  apply existsb_exists in E. destruct E as (y & Hy & E). apply String.eqb_eq in E.
  subst. contradiction.
Qed.

Lemma names_ok_intro r es :
  NoDup (map fst es) ->
  Forall (fun e => valid_name (fst e) = true /\ names_ok (snd e) = true) es ->
  names_ok (Dir r es) = true.
Proof.
  intros Hnd Hall. cbn [names_ok]. rewrite (NoDup_nodupb _ Hnd). simpl.
  induction Hall as [|e es [H1 H2] Hall IH]; auto.
  rewrite H1, H2. simpl. apply IH. now inversion Hnd.
Qed.

Lemma alist_set_absent (A : Type) k (v : A) es :
  assoc k es = None -> alist_set k v es = es ++ [(k, v)].
Proof.
  induction es as [|[k' v'] es IH]; simpl; auto.
  destruct (String.eqb k k'); [discriminate|]. intros H. now rewrite IH.
Qed.

Lemma assoc_none_notin (A : Type) k (es : list (string * A)) :
  assoc k es = None -> ~ In k (map fst es).
Proof.
  intros H Hin. apply In_names_assoc in Hin. destruct Hin as [ch Hc]. congruence.
Qed.

Lemma names_ok_add r es c x :
  names_ok (Dir r es) = true -> assoc c es = None ->
  valid_name c = true -> names_ok x = true ->
  names_ok (Dir r (alist_set c x es)) = true.
Proof.
  intros Hok Ha Hc Hx. rewrite alist_set_absent by auto.
  apply names_ok_dir in Hok. destruct Hok as [Hnd Hall].
  apply names_ok_intro.
  - rewrite map_app. apply NoDup_app; auto.
    + repeat constructor. intros [].
    + intros y Hy [<-|[]]. simpl in *. now apply (assoc_none_notin _ _ _ Ha).
  - apply Forall_app. split; auto.
Qed.

(** The entries of the tree [n] under its first-level name [c] apart,
    [n] and [n] with [c] set to a file are the same. *)
Lemma get_added r es c x rel :
  rel <> [] -> assoc c es = None -> rel <> [c] ->
  get (Dir r (alist_set c (File x) es)) rel = get (Dir r es) rel.
Proof.
  intros Hne Ha Hrel. destruct rel as [|d rel]; [congruence|].
  rewrite !get_cons. destruct (String.eqb_spec d c) as [->|Hd].
  - rewrite assoc_set_same, Ha. destruct rel; [congruence|reflexivity].
  - now rewrite assoc_set_other.
Qed.

Lemma visible_added r es c x rel :
  assoc c es = None -> rel <> [c] ->
  visible (Dir r (alist_set c (File x) es)) rel = visible (Dir r es) rel.
Proof.
  intros Ha Hrel. destruct rel as [|d rel]; [reflexivity|].
  simpl. destruct (String.eqb_spec d c) as [->|Hd].
  - rewrite assoc_set_same, Ha. destruct rel; [congruence|].
    simpl. now rewrite andb_false_r.
  - now rewrite assoc_set_other.
Qed.

Lemma get_added_at r es c x :
  get (Dir r (alist_set c (File x) es)) [c] = Some (File x).
Proof. rewrite get_cons, assoc_set_same. reflexivity. Qed.

Lemma is_prefix_false_neq p q : is_prefix p q = false -> p <> q.
Proof. intros H ->. now rewrite is_prefix_refl in H. Qed.

(* ----------------------------------------------------------------- *)
(** ** [package_directory] *)

Section Pack.

Variables (f : node) (src zip : path) (r : bool) (es : list (string * node)).
Hypothesis Hready : pack_ready f src zip r es.

Let n := Dir r es.
Let L := src ++ ["links.json"].

Lemma pk_src : get f src = Some n.
Proof. apply Hready. Qed.

Lemma pk_src_dir : lookup f src = Some KDir.
Proof. unfold lookup. now rewrite pk_src. Qed.

Lemma pk_L_none : lookup f L = None.
Proof.
  unfold L. rewrite (lookup_under f src n _ pk_src). unfold lookup, n.
  rewrite get_cons. destruct Hready as (_ & _ & _ & -> & _). reflexivity.
Qed.

Lemma pk_zip_notdir : lookup f zip <> Some KDir.
Proof.
  destruct Hready as (_ & _ & _ & _ & _ & _ & _ & [H|[d H]] & _); rewrite H; discriminate.
Qed.

Lemma pk_zsrc : is_prefix src zip = false.
Proof. apply Hready. Qed.

Lemma pk_zpar : lookup f (parent zip) = Some KDir.
Proof. apply Hready. Qed.

Lemma pk_zne : zip <> [].
Proof. apply Hready. Qed.

Lemma pk_L_zip : L <> zip.
Proof.
  intros E. assert (H : is_prefix src zip = true); [|rewrite pk_zsrc in H; discriminate].
  rewrite <- E. apply is_prefix_app.
Qed.

Lemma pk_src_zip : src <> zip.
Proof. apply is_prefix_false_neq, pk_zsrc. Qed.

Lemma pk_zip_src : is_prefix zip src = false.
Proof.
  destruct (is_prefix zip src) eqn:E; auto.
  apply is_prefix_spec in E. destruct E as [q E].
  destruct q as [|c q].
  - rewrite app_nil_r in E. now destruct pk_src_zip.
  - exfalso. apply pk_zip_notdir. apply (lookup_prefix_dir f zip (c :: q)); [discriminate|].
    rewrite <- E, pk_src_dir. discriminate.
Qed.

Lemma pk_L_ne : L <> [].
Proof. unfold L. destruct src; discriminate. Qed.

Lemma pk_L_dd : ~ In ".." L.
Proof.
  unfold L. intros H. apply in_app_or in H. destruct H as [H|[H|[]]]; [|discriminate].
  destruct Hready as (_ & Hd & _). auto.
Qed.

Lemma pk_L_parent : parent L = src.
Proof. apply parent_snoc. Qed.

Let fA (J : string) := update L (Some (File J)) f.
Let fB (J : string) := update zip (Some (File "")) (fA J).
Let fC (J Z : string) := update zip (Some (File Z)) (fB J).
Let fD (J Z : string) := update L None (fC J Z).

Lemma lkA J q : lookup (fA J) q = if path_eq_dec q L then Some (KFile J) else lookup f q.
Proof.
  unfold fA. rewrite lookup_write; auto.
  - apply pk_L_ne.
  - rewrite pk_L_parent. apply pk_src_dir.
  - exact I.
  - rewrite pk_L_none. discriminate.
Qed.

Lemma lkA_dir J q : lookup f q = Some KDir -> lookup (fA J) q = Some KDir.
Proof.
  intros H. rewrite lkA. destruct (path_eq_dec q L) as [->|]; auto.
  rewrite pk_L_none in H. discriminate.
Qed.

Lemma lkA_zip J : lookup (fA J) zip = lookup f zip.
Proof.
  rewrite lkA. destruct (path_eq_dec zip L) as [E|]; auto.
  symmetry in E. now destruct (pk_L_zip E).
Qed.

Lemma lkB J q :
  lookup (fB J) q = if path_eq_dec q zip then Some (KFile "") else lookup (fA J) q.
Proof.
  unfold fB. rewrite lookup_write; auto.
  - apply pk_zne.
  - apply lkA_dir, pk_zpar.
  - exact I.
  - rewrite lkA_zip. apply pk_zip_notdir.
Qed.

Lemma lkB_dir J q : lookup f q = Some KDir -> lookup (fB J) q = Some KDir.
Proof.
  intros H. rewrite lkB. destruct (path_eq_dec q zip) as [->|]; [|now apply lkA_dir].
  now destruct (pk_zip_notdir H).
Qed.

Lemma lkB_L J : lookup (fB J) L = Some (KFile J).
Proof.
  rewrite lkB. destruct (path_eq_dec L zip) as [E|]; [now destruct (pk_L_zip E)|].
  rewrite lkA. destruct (path_eq_dec L L); congruence.
Qed.

Lemma lkC J Z q :
  lookup (fC J Z) q = if path_eq_dec q zip then Some (KFile Z) else lookup (fB J) q.
Proof.
  unfold fC. rewrite lookup_write; auto.
  - apply pk_zne.
  - apply lkB_dir, pk_zpar.
  - exact I.
  - rewrite lkB. destruct (path_eq_dec zip zip); [discriminate|congruence].
Qed.

Lemma lkC_dir J Z q : lookup f q = Some KDir -> lookup (fC J Z) q = Some KDir.
Proof.
  intros H. rewrite lkC. destruct (path_eq_dec q zip) as [->|]; [|now apply lkB_dir].
  now destruct (pk_zip_notdir H).
Qed.

Lemma lkC_L J Z : lookup (fC J Z) L = Some (KFile J).
Proof.
  rewrite lkC. destruct (path_eq_dec L zip) as [E|]; [now destruct (pk_L_zip E)|].
  apply lkB_L.
Qed.

Lemma lkD J Z q :
  lookup (fD J Z) q = if path_eq_dec q zip then Some (KFile Z) else lookup f q.
Proof.
  unfold fD. rewrite lookup_write; auto.
  - destruct (path_eq_dec q L) as [->|HL].
    + destruct (path_eq_dec L zip) as [E|]; [now destruct (pk_L_zip E)|].
      symmetry. apply pk_L_none.
    + rewrite lkC. destruct (path_eq_dec q zip); auto.
      rewrite lkB. destruct (path_eq_dec q zip); [contradiction|].
      rewrite lkA. destruct (path_eq_dec q L); [contradiction|auto].
  - apply pk_L_ne.
  - rewrite pk_L_parent. apply lkC_dir, pk_src_dir.
  - exact I.
  - rewrite lkC_L. discriminate.
Qed.

Lemma pk_get_B J : get (fB J) src = Some (Dir r (alist_set "links.json" (File J) es)).
Proof.
  unfold fB. rewrite get_update_other; [|apply pk_zip_src|apply pk_zsrc].
  unfold fA, L. rewrite (get_update_above src ["links.json"]).
  - rewrite pk_src. simpl. now rewrite update_single.
  - discriminate.
Qed.

(** The three paths of the run stay tame in a file system that kept the
    directories of [f]. *)
Lemma pk_tame_L g :
  (forall q, lookup f q = Some KDir -> lookup g q = Some KDir) -> tame g L.
Proof.
  intros H. apply tame_parent; [apply pk_L_dd|]. apply H, pk_src_dir.
Qed.

Lemma pk_tame_zip g :
  (forall q, lookup f q = Some KDir -> lookup g q = Some KDir) -> tame g zip.
Proof.
  intros H. apply tame_child; [apply pk_zne| |apply H, pk_zpar].
  destruct Hready as (_ & _ & _ & _ & Hd & _). exact Hd.
Qed.

Lemma pk_tame_src g :
  (forall q, lookup f q = Some KDir -> lookup g q = Some KDir) -> tame g src.
Proof.
  intros H. apply tame_dir; [|apply H, pk_src_dir].
  destruct Hready as (_ & Hd & _). exact Hd.
Qed.

End Pack.

Lemma resolve_tame s p :
  tame (fs s) p -> not_link (fs s) p -> resolve p s = (Ok p, s).
Proof. intros. unfold resolve. now rewrite resolves_tame, realpath_tame. Qed.

Lemma not_link_of f p k : lookup f p = k -> (forall t, k <> Some (KLink t)) -> not_link f p.
Proof. intros <- H t. apply H. Qed.

Lemma manifest_functional f src n :
  get f src = Some n -> ~ In ".." src -> names_ok n = true ->
  functional (manifest_entries f src (walk_node f src n)).
Proof.
  intros Hsrc Hdd Hok k v v' H1 H2.
  apply (manifest_In f src n Hsrc Hdd Hok) in H1, H2.
  destruct H1 as (rel & t & _ & _ & Hg & -> & -> & _).
  destruct H2 as (rel' & t' & _ & _ & Hg' & E & -> & _).
  destruct (names_ok_get n rel _ Hok Hg) as [Hv _].
  destruct (names_ok_get n rel' _ Hok Hg') as [Hv' _].
  apply join_slash_inj in E; auto. subst. congruence.
Qed.

Lemma valid_links_json : valid_name "links.json" = true.
Proof. reflexivity. Qed.

Ltac step E := unfold bind at 1; rewrite E.

Theorem package_directory_ok {C : Codecs} s src zip r es :
  pack_ready (fs s) src zip r es ->
  exists s' m a,
    package_directory src zip s = (Ok tt, s') /\
    lookup (fs s') zip = Some (KFile (zip_encode a)) /\
    (forall q, q <> zip -> lookup (fs s') q = lookup (fs s) q) /\
    NoDup (map fst m) /\
    (forall k v, In (k, v) m <-> link_at (fs s) src (Dir r es) k v) /\
    (forall k d, In (k, d) a <->
                 (k = "links.json" /\ d = json_dumps m) \/ file_at (Dir r es) k d).
Proof.
  intros Hr. pose proof Hr as (Hsrc & Hdd & Hok & Hlj & Hzdd & Hzne & Hzpar & Hzk & Hzs & Hrt & Habs & _).
  set (f := fs s) in *. set (n := Dir r es) in *.
  set (L := src ++ ["links.json"]).
  set (m := dict_of (manifest_entries f src (walk_node f src n))).
  set (J := json_dumps m).
  set (fA := update L (Some (File J)) f).
  set (fB := update zip (Some (File "")) fA).
  set (nB := Dir r (alist_set "links.json" (File J) es)).
  set (a := ("links.json", J) :: archive_entries fB src (walk_node fB src nB)).
  set (fC := update zip (Some (File (zip_encode a))) fB).
  set (fD := update L None fC).
  assert (Hsd : lookup f src = Some KDir) by apply (pk_src_dir f src zip r es Hr).
  assert (Htsrc : tame f src) by (apply (pk_tame_src f src zip r es Hr); auto).
  assert (Htzip : tame f zip) by (apply (pk_tame_zip f src zip r es Hr); auto).
  assert (Hnl_src : not_link f src) by (intros t; rewrite Hsd; discriminate).
  assert (Hnl_zip : not_link f zip).
  { intros t. destruct Hzk as [H|[d H]]; rewrite H; discriminate. }
  (* the manifest *)
  destruct (scan_loop f src n Hsrc Hdd Hok (zf s) s
              (resolves_tame f src Htsrc Hnl_src) Habs eq_refl eq_refl)
    as (s1 & E1 & Hf1 & Hz1).
  (* the archive *)
  assert (HgB : get fB src = Some nB) by apply (pk_get_B f src zip r es Hr J).
  assert (HokB : names_ok nB = true).
  { apply names_ok_add; auto. }
  assert (HdirB : forall q, lookup f q = Some KDir -> lookup fB q = Some KDir)
    by apply (lkB_dir f src zip r es Hr J).
  set (sB := mkState fB (log s1) []).
  destruct (archive_loop fB src nB HgB Hdd HokB
              (mkState fB (log s1) [("links.json", J)]) eq_refl)
    as (s2 & E2 & Hf2 & Hz2).
  cbn [zf app] in Hz2. fold a in Hz2.
  exists (mkState fD (log s2) []), m, a.
  split; [|split; [|split; [|split; [|split]]]].
  - unfold package_directory.
    step (resolve_tame s src Htsrc Hnl_src).
    step (resolve_tame s zip Htzip Hnl_zip).
    unfold bind at 1. unfold read_fs at 1.
    fold f. rewrite (os_walk_tame f src n Htsrc Hsrc Hnl_src).
    step E1.
    rewrite joinpath_name by apply valid_links_json. fold L. fold m. fold J.
    assert (EA : open_write L J s1 = (Ok L, with_fs s1 fA)).
    { unfold fA. rewrite <- Hf1. apply open_write_tame.
      - rewrite Hf1. apply (pk_tame_L f src zip r es Hr). auto.
      - rewrite Hf1. unfold L. now rewrite parent_snoc.
      - apply (pk_L_ne f src zip r es Hr).
      - left. rewrite Hf1. apply (pk_L_none f src zip r es Hr). }
    step EA.
    unfold bind at 1. unfold with_ZipFile_w. unfold bind at 1.
    assert (EB : open_write zip "" (with_fs s1 fA) = (Ok zip, with_fs (with_fs s1 fA) fB)).
    { unfold fB. apply open_write_tame; simpl.
      - apply (pk_tame_zip f src zip r es Hr). apply (lkA_dir f src zip r es Hr J).
      - apply (lkA_dir f src zip r es Hr J). exact Hzpar.
      - exact Hzne.
      - unfold fA, L. rewrite (lkA_zip f src zip r es Hr J). exact Hzk. }
    rewrite EB. cbn [fs log zf with_fs].
    assert (EW : zf_write L "links.json" (mkState fB (log s1) [])
                 = (Ok tt, mkState fB (log s1) [("links.json", J)])).
    { rewrite zf_write_file with (d := J); [reflexivity| |].
      - apply (pk_tame_L f src zip r es Hr). exact HdirB.
      - apply (lkB_L f src zip r es Hr J). }
    step EW. unfold bind at 1. unfold read_fs at 1. cbn [fs].
    rewrite (os_walk_tame fB src nB).
    + rewrite E2. cbn [fs log zf]. rewrite Hf2, Hz2. fold a. fold fC.
      assert (EU : os_unlink L (mkState fC (log s2) []) =
                   (Ok tt, with_fs (mkState fC (log s2) []) (update L None fC))).
      { apply os_unlink_leaf.
        - apply (pk_tame_L f src zip r es Hr). apply (lkC_dir f src zip r es Hr J).
        - apply (pk_L_ne f src zip r es Hr).
        - exists (KFile J). split; [|discriminate].
          apply (lkC_L f src zip r es Hr J). }
      rewrite EU. reflexivity.
    + apply (pk_tame_src f src zip r es Hr). exact HdirB.
    + exact HgB.
    + intros t. rewrite (HdirB src Hsd). discriminate.
  - cbn [fs with_fs]. unfold fD, fC, fB, fA, L.
    rewrite (lkD f src zip r es Hr J (zip_encode a) zip).
    destruct (path_eq_dec zip zip); congruence.
  - intros q Hq. cbn [fs with_fs]. unfold fD, fC, fB, fA, L.
    rewrite (lkD f src zip r es Hr J (zip_encode a) q).
    destruct (path_eq_dec q zip); congruence.
  - apply dict_of_NoDup.
  - intros k v. unfold m. rewrite dict_of_In by now apply manifest_functional.
    apply (manifest_In f src n Hsrc Hdd Hok).
  - intros k d. unfold a. cbn [In].
    rewrite (archive_In fB src nB HgB Hdd HokB k d). split.
    + intros [E|(rel & Hne & Hv & Hg & ->)].
      * inversion E; subst. now left.
      * destruct (path_eq_dec rel ["links.json"]) as [->|Hrel].
        -- left. unfold nB in Hg. rewrite get_added_at in Hg. inversion Hg. auto.
        -- right. exists rel. unfold nB in *.
           rewrite get_added in Hg by auto. rewrite visible_added in Hv by auto. auto.
    + intros [[-> ->]|(rel & Hne & Hv & Hg & ->)]; [now left|].
      right. exists rel.
      assert (Hrel : rel <> ["links.json"]).
      { intros ->. unfold n in Hg. rewrite get_cons, Hlj in Hg. discriminate. }
      unfold nB. rewrite get_added by auto. rewrite visible_added by auto. auto.
Qed.

(* ----------------------------------------------------------------- *)
(** ** [unpackage_directory] *)

Lemma ends_with_slash_app a t :
  t <> "" -> ends_with_slash (a ++ t) = ends_with_slash t.
Proof.
  intros Ht. induction a as [|c a IH]; auto.
  simpl. rewrite IH. destruct (a ++ t)%string eqn:E; auto.
  destruct a; simpl in E; [congruence|discriminate].
Qed.

Lemma ends_with_slash_free s : slash_free s = true -> ends_with_slash s = false.
Proof.
  induction s as [|c s IH]; auto. simpl. intros H.
  apply andb_true_iff in H. destruct H as [Hc Hs].
  destruct s; [now apply negb_true_iff in Hc|auto].
Qed.

Lemma ends_with_slash_join rel :
  valid_rel rel -> ends_with_slash (join_slash rel) = false.
Proof.
  induction rel as [|c rel IH]; intros H; auto.
  inversion H; subst. destruct rel as [|d rel].
  - simpl. now apply ends_with_slash_free, valid_name_slash_free.
  - rewrite join_slash_cons. rewrite ends_with_slash_app by discriminate.
    change (String "/" (join_slash (d :: rel))) with ("/" ++ join_slash (d :: rel))%string.
    rewrite ends_with_slash_app; auto.
    inversion H3; subst. apply join_slash_nonempty; [discriminate|].
    eapply Forall_impl; [|exact H3]. intros x Hx. now apply valid_name_neq in Hx.
Qed.

Lemma app_eq_cases (A : Type) (q r p s : list A) :
  q ++ r = p ++ s ->
  (exists t, p = q ++ t /\ r = t ++ s) \/ (exists t, t <> [] /\ q = p ++ t /\ s = t ++ r).
Proof.
  revert p. induction q as [|x q IH]; intros p E; simpl in *.
  - left. exists p. auto.
  - destruct p as [|y p]; simpl in *.
    + right. exists (x :: q). split; [discriminate|]. subst. auto.
    + inversion E; subst. destruct (IH p H1) as [(t & -> & ->)|(t & Ht & -> & ->)].
      * left. exists t. auto.
      * right. exists t. auto.
Qed.

Lemma mirror_prefix f src rel r :
  r <> [] -> mirror f src (rel ++ r) <> None -> mirror f src rel = Some KDir.
Proof.
  intros Hr H. unfold mirror in *. rewrite app_assoc in H.
  assert (Hd : lookup f (src ++ rel) = Some KDir).
  { apply (lookup_prefix_dir f (src ++ rel) r); auto. unfold lookup.
    destruct (get f ((src ++ rel) ++ r)); [discriminate|congruence]. }
  apply lookup_dir in Hd. destruct Hd as (r0 & es & ->). reflexivity.
Qed.

Section Target.

Variables (f0 : node) (src tgt : path).

Lemma grows_refl g : grows tgt g g.
Proof. intros rel k H. exact H. Qed.

Lemma grows_trans g1 g2 g3 : grows tgt g1 g2 -> grows tgt g2 g3 -> grows tgt g1 g3.
Proof. intros H1 H2 rel k H. auto. Qed.

Lemma mirrors_tame g rel :
  mirrors f0 src tgt g -> valid_rel rel -> mirror f0 src rel <> None -> tame g (tgt ++ rel).
Proof.
  intros (Hdd & Htgt & Hm) Hv Hs.
  pose proof (tame_dir g tgt Hdd Htgt) as Ht.
  apply tame_intro.
  - intros Hin. apply in_app_or in Hin. destruct Hin; [auto|].
    now apply (valid_rel_no_dotdot rel).
  - apply Ht.
  - intros q r E Hq Hr. symmetry in E. apply app_eq_cases in E.
    destruct E as [(t & -> & ->)|(t & Hne & -> & ->)].
    + right. simpl. destruct t as [|x t]; [now rewrite app_nil_r in Htgt|].
      apply (lookup_prefix_dir g q (x :: t)); [discriminate|]. rewrite Htgt. discriminate.
    + destruct (lookup g (tgt ++ t)) as [k|] eqn:E; auto. right.
      apply Hm in E; auto. rewrite (mirror_prefix f0 src t r Hr Hs) in E. congruence.
Qed.

Lemma mirrors_above g rel r :
  mirrors f0 src tgt g -> r <> [] -> mirror f0 src (rel ++ r) <> None ->
  lookup g (tgt ++ rel) = None \/ lookup g (tgt ++ rel) = Some KDir.
Proof.
  intros (Hdd & Htgt & Hm) Hr Hs.
  destruct rel as [|c rel]; [right; now rewrite app_nil_r|].
  destruct (lookup g (tgt ++ c :: rel)) as [k|] eqn:E; auto. right.
  apply Hm in E; [|discriminate].
  rewrite (mirror_prefix f0 src (c :: rel) r Hr Hs) in E. congruence.
Qed.

(** Directories made along the way to a mirrored entry. *)
Lemma mirrors_dirs g g1 rel r :
  mirrors f0 src tgt g -> r <> [] -> mirror f0 src (rel ++ r) <> None ->
  dirs_made g g1 (tgt ++ rel) ->
  mirrors f0 src tgt g1 /\ grows tgt g g1.
Proof.
  intros Hmir Hr Hs Hd. pose proof Hmir as (Hdd & Htgt & Hm). split; [split; [auto|split]|].
  - rewrite Hd, is_prefix_app. reflexivity.
  - intros x k Hx Hk. rewrite Hd in Hk.
    destruct (is_prefix (tgt ++ x) (tgt ++ rel)) eqn:E; [|now apply Hm].
    inversion Hk; subst. apply is_prefix_spec in E. destruct E as [t E].
    rewrite <- app_assoc in E. apply app_inv_head in E. subst rel.
    destruct t as [|y t].
    + rewrite app_nil_r in Hs. apply (mirror_prefix f0 src x r Hr Hs).
    + apply (mirror_prefix f0 src x ((y :: t) ++ r)); [discriminate|].
      now rewrite app_assoc.
  - intros x k Hk. rewrite Hd.
    destruct (is_prefix (tgt ++ x) (tgt ++ rel)) eqn:E; auto.
    apply is_prefix_spec in E. destruct E as [t E].
    rewrite <- app_assoc in E. apply app_inv_head in E. subst rel.
    destruct (mirrors_above g x (t ++ r) Hmir) as [H|H].
    + destruct t, r; try discriminate. congruence.
    + now rewrite app_assoc.
    + congruence.
    + congruence.
Qed.

(** A mirrored leaf written to its place. *)
Lemma mirrors_write g g' rel k :
  mirrors f0 src tgt g -> rel <> [] -> mirror f0 src rel = Some k -> k <> KDir ->
  (lookup g (tgt ++ rel) = None \/ lookup g (tgt ++ rel) = Some k) ->
  (forall q, lookup g' q = if path_eq_dec q (tgt ++ rel) then Some k else lookup g q) ->
  mirrors f0 src tgt g' /\ grows tgt g g' /\ lookup g' (tgt ++ rel) = Some k.
Proof.
  intros (Hdd & Htgt & Hm) Hne Hs Hk Hold Hg'.
  assert (Hx : forall x, tgt ++ x = tgt ++ rel -> x = rel) by (intros x; apply app_inv_head).
  split; [split; [auto|split]|split].
  - rewrite Hg'. destruct (path_eq_dec tgt (tgt ++ rel)) as [E|]; auto.
    rewrite <- (app_nil_r tgt) in E at 1. apply app_inv_head in E. congruence.
  - intros x k' Hxne Hk'. rewrite Hg' in Hk'.
    destruct (path_eq_dec (tgt ++ x) (tgt ++ rel)) as [E|]; [|now apply Hm].
    apply Hx in E. subst. congruence.
  - intros x k' Hk'. rewrite Hg'.
    destruct (path_eq_dec (tgt ++ x) (tgt ++ rel)) as [E|]; auto.
    apply Hx in E. subst. destruct Hold as [H|H]; congruence.
  - rewrite Hg'. destruct (path_eq_dec (tgt ++ rel) (tgt ++ rel)); congruence.
Qed.

End Target.

Section Steps.

Variables (f0 : node) (src tgt : path).

(** What both loops of the unpacking do first: the directories above
    the place are there afterwards. *)
Lemma place_ready (mk : path -> M unit) s rp c :
  (forall s0 p, tame (fs s0) p -> lookup (fs s0) p = None ->
                exists s', mk p s0 = (Ok tt, s') /\ dirs_made (fs s0) (fs s') p) ->
  mirrors f0 src tgt (fs s) -> valid_rel (rp ++ [c]) ->
  mirror f0 src (rp ++ [c]) <> None ->
  lookup (fs s) (tgt ++ rp) = None ->
  exists s1,
    mk (tgt ++ rp) s = (Ok tt, s1) /\ mirrors f0 src tgt (fs s1) /\ grows tgt (fs s) (fs s1) /\
    lookup (fs s1) (tgt ++ rp) = Some KDir.
Proof.
  intros Hmk Hmir Hv Hs Hn.
  assert (Hvp : valid_rel rp) by (apply Forall_app in Hv; apply Hv).
  assert (Hsp : mirror f0 src rp = Some KDir)
    by (apply (mirror_prefix f0 src rp [c]); [discriminate|auto]).
  assert (Ht : tame (fs s) (tgt ++ rp)).
  { apply (mirrors_tame f0 src tgt); auto. congruence. }
  destruct (Hmk s (tgt ++ rp) Ht Hn) as (s1 & E & Hd).
  destruct (mirrors_dirs f0 src tgt (fs s) (fs s1) rp [c] Hmir ltac:(discriminate) Hs Hd)
    as [Hm1 Hg1].
  exists s1. repeat split; auto; try apply Hm1.
  rewrite Hd, is_prefix_refl. reflexivity.
Qed.

Lemma extract_step a member rel d s :
  mirrors f0 src tgt (fs s) -> valid_rel rel -> rel <> [] ->
  mirror f0 src rel = Some (KFile d) ->
  member = join_slash rel -> getinfo a member = Some d ->
  exists s',
    zf_extract a member tgt s = (Ok tt, s') /\ mirrors f0 src tgt (fs s') /\
    grows tgt (fs s) (fs s') /\ lookup (fs s') (tgt ++ rel) = Some (KFile d).
Proof.
  intros Hmir Hv Hne Hs -> Hgi.
  destruct (rev_case _ rel) as [->|(rp & c & ->)]; [congruence|].
  assert (Hsn : mirror f0 src (rp ++ [c]) <> None) by congruence.
  pose proof Hmir as (Hdd & Htgt & Hm).
  assert (Hdots : ~ In ".." (tgt ++ rp ++ [c])).
  { intros Hin. apply in_app_or in Hin. destruct Hin; [auto|].
    now apply (valid_rel_no_dotdot (rp ++ [c])). }
  unfold zf_extract. rewrite Hgi, sanitize_join by auto.
  rewrite normpath_plain by auto.
  replace (tgt ++ rp ++ [c]) with ((tgt ++ rp) ++ [c]) by now rewrite <- app_assoc.
  rewrite parent_snoc, ends_with_slash_join by auto.
  assert (Hvp : valid_rel rp) by (apply Forall_app in Hv; apply Hv).
  assert (Hsp : mirror f0 src rp = Some KDir)
    by (apply (mirror_prefix f0 src rp [c]); [discriminate|auto]).
  assert (Ht : tame (fs s) (tgt ++ rp)).
  { apply (mirrors_tame f0 src tgt); auto. congruence. }
  (* the directories above *)
  assert (Hup : exists s1,
             (if path_exists (fs s) (tgt ++ rp) then ret tt else makedirs (tgt ++ rp)) s
             = (Ok tt, s1)
             /\ mirrors f0 src tgt (fs s1) /\ grows tgt (fs s) (fs s1)
             /\ lookup (fs s1) (tgt ++ rp) = Some KDir).
  { destruct (mirrors_above f0 src tgt (fs s) rp [c] Hmir ltac:(discriminate) Hsn)
      as [Hn|Hd].
    - rewrite path_exists_tame, Hn; auto; [|intros t; rewrite Hn; discriminate].
      apply (place_ready makedirs s rp c); auto. intros s0 p. apply makedirs_spec.
    - rewrite path_exists_tame, Hd; auto; [|intros t; rewrite Hd; discriminate].
      exists s. repeat split; auto; try apply Hmir. apply grows_refl. }
  destruct Hup as (s1 & E1 & Hm1 & Hg1 & Hd1).
  unfold bind at 1. unfold read_fs at 1. unfold bind at 1. rewrite E1.
  (* the file *)
  assert (Hold : lookup (fs s1) ((tgt ++ rp) ++ [c]) = None \/
                 lookup (fs s1) ((tgt ++ rp) ++ [c]) = Some (KFile d)).
  { destruct (lookup (fs s1) ((tgt ++ rp) ++ [c])) as [k|] eqn:E; auto. right.
    rewrite <- app_assoc in E. apply Hm1 in E; [congruence|]. destruct rp; discriminate. }
  assert (Ht1 : tame (fs s1) ((tgt ++ rp) ++ [c])).
  { rewrite <- app_assoc. apply (mirrors_tame f0 src tgt); auto. }
  unfold bind. rewrite open_write_tame; auto.
  - eexists. split; [reflexivity|]. cbn [fs with_fs].
    rewrite <- app_assoc.
    destruct (mirrors_write f0 src tgt (fs s1)
                (update (tgt ++ rp ++ [c]) (Some (File d)) (fs s1)) (rp ++ [c]) (KFile d))
      as (H1 & H2 & H3); auto.
    + discriminate.
    + now rewrite app_assoc.
    + intros q. rewrite lookup_write; auto.
      * destruct tgt; destruct rp; discriminate.
      * rewrite app_assoc, parent_snoc. exact Hd1.
      * exact I.
      * rewrite app_assoc. destruct Hold as [H|H]; rewrite H; discriminate.
    + repeat split; auto; try apply H1. eapply grows_trans; eauto.
  - now rewrite parent_snoc.
  - destruct (tgt ++ rp); discriminate.
  - destruct Hold as [H|H]; [now left|right; eauto].
Qed.

Lemma restore_step key rel v s :
  mirrors f0 src tgt (fs s) -> valid_rel rel -> rel <> [] ->
  mirror f0 src rel = Some (KLink v) -> link_target_ok v = true ->
  key = join_slash rel ->
  exists s',
    restore_link tgt (key, JStr v) s = (Ok tt, s') /\ mirrors f0 src tgt (fs s') /\
    grows tgt (fs s) (fs s') /\ lookup (fs s') (tgt ++ rel) = Some (KLink v).
Proof.
  intros Hmir Hv Hne Hs Hvne ->.
  destruct (rev_case _ rel) as [->|(rp & c & ->)]; [congruence|].
  assert (Hsn : mirror f0 src (rp ++ [c]) <> None) by congruence.
  unfold restore_link. rewrite joinpath_join by auto.
  replace (tgt ++ rp ++ [c]) with ((tgt ++ rp) ++ [c]) by now rewrite <- app_assoc.
  rewrite parent_snoc.
  assert (Hvp : valid_rel rp) by (apply Forall_app in Hv; apply Hv).
  assert (Hsp : mirror f0 src rp = Some KDir)
    by (apply (mirror_prefix f0 src rp [c]); [discriminate|auto]).
  assert (Ht : tame (fs s) (tgt ++ rp)).
  { apply (mirrors_tame f0 src tgt); auto. congruence. }
  (* the directories above *)
  destruct (mkdir_parents_spec (tgt ++ rp) s Ht
              (mirrors_above f0 src tgt (fs s) rp [c] Hmir ltac:(discriminate) Hsn))
    as (s1 & E1 & Hd).
  destruct (mirrors_dirs f0 src tgt (fs s) (fs s1) rp [c] Hmir ltac:(discriminate) Hsn Hd)
    as [Hm1 Hg1].
  assert (Hd1 : lookup (fs s1) (tgt ++ rp) = Some KDir)
    by (rewrite Hd, is_prefix_refl; reflexivity).
  unfold bind at 1. rewrite E1.
  set (P := (tgt ++ rp) ++ [c]).
  assert (HP : P = tgt ++ rp ++ [c]) by (unfold P; now rewrite <- app_assoc).
  assert (HPne : P <> []) by (unfold P; destruct (tgt ++ rp); discriminate).
  assert (Hold : lookup (fs s1) P = None \/ lookup (fs s1) P = Some (KLink v)).
  { destruct (lookup (fs s1) P) as [k|] eqn:E; auto. right.
    rewrite HP in E. apply Hm1 in E; [congruence|]. destruct rp; discriminate. }
  assert (Ht1 : tame (fs s1) P).
  { rewrite HP. apply (mirrors_tame f0 src tgt); auto. }
  (* the place is cleared *)
  assert (Hclear : exists s2,
             (if path_exists (fs s1) P || path_is_symlink (fs s1) P
              then os_unlink P else ret tt) s1 = (Ok tt, s2)
             /\ lookup (fs s2) P = None
             /\ forall q, q <> P -> lookup (fs s2) q = lookup (fs s1) q).
  { rewrite path_is_symlink_tame by auto. destruct Hold as [Hn|Hl].
    - rewrite path_exists_tame, Hn; auto; [|intros t; rewrite Hn; discriminate].
      exists s1. auto.
    - rewrite Hl, orb_true_r. rewrite os_unlink_leaf; auto.
      + eexists. split; [reflexivity|]. cbn [fs with_fs]. split.
        * rewrite lookup_write; auto.
          -- destruct (path_eq_dec P P); [reflexivity|congruence].
          -- unfold P. now rewrite parent_snoc.
          -- exact I.
          -- rewrite Hl. discriminate.
        * intros q Hq. apply lookup_update_diff; auto; [exact I|]. rewrite Hl. discriminate.
      + exists (KLink v). split; [auto|discriminate]. }
  destruct Hclear as (s2 & E2 & Hn2 & Hsame2).
  unfold bind at 1. unfold read_fs at 1. unfold bind at 1. rewrite E2.
  assert (Hd2 : lookup (fs s2) (tgt ++ rp) = Some KDir).
  { rewrite Hsame2; auto. unfold P. intros E. apply (f_equal (@length _)) in E.
    rewrite !length_app in E. simpl in E. lia. }
  assert (Ht2 : tame (fs s2) P).
  { unfold P. apply tame_parent; auto. exact (proj1 Ht1). }
  unfold try_OSError. rewrite os_symlink_new; auto; [|unfold P; now rewrite parent_snoc].
  eexists. split; [reflexivity|]. cbn [fs with_fs].
  destruct (mirrors_write f0 src tgt (fs s1)
              (update P (Some (Link v)) (fs s2)) (rp ++ [c]) (KLink v))
    as (H1 & H2 & H3); auto.
  - discriminate.
  - now rewrite <- HP.
  - intros q. rewrite lookup_write; auto.
    + rewrite <- HP. destruct (path_eq_dec q P); auto.
    + unfold P. now rewrite parent_snoc.
    + exact I.
    + rewrite Hn2. discriminate.
  - rewrite <- HP in H3. repeat split; auto; try apply H1. eapply grows_trans; eauto.
Qed.

End Steps.

(** A loop whose turns keep an invariant, move the state along a
    preorder and each leave something the later turns do not undo. *)
Lemma for_each_inv (A : Type) (Inv : state -> Prop) (R : state -> state -> Prop)
      (Post : A -> state -> Prop) (body : A -> M unit) (l : list A) :
  (forall s, R s s) ->
  (forall s1 s2 s3, R s1 s2 -> R s2 s3 -> R s1 s3) ->
  (forall x s s', Post x s -> R s s' -> Post x s') ->
  (forall x s, In x l -> Inv s ->
               exists s', body x s = (Ok tt, s') /\ Inv s' /\ R s s' /\ Post x s') ->
  forall s, Inv s ->
  exists s', for_each l body s = (Ok tt, s') /\ Inv s' /\ R s s' /\
             forall x, In x l -> Post x s'.
Proof.
  intros Hrefl Htrans Hstable. induction l as [|x l IH]; intros Hbody s Hs; simpl.
  - exists s. split; [reflexivity|]. split; [auto|]. split; [auto|]. intros x [].
  - destruct (Hbody x s (or_introl eq_refl) Hs) as (s1 & E1 & I1 & R1 & P1).
    destruct (IH (fun y s' Hy => Hbody y s' (or_intror Hy)) s1 I1)
      as (s2 & E2 & I2 & R2 & P2).
    exists s2. unfold bind. rewrite E1.
    split; [exact E2|]. split; [exact I2|]. split; [eauto|].
    intros y [<-|Hy]; eauto.
Qed.

Section Unpack.

Context {C : Codecs} {COk : CodecsOk C}.
Variables (f0 : node) (src tgt zip : path) (r : bool) (es : list (string * node)).
Variables (m : dict) (a : archive).

Let n := Dir r es.

Hypothesis Hsrc : get f0 src = Some n.
Hypothesis Hok : names_ok n = true.
Hypothesis Hlj : assoc "links.json" es = None.
Hypothesis Hnd : NoDup (map fst m).
Hypothesis Hm : forall k v, In (k, v) m <-> link_at f0 src n k v.
Hypothesis Ha : forall k d, In (k, d) a <->
                            (k = "links.json" /\ d = json_dumps m) \/ file_at n k d.
Hypothesis Hlt : forall k v, In (k, v) m -> link_target_ok v = true.

Lemma mirror_file rel d : get n rel = Some (File d) -> mirror f0 src rel = Some (KFile d).
Proof. intros H. unfold mirror. now rewrite (get_under f0 src n rel Hsrc), H. Qed.

Lemma mirror_link rel t :
  get n rel = Some (Link t) ->
  mirror f0 src rel = Some (KLink (portable f0 src (src ++ rel) t)).
Proof. intros H. unfold mirror. now rewrite (get_under f0 src n rel Hsrc), H. Qed.

Lemma mirror_links_json : mirror f0 src ["links.json"] = None.
Proof.
  unfold mirror. rewrite (get_under f0 src n _ Hsrc). unfold n.
  now rewrite get_cons, Hlj.
Qed.

Lemma file_at_valid k d :
  file_at n k d -> exists rel, valid_rel rel /\ rel <> [] /\ k = join_slash rel /\
                               get n rel = Some (File d).
Proof.
  intros (rel & Hne & _ & Hg & ->). exists rel.
  destruct (names_ok_get n rel _ Hok Hg) as [Hv _]. auto.
Qed.

Lemma file_at_not_manifest k d : file_at n k d -> k <> "links.json".
Proof.
  intros H E. apply file_at_valid in H. destruct H as (rel & Hv & Hne & -> & Hg).
  change "links.json" with (join_slash ["links.json"]) in E.
  apply join_slash_inj in E; auto.
  - subst. unfold n in Hg. rewrite get_cons, Hlj in Hg. discriminate.
  - repeat constructor.
Qed.

Lemma archive_functional : functional a.
Proof.
  intros k d d' H1 H2. apply Ha in H1, H2.
  destruct H1 as [[-> ->]|H1], H2 as [[E ->]|H2]; auto.
  - now destruct (file_at_not_manifest _ _ H2).
  - now destruct (file_at_not_manifest _ _ H1).
  - apply file_at_valid in H1, H2.
    destruct H1 as (rel & Hv & _ & -> & Hg), H2 as (rel' & Hv' & _ & E & Hg').
    apply join_slash_inj in E; auto. subst. congruence.
Qed.

Lemma placed_stable key s s' :
  placed f0 src tgt key s -> grows tgt (fs s) (fs s') -> placed f0 src tgt key s'.
Proof.
  intros H Hg rel Hv E. destruct (H rel Hv E) as (k & H1 & H2). exists k. split; auto.
Qed.

Lemma extract_loop s :
  mirrors f0 src tgt (fs s) ->
  exists s',
    for_each (map fst a)
      (fun member =>
         if String.eqb member "links.json" then ret tt
         else zf_extract a member tgt) s = (Ok tt, s')
    /\ mirrors f0 src tgt (fs s') /\ grows tgt (fs s) (fs s')
    /\ forall member, In member (map fst a) -> member <> "links.json" -> placed f0 src tgt member s'.
Proof.
  intros Hmir.
  apply (for_each_inv _ (fun s => mirrors f0 src tgt (fs s))
           (fun s s' => grows tgt (fs s) (fs s'))
           (fun member s => member <> "links.json" -> placed f0 src tgt member s)); auto.
  - intros. apply grows_refl.
  - intros. eapply grows_trans; eauto.
  - intros x s1 s2 H Hg Hx. eapply placed_stable; eauto.
  - intros member s1 Hin Hs1.
    destruct (String.eqb_spec member "links.json") as [->|Hne].
    + exists s1. split; [reflexivity|]. split; [auto|]. split; [apply grows_refl|congruence].
    + apply in_map_iff in Hin. destruct Hin as ([k d] & <- & Hin). simpl in *.
      pose proof Hin as Hin'. apply Ha in Hin'. destruct Hin' as [[-> _]|Hf]; [congruence|].
      apply file_at_valid in Hf. destruct Hf as (rel & Hv & Hrne & -> & Hg).
      destruct (extract_step f0 src tgt a (join_slash rel) rel d s1 Hs1 Hv Hrne
                  (mirror_file rel d Hg) eq_refl
                  (getinfo_functional a _ d archive_functional Hin))
        as (s2 & E & H1 & H2 & H3).
      exists s2. split; [exact E|]. split; [exact H1|]. split; [exact H2|].
      intros _ rel' Hv' E'. apply join_slash_inj in E'; auto. subst rel'.
      exists (KFile d). split; auto. now apply mirror_file.
Qed.

Lemma restore_loop s :
  mirrors f0 src tgt (fs s) ->
  exists s',
    for_each (map (fun kv => (fst kv, JStr (snd kv))) m) (restore_link tgt) s = (Ok tt, s')
    /\ mirrors f0 src tgt (fs s') /\ grows tgt (fs s) (fs s')
    /\ forall k v, In (k, v) m -> placed f0 src tgt k s'.
Proof.
  intros Hmir.
  destruct (for_each_inv _ (fun s => mirrors f0 src tgt (fs s))
              (fun s s' => grows tgt (fs s) (fs s'))
              (fun item s => placed f0 src tgt (fst item) s)
              (restore_link tgt) (map (fun kv => (fst kv, JStr (snd kv))) m))
    with (s := s) as (s' & E & H1 & H2 & H3); auto.
  - intros. apply grows_refl.
  - intros. eapply grows_trans; eauto.
  - intros x s1 s2 H Hg. eapply placed_stable; eauto.
  - intros item s1 Hin Hs1.
    apply in_map_iff in Hin. destruct Hin as ([k v] & <- & Hin). simpl.
    pose proof (Hlt k v Hin) as Hvok.
    apply Hm in Hin. destruct Hin as (rel & t & Hrne & _ & Hg & -> & -> & Hvne).
    destruct (names_ok_get n rel _ Hok Hg) as [Hv _].
    destruct (restore_step f0 src tgt (join_slash rel) rel _ s1 Hs1 Hv Hrne
                (mirror_link rel t Hg) Hvok eq_refl)
      as (s2 & E & H1 & H2 & H3).
    exists s2. split; [exact E|]. split; [exact H1|]. split; [exact H2|].
    intros rel' Hv' E'. apply join_slash_inj in E'; auto. subst rel'.
    exists (KLink (portable f0 src (src ++ rel) t)).
    split; [apply mirror_link; exact Hg|exact H3].
  - exists s'. split; [exact E|]. split; [exact H1|]. split; [exact H2|].
    intros k v Hin. apply (H3 (k, JStr v)).
    apply in_map_iff. exists (k, v). auto.
Qed.

Section Run.

Variable s : state.
Hypothesis Hz : lookup (fs s) zip = Some (KFile (zip_encode a)).
Hypothesis Htz : tame (fs s) zip.
Hypothesis Htt : tame (fs s) tgt.
Hypothesis Htk : lookup (fs s) tgt = None \/ lookup (fs s) tgt = Some KDir.
Hypothesis Hempty : forall rel, rel <> [] -> lookup (fs s) (tgt ++ rel) = None.

Lemma zip_not_above : is_prefix zip tgt = false.
Proof.
  destruct (is_prefix zip tgt) eqn:E; auto. exfalso.
  apply is_prefix_spec in E. destruct E as [t E].
  destruct t as [|c t].
  - rewrite app_nil_r in E. subst. destruct Htk as [H|H]; congruence.
  - assert (H : lookup (fs s) zip = None \/ lookup (fs s) zip = Some KDir).
    { apply (tame_above (fs s) zip (c :: t)); [now rewrite <- E|discriminate]. }
    destruct H; congruence.
Qed.

Theorem unpackage_directory_ok :
  exists s',
    unpackage_directory zip tgt s = (Ok tt, s')
    /\ (forall member, In member (map fst a) -> member <> "links.json" -> placed f0 src tgt member s')
    /\ (forall k v, In (k, v) m -> placed f0 src tgt k s').
Proof.
  assert (Hnlz : not_link (fs s) zip) by (intros t; rewrite Hz; discriminate).
  assert (Hnlt : not_link (fs s) tgt).
  { intros t. destruct Htk as [H|H]; rewrite H; discriminate. }
  destruct (mkdir_parents_spec tgt s Htt Htk) as (s1 & E1 & Hd1).
  assert (Hz1 : lookup (fs s1) zip = Some (KFile (zip_encode a))).
  { now rewrite Hd1, zip_not_above. }
  assert (Htz1 : tame (fs s1) zip).
  { apply tame_transfer with (f := fs s); [exact Htz| |].
    - rewrite Hd1. reflexivity.
    - intros q r' _ _. rewrite Hd1. destruct (is_prefix q tgt); auto. }
  assert (Hmir1 : mirrors f0 src tgt (fs s1)).
  { split; [apply Htt|]. split.
    - rewrite Hd1, is_prefix_refl. reflexivity.
    - intros rel k Hne Hk. rewrite Hd1 in Hk.
      destruct (is_prefix (tgt ++ rel) tgt) eqn:E.
      + apply is_prefix_spec in E. destruct E as [t E].
        apply (f_equal (@length _)) in E. rewrite !length_app in E.
        destruct rel; [congruence|]. simpl in E. lia.
      + rewrite Hempty in Hk; auto. discriminate. }
  destruct (extract_loop s1 Hmir1) as (s2 & E2 & Hmir2 & Hg2 & Hp2).
  assert (Hlj2 : lookup (fs s2) (tgt ++ ["links.json"]) = None).
  { destruct (lookup (fs s2) (tgt ++ ["links.json"])) as [k|] eqn:E; auto.
    apply Hmir2 in E; [|discriminate]. rewrite mirror_links_json in E. discriminate. }
  destruct (restore_loop s2 Hmir2) as (s3 & E3 & Hmir3 & Hg3 & Hp3).
  exists s3. split; [|split].
  - unfold unpackage_directory.
    unfold bind at 1. rewrite (resolve_tame s zip Htz Hnlz).
    unfold bind at 1. rewrite (resolve_tame s tgt Htt Hnlt).
    unfold bind at 1. rewrite E1.
    unfold bind at 1. rewrite (read_file_tame s1 zip _ Htz1 Hz1).
    rewrite zip_roundtrip.
    rewrite (getinfo_functional a "links.json" (json_dumps m) archive_functional)
      by (apply Ha; now left).
    rewrite json_roundtrip by exact Hnd.
    unfold bind at 1. rewrite E2.
    rewrite joinpath_name by reflexivity.
    unfold bind at 1. unfold read_fs at 1.
    rewrite path_exists_tame, Hlj2.
    + unfold bind at 1. unfold ret at 1. unfold json_of_dict. exact E3.
    + apply tame_parent; [|apply Hmir2].
      intros Hin. apply in_app_or in Hin. destruct Hin as [Hin|[Hin|[]]]; [|discriminate].
      now apply Hmir2.
    + intros t. rewrite Hlj2. discriminate.
  - intros member Hin Hne. eapply placed_stable; [apply Hp2; auto|exact Hg3].
  - exact Hp3.
Qed.

End Run.

End Unpack.

(* ----------------------------------------------------------------- *)
(** ** Packing, then unpacking *)

Lemma all_readable_child r es c ch :
  all_readable (Dir r es) = true -> assoc c es = Some ch ->
  r = true /\ all_readable ch = true.
Proof.
  cbn [all_readable]. rewrite andb_true_iff. intros [-> H] Ha. split; auto.
  induction es as [|[k x] es IH]; simpl in *; [discriminate|].
  apply andb_true_iff in H. destruct H as [H1 H2].
  destruct (String.eqb c k); [now inversion Ha; subst|auto].
Qed.

Lemma all_readable_visible : forall rel n,
  all_readable n = true -> get n rel <> None -> visible n rel = true.
Proof.
  induction rel as [|c rel IH]; intros n Hr Hg; [reflexivity|].
  rewrite get_cons in Hg. simpl.
  destruct n as [| |r es]; try congruence.
  destruct (assoc c es) as [ch|] eqn:E; [|congruence].
  destruct (all_readable_child r es c ch Hr E) as [-> Hc]. simpl. auto.
Qed.

Lemma links_portable_child f src p r es c ch :
  links_portable f src p (Dir r es) = true -> assoc c es = Some ch ->
  links_portable f src (p ++ [c]) ch = true.
Proof.
  cbn [links_portable]. intros H Ha.
  induction es as [|[k x] es IH]; simpl in *; [discriminate|].
  apply andb_true_iff in H. destruct H as [H1 H2].
  destruct (String.eqb_spec c k) as [->|Hne]; [now inversion Ha; subst|auto].
Qed.

Lemma links_portable_get f src : forall rel p n t,
  links_portable f src p n = true -> get n rel = Some (Link t) ->
  link_target_ok (portable f src (p ++ rel) t) = true.
Proof.
  induction rel as [|c rel IH]; intros p n t Hl Hg.
  - rewrite get_nil in Hg. inversion Hg; subst. rewrite app_nil_r. exact Hl.
  - rewrite get_cons in Hg. destruct n as [| |r es]; try discriminate.
    destruct (assoc c es) as [ch|] eqn:E; [|discriminate].
    replace (p ++ c :: rel) with ((p ++ [c]) ++ rel) by now rewrite <- app_assoc.
    apply (IH (p ++ [c]) ch t); [|exact Hg].
    apply (links_portable_child f src p r es c ch Hl E).
Qed.

Lemma portable_nonempty f src p t : t <> "" -> portable f src p t <> "".
Proof. intros H. unfold portable. destruct (isabs t); auto. apply relpath_nonempty. Qed.

Lemma lookup_get_link f p t : lookup f p = Some (KLink t) -> get f p = Some (Link t).
Proof.
  unfold lookup. destruct (get f p) as [[| |]|]; simpl; try discriminate. congruence.
Qed.

Lemma portable_relative f src p t : isabs t = false -> portable f src p t = t.
Proof. intros H. unfold portable. now rewrite H. Qed.

Lemma portable_absolute f src p t :
  isabs t = true -> tame f src -> not_link f src ->
  portable f src p t = relpath (realpath f (components t)) src.
Proof.
  intros H Ht Hn. unfold portable, joinpath. rewrite H.
  now rewrite (realpath_tame f src Ht Hn).
Qed.


Section RoundTrip.

Context {C : Codecs} {COk : CodecsOk C}.


End RoundTrip.

(* ----------------------------------------------------------------- *)
(** ** What every outcome of unpacking preserves *)

(** ** What a computation keeps, whatever its outcome *)

Lemma preserves_ret (A : Type) Q (a : A) : preserves Q (ret a).
Proof. intros s r s' E H. inversion E; subst. auto. Qed.

Lemma preserves_raise (A : Type) Q e : preserves Q (@raise A e).
Proof. intros s r s' E H. inversion E; subst. auto. Qed.

Lemma preserves_read_fs (A : Type) Q (g : node -> A) : preserves Q (read_fs g).
Proof. intros s r s' E H. inversion E; subst. auto. Qed.

Lemma preserves_logger Q rec : preserves Q (logger rec).
Proof. intros s r s' E H. inversion E; subst. auto. Qed.

Lemma preserves_bind (A B : Type) Q (m : M A) (k : A -> M B) :
  preserves Q m -> (forall a, preserves Q (k a)) -> preserves Q (bind m k).
Proof.
  intros Hm Hk s r s' E H. unfold bind in E.
  destruct (m s) as [[a|e] s1] eqn:E1.
  - apply (Hk a s1 r s' E). apply (Hm s _ s1 E1 H).
  - inversion E; subst. apply (Hm s _ s' E1 H).
Qed.

Lemma preserves_try (A : Type) Q (m : M A) (h : errno -> M A) :
  preserves Q m -> (forall e, preserves Q (h e)) -> preserves Q (try_OSError m h).
Proof.
  intros Hm Hh s r s' E H. unfold try_OSError in E.
  destruct (m s) as [[a|[e| | | | | |]] s1] eqn:E1;
    try (inversion E; subst; apply (Hm s _ s' E1 H)).
  apply (Hh e s1 r s' E). apply (Hm s _ s1 E1 H).
Qed.

Lemma preserves_for_each (A : Type) Q (body : A -> M unit) l :
  (forall x, preserves Q (body x)) -> preserves Q (for_each l body).
Proof.
  intros Hb. induction l as [|x l IH]; simpl.
  - apply preserves_ret.
  - apply preserves_bind; auto.
Qed.

Lemma preserves_if (A : Type) Q (b : bool) (m1 m2 : M A) :
  preserves Q m1 -> preserves Q m2 -> preserves Q (if b then m1 else m2).
Proof. destruct b; auto. Qed.

Lemma lookup_none_get f p : lookup f p = None <-> get f p = None.
Proof. unfold lookup. destruct (get f p); simpl; split; congruence. Qed.

Lemma preserves_os_mkdir Q p :
  stable Q (Some (Dir true [])) -> preserves Q (os_mkdir p).
Proof.
  intros Hst s r s' E H. unfold os_mkdir in E.
  destruct (locate false (fs s) p) as [e|[loc [x|]]] eqn:El;
    inversion E; subst; auto.
  unfold locate in El. destruct (namei _ _ _ _ _); inversion El; subst.
  cbn [fs]. apply Hst; auto.
  - unfold lookup. rewrite H2. discriminate.
  - intros _. left. now apply lookup_none_get.
Qed.

Lemma preserves_os_symlink Q t p :
  stable Q (Some (Link t)) -> preserves Q (os_symlink t p).
Proof.
  intros Hst s r s' E H. unfold os_symlink in E.
  destruct (has_nul t); [inversion E; subst; auto|].
  destruct (Nat.leb PATH_MAX (String.length t)); [inversion E; subst; auto|].
  destruct (String.eqb t ""); [inversion E; subst; auto|].
  destruct (locate false (fs s) p) as [e|[loc [x|]]] eqn:El;
    inversion E; subst; auto.
  unfold locate in El. destruct (namei _ _ _ _ _); inversion El; subst.
  cbn [fs]. apply Hst; auto.
  - unfold lookup. rewrite H2. discriminate.
  - intros _. left. now apply lookup_none_get.
Qed.

Lemma preserves_os_unlink Q p :
  stable Q None -> preserves Q (os_unlink p).
Proof.
  intros Hst s r s' E H. unfold os_unlink in E.
  destruct (locate false (fs s) p) as [e|[loc [x|]]] eqn:El;
    try (inversion E; subst; auto; fail).
  unfold locate in El. destruct (namei _ _ _ _ _); inversion El; subst.
  destruct x as [d|t|r0 es]; inversion E; subst; auto; cbn [fs]; apply Hst; auto;
    try congruence; unfold lookup; rewrite H2; discriminate.
Qed.

Lemma preserves_open_write Q p d :
  stable Q (Some (File d)) -> preserves Q (open_write p d).
Proof.
  intros Hst s r s' E H. unfold open_write in E.
  destruct (locate true (fs s) p) as [e|[loc x]] eqn:El;
    [inversion E; subst; auto|].
  unfold locate in El. destruct (namei _ _ _ _ _); inversion El; subst.
  destruct (get (fs s) loc) as [[d0|t|r0 es]|] eqn:H2;
    inversion E; subst; auto; cbn [fs]; apply Hst; auto.
  - unfold lookup. rewrite H2. discriminate.
  - intros _. right. exists d, d0. split; auto. unfold lookup. now rewrite H2.
  - unfold lookup. rewrite H2. discriminate.
  - intros _. left. unfold lookup. now rewrite H2.
Qed.

Lemma preserves_mkdir_exist_ok Q p :
  stable Q (Some (Dir true [])) -> preserves Q (mkdir_exist_ok p).
Proof.
  intros Hst s r s' E H. unfold mkdir_exist_ok in E.
  destruct (os_mkdir p s) as [[[]|e] s1] eqn:E1.
  - inversion E; subst. apply (preserves_os_mkdir Q _ Hst _ _ _ E1 H).
  - assert (Q (fs s1)) by (apply (preserves_os_mkdir Q _ Hst _ _ _ E1 H)).
    destruct e as [[]| | | | | |]; try (inversion E; subst; auto; fail);
      destruct (path_is_dir (fs s1) p); inversion E; subst; auto.
Qed.

Lemma preserves_mkdir_parents Q p :
  stable Q (Some (Dir true [])) -> preserves Q (mkdir_parents p).
Proof.
  intros Hst. unfold mkdir_parents. generalize (rev p). clear p.
  induction l as [|c rp IH]; intros s r s' E H.
  - cbn [mkdir_parents_rev] in E.
    destruct (os_mkdir (rev []) s) as [[[]|e] s1] eqn:E1.
    + inversion E; subst. apply (preserves_os_mkdir Q _ Hst _ _ _ E1 H).
    + assert (Q (fs s1)) by (apply (preserves_os_mkdir Q _ Hst _ _ _ E1 H)).
      destruct e as [[]| | | | | |]; try (inversion E; subst; auto; fail);
        destruct (path_is_dir (fs s1) (rev [])); inversion E; subst; auto.
  - cbn [mkdir_parents_rev] in E.
    destruct (os_mkdir (rev (c :: rp)) s) as [[[]|e] s1] eqn:E1.
    + inversion E; subst. apply (preserves_os_mkdir Q _ Hst _ _ _ E1 H).
    + assert (Q (fs s1)) by (apply (preserves_os_mkdir Q _ Hst _ _ _ E1 H)).
      destruct e as [[]| | | | | |]; try (inversion E; subst; auto; fail);
        try (destruct (path_is_dir (fs s1) (rev (c :: rp))); inversion E; subst; auto; fail).
      apply (preserves_bind _ _ Q _ _ IH
               (fun _ => preserves_mkdir_exist_ok Q _ Hst) s1 r s' E). assumption.
Qed.

Lemma preserves_makedirs Q p :
  stable Q (Some (Dir true [])) -> preserves Q (makedirs p).
Proof.
  intros Hst. unfold makedirs. generalize (rev p). clear p.
  induction l as [|c rp IH]; cbn [makedirs_rev].
  - now apply preserves_os_mkdir.
  - apply preserves_bind; [apply preserves_read_fs|]. intros b.
    apply preserves_bind; [|intros _; now apply preserves_os_mkdir].
    destruct b; [apply preserves_ret|].
    intros s r s' E H.
    destruct (makedirs_rev rp s) as [[[]|e] s1] eqn:E1.
    + inversion E; subst. apply (IH _ _ _ E1 H).
    + assert (Q (fs s1)) by (apply (IH _ _ _ E1 H)).
      destruct e as [[]| | | | | |]; inversion E; subst; auto.
Qed.

Lemma preserves_zf_extract Q a member tgt :
  stable Q (Some (Dir true [])) -> (forall d, stable Q (Some (File d))) ->
  preserves Q (zf_extract a member tgt).
Proof.
  intros Hd Hf. unfold zf_extract. destruct (getinfo a member); [|apply preserves_raise].
  apply preserves_bind; [apply preserves_read_fs|]. intros b.
  apply preserves_bind.
  - apply preserves_if; [apply preserves_ret|now apply preserves_makedirs].
  - intros _. destruct (ends_with_slash member).
    + apply preserves_bind; [apply preserves_read_fs|]. intros b'.
      apply preserves_if; [apply preserves_ret|now apply preserves_os_mkdir].
    + apply preserves_bind; [now apply preserves_open_write|]. intros _. apply preserves_ret.
Qed.

Lemma preserves_restore_link Q tgt item :
  stable Q (Some (Dir true [])) -> stable Q None -> (forall t, stable Q (Some (Link t))) ->
  preserves Q (restore_link tgt item).
Proof.
  intros Hd Hu Hl. unfold restore_link. destruct item as [k v].
  apply preserves_bind; [now apply preserves_mkdir_parents|]. intros _.
  apply preserves_bind; [apply preserves_read_fs|]. intros b.
  apply preserves_bind.
  - apply preserves_if; [now apply preserves_os_unlink|apply preserves_ret].
  - intros _. destruct v; [|apply preserves_raise].
    apply preserves_try; [now apply preserves_os_symlink|]. intros e. apply preserves_logger.
Qed.

(** Two things kept: an entry that is there when directories and files
    are only added, and the absence of a regular file at a place when
    no file is written. *)
Lemma stable_entry q k v :
  (forall d, k <> KFile d) \/ (forall d, v <> Some (File d)) ->
  v <> None -> leaf v -> stable (fun n => lookup n q = Some k) v.
Proof.
  intros Hk Hv Hleaf n loc Hnd Hold H.
  rewrite lookup_update_diff; auto.
  intros ->. destruct (Hold Hv) as [Hn|(d & d' & -> & Hl)]; [congruence|].
  rewrite Hl in H. inversion H; subst. destruct Hk as [Hk|Hk]; [eapply Hk|eapply Hk]; eauto.
Qed.

Lemma stable_no_file X v :
  (forall d, v <> Some (File d)) -> leaf v -> stable (no_file X) v.
Proof.
  intros Hv Hleaf n loc Hnd _ H d.
  destruct (path_eq_dec X loc) as [->|Hne].
  - destruct (rev_case _ loc) as [->|(p & c & ->)].
    + apply H.
    + destruct (lookup n p) as [[| |]|] eqn:Ep;
        try (rewrite update_noop by (rewrite Ep; discriminate); apply H).
      rewrite lookup_update_same by auto. destruct v as [[| |]|]; simpl; try discriminate.
      now destruct (Hv data).
  - rewrite lookup_update_diff; auto.
Qed.

Lemma preserves_read_file Q p : preserves Q (read_file p).
Proof.
  intros s r s' E H. unfold read_file in E.
  destruct (locate true (fs s) p) as [e|[loc [[d|t|r0 es]|]]]; inversion E; subst; auto.
Qed.

(** [Path.resolve] gives the real path or raises [RuntimeError]; the
    state is as before. *)
Lemma resolve_outcome p s :
  resolve p s = (Ok (realpath (fs s) p), s) \/ resolve p s = (Raise RuntimeError, s).
Proof. unfold resolve. destruct (resolves (fs s) p); auto. Qed.

Lemma preserves_resolve Q p : preserves Q (resolve p).
Proof.
  intros s r s' E H. destruct (resolve_outcome p s) as [E'|E'];
    rewrite E' in E; inversion E; subst; auto.
Qed.

Lemma stable_dir_entry q v : leaf v -> v <> None -> stable (fun n => lookup n q = Some KDir) v.
Proof. intros. apply stable_entry; auto. left. discriminate. Qed.

Lemma stable_entry_mkdir q k : stable (fun n => lookup n q = Some k) (Some (Dir true [])).
Proof. apply stable_entry; [right|discriminate|reflexivity]. discriminate. Qed.

(** C7.  A container without the entry [links.json]: the unpacking
    raises whatever the target directory is, and the process that was
    given the container as its source ends with status 1. *)
Theorem missing_manifest_fails {C : Codecs} (s : state) (cwd : path)
        (source : string) (bytes : string) (a : archive) :
  tame (fs s) (Path cwd source) ->
  lookup (fs s) (Path cwd source) = Some (KFile bytes) ->
  zip_decode bytes = Some a ->
  ~ In "links.json" (map fst a) ->
  (forall target_dir, exists e s',
      unpackage_directory (Path cwd source) target_dir s = (Raise e, s')) /\
  (forall target, fst (main cwd source target s) = 1).
Proof.
  intros Ht Hk Hdec Hno. set (zip := Path cwd source) in *.
  assert (Hnl : not_link (fs s) zip) by (intros t; rewrite Hk; discriminate).
  assert (Hne : zip <> []).
  { intros E. rewrite E in *. destruct Ht as (_ & Hroot & _). congruence. }
  assert (Hun : forall target_dir, exists e s',
               unpackage_directory zip target_dir s = (Raise e, s')).
  { intros target_dir. unfold unpackage_directory.
    unfold bind at 1. rewrite (resolve_tame s zip Ht Hnl).
    unfold bind at 1.
    destruct (resolve_outcome target_dir s) as [-> | ->]; [|eauto].
    unfold bind at 1.
    destruct (mkdir_parents (realpath (fs s) target_dir) s) as [[[]|e] s1] eqn:E1; [|eauto].
    assert (Hk1 : lookup (fs s1) zip = Some (KFile bytes)).
    { apply (preserves_mkdir_parents _ _ (stable_entry_mkdir zip _) _ _ _ E1 Hk). }
    assert (Hp1 : lookup (fs s1) (parent zip) = Some KDir).
    { apply (preserves_mkdir_parents _ _ (stable_entry_mkdir (parent zip) _) _ _ _ E1).
      apply lookup_parent_dir; auto. congruence. }
    assert (Ht1 : tame (fs s1) zip) by (apply tame_child; auto; apply Ht).
    unfold bind at 1. rewrite (read_file_tame s1 zip bytes Ht1 Hk1), Hdec.
    apply getinfo_none in Hno. rewrite Hno. unfold raise. eauto. }
  split; [exact Hun|].
  intros target. unfold main. fold zip.
  rewrite path_is_dir_tame, Hk by auto. cbn [andb].
  destruct (String.eqb (suffix (components source)) ".zip" && _); [|reflexivity].
  destruct (Hun (Path cwd target)) as (e & s' & ->). reflexivity.
Qed.

(** C10.  Once the members of the container are extracted, a regular
    file [links.json] at the top of the target directory is deleted,
    also one that was there before and is no member of the container:
    the file is unlinked and the run goes on with the links of the
    manifest from the state without it; and however the run ends, with
    or without an exception, no regular file [links.json] is at the top
    of the target. *)
Theorem manifest_file_removed {C : Codecs} (s : state) (zip tgt : path)
        (bytes : string) (a : archive) (data : string) (links : json)
        (s1 s2 : state) :
  tame (fs s) tgt ->
  lookup (fs s) tgt = None \/ lookup (fs s) tgt = Some KDir ->
  tame (fs s) zip ->
  lookup (fs s) zip = Some (KFile bytes) ->
  zip_decode bytes = Some a ->
  getinfo a "links.json" = Some data ->
  json_loads data = Some links ->
  path_fits (tgt ++ ["links.json"]) = true ->
  mkdir_parents tgt s = (Ok tt, s1) ->
  for_each (map fst a)
    (fun member =>
       if String.eqb member "links.json" then ret tt else zf_extract a member tgt) s1
  = (Ok tt, s2) ->
  (forall r s',
      unpackage_directory zip tgt s = (r, s') ->
      forall d, lookup (fs s') (tgt ++ ["links.json"]) <> Some (KFile d))
  /\ (forall d,
         lookup (fs s2) (tgt ++ ["links.json"]) = Some (KFile d) ->
         unpackage_directory zip tgt s
         = match links with
           | JNotDict => raise AttributeError
           | JDict items => for_each items (restore_link tgt)
           end (mkState (update (tgt ++ ["links.json"]) None (fs s2)) (log s2) (zf s2))).
Proof.
  intros Ht Hk Htz Hz Hdec Hget Hjson _ E1 E2.
  assert (Hnlt : not_link (fs s) tgt).
  { intros t. destruct Hk as [H|H]; rewrite H; discriminate. }
  assert (Hnlz : not_link (fs s) zip) by (intros t; rewrite Hz; discriminate).
  assert (Hzne : zip <> []).
  { intros E. rewrite E in *. destruct Htz as (_ & Hroot & _). congruence. }
  set (L := tgt ++ ["links.json"]).
  set (Q := fun n => lookup n tgt = Some KDir).
  assert (Q1 : Q (fs s1)).
  { destruct (mkdir_parents_spec tgt s Ht Hk) as (s1' & E1' & Hd1).
    rewrite E1 in E1'. inversion E1'; subst s1'.
    unfold Q. now rewrite Hd1, is_prefix_refl. }
  assert (Hz1 : lookup (fs s1) zip = Some (KFile bytes)).
  { apply (preserves_mkdir_parents _ _ (stable_entry_mkdir zip _) _ _ _ E1 Hz). }
  assert (Hp1 : lookup (fs s1) (parent zip) = Some KDir).
  { apply (preserves_mkdir_parents _ _ (stable_entry_mkdir (parent zip) _) _ _ _ E1).
    apply lookup_parent_dir; auto. congruence. }
  assert (Htz1 : tame (fs s1) zip) by (apply tame_child; auto; apply Htz).
  assert (Q2 : Q (fs s2)).
  { refine (preserves_for_each _ Q _ _ _ _ _ _ E2 Q1). intros member.
    apply preserves_if; [apply preserves_ret|].
    apply preserves_zf_extract; [|intros d0]; apply stable_dir_entry;
      try reflexivity; discriminate. }
  assert (HtL : tame (fs s2) L).
  { apply tame_parent; [|exact Q2]. intros Hin. apply in_app_or in Hin.
    destruct Hin as [Hin|[Hin|[]]]; [|discriminate]. now apply Ht. }
  assert (HLne : L <> []) by (unfold L; destruct tgt; discriminate).
  assert (Erun : unpackage_directory zip tgt s
                 = (present <- read_fs (fun f => path_exists f L) ;;
                    (if present then os_unlink L else ret tt) ;;
                    match links with
                    | JNotDict => raise AttributeError
                    | JDict items => for_each items (restore_link tgt)
                    end) s2).
  { unfold unpackage_directory.
    unfold bind at 1. rewrite (resolve_tame s zip Htz Hnlz).
    unfold bind at 1. rewrite (resolve_tame s tgt Ht Hnlt).
    unfold bind at 1. rewrite E1.
    unfold bind at 1. rewrite (read_file_tame s1 zip bytes Htz1 Hz1).
    rewrite Hdec, Hget, Hjson.
    unfold bind at 1. rewrite E2.
    rewrite joinpath_name by reflexivity. reflexivity. }
  assert (Hrest : forall s3 r s',
             no_file L (fs s3) ->
             match links with
             | JNotDict => raise AttributeError
             | JDict items => for_each items (restore_link tgt)
             end s3 = (r, s') ->
             no_file L (fs s')).
  { intros s3 r s' N3 E. destruct links as [items|]; [|inversion E; subst; exact N3].
    refine (preserves_for_each _ (no_file L) _ _ _ _ _ _ E N3). intros item.
    apply preserves_restore_link; [|  |intros t]; apply stable_no_file;
      try discriminate; reflexivity. }
  assert (Hunlink : forall x, get (fs s2) L = Some x -> (forall r0 es0, x <> Dir r0 es0) ->
             os_unlink L s2 = (Ok tt, mkState (update L None (fs s2)) (log s2) (zf s2))
             /\ no_file L (update L None (fs s2))).
  { intros x Hx Hnd. split.
    - unfold os_unlink. rewrite (locate_tame (fs s2) false L HtL HLne) by discriminate.
      unfold L at 1. rewrite parent_snoc. unfold Q in Q2. rewrite Q2, Hx.
      destruct x as [d0|t|r0 es0]; try reflexivity. now destruct (Hnd r0 es0).
    - intros d. rewrite lookup_write.
      + destruct (path_eq_dec L L); [discriminate|congruence].
      + exact HLne.
      + unfold L. rewrite parent_snoc. exact Q2.
      + exact I.
      + unfold lookup. rewrite Hx. destruct x as [d0|t0|r0 es0]; try discriminate. now destruct (Hnd r0 es0). }
  split.
  - intros r s' E. rewrite Erun in E.
    unfold bind at 1 in E. unfold read_fs at 1 in E. unfold bind at 1 in E.
    destruct (path_exists (fs s2) L) eqn:Eex; cbv beta iota in E.
    + destruct (get (fs s2) L) as [x|] eqn:Eg.
      * destruct x as [d0|t|r0 es0].
        -- destruct (Hunlink (File d0) eq_refl ltac:(discriminate)) as [Eu N].
           rewrite Eu in E.
           apply (Hrest (mkState (update L None (fs s2)) (log s2) (zf s2)) _ _ N E).
        -- destruct (Hunlink (Link t) eq_refl ltac:(discriminate)) as [Eu N].
           rewrite Eu in E.
           apply (Hrest (mkState (update L None (fs s2)) (log s2) (zf s2)) _ _ N E).
        -- unfold os_unlink in E.
           rewrite (locate_tame (fs s2) false L HtL HLne) in E by discriminate.
           unfold L in E at 1. rewrite parent_snoc in E. unfold Q in Q2.
           rewrite Q2, Eg in E. inversion E; subst.
           intros d. unfold lookup. rewrite Eg. discriminate.
      * unfold os_unlink in E.
        rewrite (locate_tame (fs s2) false L HtL HLne) in E by discriminate.
        unfold L in E at 1. rewrite parent_snoc in E. unfold Q in Q2.
        rewrite Q2, Eg in E. inversion E; subst.
        intros d. unfold lookup. rewrite Eg. discriminate.
    + apply (Hrest s2 r s'); [|exact E].
      intros d Hd. rewrite path_exists_tame in Eex; auto.
      * rewrite Hd in Eex. discriminate.
      * intros t. rewrite Hd. discriminate.
  - intros d Hd. rewrite Erun.
    unfold bind at 1. unfold read_fs at 1. unfold bind at 1.
    rewrite path_exists_tame, Hd by (auto; intros t; rewrite Hd; discriminate).
    destruct (Hunlink (File d) (lookup_get_file _ _ _ Hd) ltac:(discriminate)) as [Eu _].
    now rewrite Eu.
Qed.

(* ----------------------------------------------------------------- *)
(** ** Restoring links, scanning, and the command line *)

Ltac no_dotdot :=
  let H := fresh in
  intros H; simpl in H; repeat (destruct H as [H|H]; [discriminate|]); exact H.

Ltac ready :=
  repeat (split; [first [reflexivity | no_dotdot | discriminate | (left; reflexivity)]|]);
  first [reflexivity | no_dotdot | discriminate | (left; reflexivity)].

(** C2.  Packing an empty directory: the container holds the entry
    [links.json] twice, the one written first and the one the walk
    finds in the source directory, where the manifest was put. *)
Theorem empty_directory_manifest_twice (C : Codecs) :
  package_directory Demo.src Demo.zip (Demo.st [("src", Dir true [])])
  = (Ok tt,
     Demo.st [("src", Dir true []);
              ("out.zip",
               File (zip_encode [("links.json", json_dumps []);
                                 ("links.json", json_dumps [])]))]).
Proof. reflexivity. Qed.




(** C4 as stated fails: a directory at the place of the first link of
    the manifest makes the whole unpacking raise; nothing is logged, and
    the second link, [b], is not restored. *)
Lemma occupant_aborts_restore :
  @unpackage_directory Sample.codecs Demo.zip Demo.dst
    (Demo.st [("dst", Dir true [("a", Dir true [])]);
              ("out.zip", Demo.container [("a", "x"); ("b", "y")] [])])
  = (Raise (OSError EISDIR),
     Demo.st [("dst", Dir true [("a", Dir true [])]);
              ("out.zip", Demo.container [("a", "x"); ("b", "y")] [])]).
Proof. reflexivity. Qed.

(** C4, amended.  When [os.symlink] raises an [OSError] for an entry,
    the error is logged and the loop goes on with the entries that
    follow. *)
Theorem symlink_failure_skipped (target_dir : path) (link_path link_target : string)
        (rest : list (string * jvalue)) (s s1 s2 : state) (e : errno) :
  (mkdir_parents (parent (joinpath target_dir link_path)) ;;
   occupied <- read_fs (fun f => path_exists f (joinpath target_dir link_path)
                                 || path_is_symlink f (joinpath target_dir link_path)) ;;
   (if occupied then os_unlink (joinpath target_dir link_path) else ret tt)) s
  = (Ok tt, s1) ->
  os_symlink link_target (joinpath target_dir link_path) s1 = (Raise (OSError e), s2) ->
  for_each ((link_path, JStr link_target) :: rest) (restore_link target_dir) s
  = for_each rest (restore_link target_dir)
             (mkState (fs s2) (log s2 ++ [ErrRestore link_path link_target e]) (zf s2)).
Proof.
  intros Hpre Hsym. cbn [for_each]. unfold bind at 1. unfold restore_link.
  unfold bind in Hpre. unfold bind.
  destruct (mkdir_parents (parent (joinpath target_dir link_path)) s) as [[[]|e0] s0];
    [|discriminate].
  destruct (read_fs _ s0) as [[b|e0] s0'] eqn:Eb; [|discriminate].
  destruct ((if b then os_unlink (joinpath target_dir link_path) else ret tt) s0')
    as [[[]|e0] s0''] eqn:Eu; [|discriminate].
  inversion Hpre; subst. unfold try_OSError. rewrite Hsym. reflexivity.
Qed.

Lemma symlink_failure_skipped_witness :
  for_each [("a", JStr ""); ("b", JStr "y")] (restore_link Demo.dst)
           (Demo.st [("dst", Dir true [])])
  = for_each [("b", JStr "y")] (restore_link Demo.dst)
             (mkState (Demo.root [("dst", Dir true [])]) [ErrRestore "a" "" ENOENT] []).
Proof.
  apply (symlink_failure_skipped Demo.dst "a" "" [("b", JStr "y")]
           (Demo.st [("dst", Dir true [])]) (Demo.st [("dst", Dir true [])])
           (Demo.st [("dst", Dir true [])]) ENOENT); reflexivity.
Defined.







(** C8 as stated fails: a source that does not exist, named with the
    suffix [.zip], is taken for a container; the process exits with
    status 1, and the target directory has been created. *)
Lemma unrecognized_container_side_effect :
  @main Sample.codecs Demo.cwd "nothere.zip" "newdir" (Demo.st [("src", Demo.tree)])
  = (1, mkState (Demo.root [("src", Demo.tree); ("newdir", Dir true [])])
                [ErrTop (OSError ENOENT)] []).
Proof. reflexivity. Qed.

Lemma mkdir_parents_existing (p : path) (s : state) :
  tame (fs s) p -> lookup (fs s) p = Some KDir -> mkdir_parents p s = (Ok tt, s).
Proof.
  intros Ht Hd.
  assert (Hnl : not_link (fs s) p) by (intros t; rewrite Hd; discriminate).
  destruct p as [|c p _] using rev_ind.
  - unfold mkdir_parents. cbn [rev mkdir_parents_rev]. unfold os_mkdir.
    rewrite locate_root. cbn [fst snd].
    rewrite path_is_dir_tame, Hd; auto.
  - rewrite mkdir_parents_snoc, (os_mkdir_exists s _ KDir Ht Hd).
    rewrite path_is_dir_tame, Hd; auto.
Qed.

(** Unpacking from a source that is missing or a directory into a
    directory that exists raises, and nothing has changed. *)
Lemma unpackage_directory_no_container {C : Codecs} (s : state) (zip tgt : path) :
  tame (fs s) zip -> tame (fs s) tgt ->
  lookup (fs s) zip = None \/ lookup (fs s) zip = Some KDir ->
  lookup (fs s) tgt = Some KDir ->
  exists e, unpackage_directory zip tgt s = (Raise e, s).
Proof.
  intros Htz Ht Hz Hd.
  assert (Hnlz : not_link (fs s) zip).
  { intros t. destruct Hz as [H|H]; rewrite H; discriminate. }
  assert (Hnlt : not_link (fs s) tgt) by (intros t; rewrite Hd; discriminate).
  unfold unpackage_directory.
  unfold bind at 1. rewrite (resolve_tame s zip Htz Hnlz).
  unfold bind at 1. rewrite (resolve_tame s tgt Ht Hnlt).
  unfold bind at 1. rewrite (mkdir_parents_existing tgt s Ht Hd).
  unfold bind at 1. unfold read_file.
  destruct (path_eq_dec zip []) as [->|Hne].
  - rewrite locate_root.
    destruct (fs s); eauto; exfalso; destruct Hz as [Hz|Hz]; cbv in Hz; discriminate.
  - rewrite (locate_tame (fs s) true zip Htz Hne) by (intros _; exact Hnlz).
    destruct Hz as [Hz|Hz].
    + rewrite (lookup_get_none _ _ Hz).
      destruct (lookup (fs s) (parent zip)) as [[| |]|]; eauto.
    + rewrite lookup_parent_dir by (auto; congruence).
      apply lookup_dir in Hz. destruct Hz as (r & es & ->). eauto.
Qed.

(** C8, amended.  If the arguments are invalid (the source is neither a
    directory nor a regular file named with the suffix [.zip], or it is
    a directory and the target has not the suffix [.zip], or it is such
    a file and the target exists and is not a directory), then, provided
    the target exists or the source is not named with the suffix
    [.zip], the process exits with status 1 and the file system is as
    it was. *)
Theorem invalid_arguments_rejected {C : Codecs} (cwd : path) (source target : string)
        (s : state) :
  tame (fs s) (Path cwd source) -> not_link (fs s) (Path cwd source) ->
  tame (fs s) (Path cwd target) -> not_link (fs s) (Path cwd target) ->
  invalid_arguments (fs s) cwd source target ->
  lookup (fs s) (Path cwd target) <> None \/ suffix (components source) <> ".zip" ->
  fst (main cwd source target s) = 1 /\ fs (snd (main cwd source target s)) = fs s.
Proof.
  intros HtS HnS HtT HnT Hinv Hprov.
  assert (Hun : (lookup (fs s) (Path cwd source) = None
                 \/ lookup (fs s) (Path cwd source) = Some KDir) ->
                lookup (fs s) (Path cwd target) = Some KDir ->
                exists e, unpackage_directory (Path cwd source) (Path cwd target) s
                          = (Raise e, s)).
  { intros. now apply unpackage_directory_no_container. }
  unfold main. cbv zeta.
  rewrite (path_is_dir_tame _ _ HtS HnS), (path_is_dir_tame _ _ HtT HnT),
    (path_exists_tame _ _ HtT HnT).
  unfold invalid_arguments in Hinv. unfold not_link in HnS, HnT.
  destruct (String.eqb_spec (suffix (components source)) ".zip") as [Hzs|Hzs];
    destruct (String.eqb_spec (suffix (components target)) ".zip") as [Hzt|Hzt];
    destruct (lookup (fs s) (Path cwd source)) as [[d|t|]|];
    try (exfalso; now apply (HnS t));
    destruct (lookup (fs s) (Path cwd target)) as [[d'|t'|]|];
    try (exfalso; now apply (HnT t'));
    cbn [andb orb negb];
    try (split; reflexivity);
    try (destruct Hun as [e ->]; [auto|reflexivity|split; reflexivity]);
    exfalso;
    destruct Hinv as [[H1 H2]|[[H1 H2]|[[[d0 H1] H2] [H3 H4]]]];
    try congruence;
    try (apply H2; split; [eexists; reflexivity|assumption]);
    destruct Hprov; congruence.
Qed.

Lemma invalid_arguments_rejected_witness :
  fst (@main Sample.codecs Demo.cwd "nothere.zip" "src" (Demo.st [("src", Demo.tree)])) = 1
  /\ fs (snd (@main Sample.codecs Demo.cwd "nothere.zip" "src"
               (Demo.st [("src", Demo.tree)])))
     = Demo.root [("src", Demo.tree)].
Proof.
  apply (@invalid_arguments_rejected Sample.codecs Demo.cwd "nothere.zip" "src"
           (Demo.st [("src", Demo.tree)])).
  - apply tame_child; [discriminate|no_dotdot|reflexivity].
  - intros t. discriminate.
  - apply tame_child; [discriminate|no_dotdot|reflexivity].
  - intros t. discriminate.
  - left. split; [discriminate|]. intros [[d H] _]. discriminate.
  - left. discriminate.
Defined.

(** C9.  Packing into a directory that does not exist raises, and the
    file [links.json] written into the source directory is still
    there. *)
Theorem temporary_manifest_left_behind (C : Codecs) :
  package_directory Demo.src ["home"; "missing"; "out.zip"] (Demo.st [("src", Dir true [])])
  = (Raise (OSError ENOENT),
     Demo.st [("src", Dir true [("links.json", File (json_dumps []))])]).
Proof. reflexivity. Qed.


Lemma missing_manifest_fails_witness :
  (forall target_dir, exists e s',
      @unpackage_directory Sample.codecs (Path Demo.cwd "out.zip") target_dir
        (Demo.st [("out.zip", File (Sample.tagged "Z" [("a.txt", "hello")]))])
      = (Raise e, s'))
  /\ (forall target,
         fst (@main Sample.codecs Demo.cwd "out.zip" target
                (Demo.st [("out.zip", File (Sample.tagged "Z" [("a.txt", "hello")]))]))
         = 1).
Proof.
  apply (@missing_manifest_fails Sample.codecs
           (Demo.st [("out.zip", File (Sample.tagged "Z" [("a.txt", "hello")]))])
           Demo.cwd "out.zip" (Sample.tagged "Z" [("a.txt", "hello")])
           [("a.txt", "hello")]).
  - apply tame_child; [discriminate|no_dotdot|reflexivity].
  - reflexivity.
  - reflexivity.
  - intros [H|[]]. discriminate.
Defined.

Lemma manifest_file_removed_witness :
  lookup (Demo.root [("dst", Dir true [("links.json", File "mine")]);
                     ("out.zip", Demo.container [] [])])
         (Demo.dst ++ ["links.json"])
  = Some (KFile "mine")
  /\ (forall r s',
         @unpackage_directory Sample.codecs Demo.zip Demo.dst
           (Demo.st [("dst", Dir true [("links.json", File "mine")]);
                     ("out.zip", Demo.container [] [])])
         = (r, s') ->
         forall d, lookup (fs s') (Demo.dst ++ ["links.json"]) <> Some (KFile d))
  /\ @unpackage_directory Sample.codecs Demo.zip Demo.dst
       (Demo.st [("dst", Dir true [("links.json", File "mine")]);
                 ("out.zip", Demo.container [] [])])
     = (Ok tt, Demo.st [("dst", Dir true []); ("out.zip", Demo.container [] [])]).
Proof.
  destruct (@manifest_file_removed Sample.codecs
              (Demo.st [("dst", Dir true [("links.json", File "mine")]);
                        ("out.zip", Demo.container [] [])])
              Demo.zip Demo.dst
              (Sample.tagged "Z" [("links.json", Sample.tagged "J" [])])
              [("links.json", Sample.tagged "J" [])]
              (Sample.tagged "J" []) (JDict [])
              (Demo.st [("dst", Dir true [("links.json", File "mine")]);
                        ("out.zip", Demo.container [] [])])
              (Demo.st [("dst", Dir true [("links.json", File "mine")]);
                        ("out.zip", Demo.container [] [])]))
    as [H1 H2].
  - apply tame_child; [discriminate|no_dotdot|reflexivity].
  - right. reflexivity.
  - apply tame_child; [discriminate|no_dotdot|reflexivity].
  - reflexivity.
  - reflexivity.
  - reflexivity.
  - reflexivity.
  - reflexivity.
  - reflexivity.
  - reflexivity.
  - split; [reflexivity|]. split; [exact H1|].
    rewrite (H2 "mine" eq_refl). reflexivity.
Defined.

(* ================================================================= *)
(** * Part III: further properties of the program *)

(* ----------------------------------------------------------------- *)
(** ** [get_relative_link_target] *)

(** [os.readlink] gives the target or raises an [OSError]; the state is
    as before. *)
Lemma os_readlink_outcome (p : path) (s : state) :
  (exists t, os_readlink p s = (Ok t, s)) \/
  (exists e, os_readlink p s = (Raise (OSError e), s)).
Proof.
  unfold os_readlink.
  destruct (locate false (fs s) p) as [e|[loc [[d|t|r es]|]]]; eauto.
Qed.

(** What [readlink] says of a path that is no link. *)
Lemma os_readlink_not_link (s : state) (p : path) :
  tame (fs s) p -> not_link (fs s) p ->
  os_readlink p s
  = (Raise (OSError (match lookup (fs s) p with Some _ => EINVAL | None => ENOENT end)), s).
Proof.
  intros Ht Hnl. unfold os_readlink.
  destruct (rev_case _ p) as [->|(q & c & ->)].
  - rewrite locate_root. destruct Ht as (_ & Hroot & _). rewrite Hroot.
    destruct (fs s); try reflexivity. unfold lookup in Hroot. discriminate.
  - rewrite (locate_tame (fs s) false (q ++ [c]) Ht);
      [|destruct q; discriminate|discriminate].
    rewrite parent_snoc.
    destruct (lookup (fs s) q) as [[d|t|]|] eqn:Eq;
      try (rewrite (lookup_below_nondir (fs s) q [c]) by (try discriminate; rewrite Eq; discriminate);
           reflexivity).
    unfold lookup. destruct (get (fs s) (q ++ [c])) as [[d|t|r es]|] eqn:Eg; try reflexivity.
    exfalso. apply (Hnl t). unfold lookup. now rewrite Eg.
Qed.





(* ----------------------------------------------------------------- *)
(** ** What [package_directory] writes *)







(** A path below one that is missing and tame is tame. *)
Lemma tame_below_missing (f : node) (p : path) (c : string) :
  tame f p -> lookup f p = None -> c <> ".." -> tame f (p ++ [c]).
Proof.
  intros Ht Hn Hc. apply tame_intro.
  - intros Hin. apply in_app_or in Hin. destruct Hin as [Hin|[Hin|[]]]; [|congruence].
    now apply Ht.
  - apply Ht.
  - intros q r0 E Hq Hr0. symmetry in E. apply app_eq_cases in E.
    destruct E as [(t & -> & E)|(t & Hne & -> & E)].
    + destruct t as [|x t].
      * rewrite app_nil_r in *. now left.
      * apply (tame_above f q (x :: t)); [exact Ht|discriminate].
    + destruct t as [|x t]; [congruence|]. destruct t; [|destruct t; discriminate].
      simpl in E. inversion E. subst. congruence.
Qed.

(** X8.  Packing a source directory that does not exist raises
    [ENOENT], from the attempt to write [links.json], before the
    container is opened: the state is as before, and nothing is at the
    place of the container that was not there.  The path of the
    container is one that resolves without a loop of links. *)
Theorem package_missing_source {C : Codecs} (s : state) (src zip : path) :
  tame (fs s) src -> lookup (fs s) src = None ->
  path_fits (src ++ ["links.json"]) = true ->
  resolves (fs s) zip = true ->
  package_directory src zip s = (Raise (OSError ENOENT), s).
Proof.
  intros Ht Hn _ Hzip.
  assert (Hnl : not_link (fs s) src) by (intros t; rewrite Hn; discriminate).
  assert (Hne : src <> []).
  { intros E. rewrite E in *. destruct Ht as (_ & Hroot & _). congruence. }
  assert (Hwalk : os_walk (fs s) src = []).
  { unfold os_walk. rewrite locate_tame by auto.
    rewrite (lookup_get_none _ _ Hn). now destruct (lookup (fs s) (parent src)) as [[| |]|]. }
  unfold package_directory.
  unfold bind at 1. rewrite (resolve_tame s src Ht Hnl).
  unfold bind at 1. unfold resolve at 1. rewrite Hzip.
  unfold bind at 1. unfold read_fs at 1. rewrite Hwalk.
  unfold bind at 1. cbn [for_fold]. unfold ret at 1.
  rewrite joinpath_name by reflexivity.
  unfold bind at 1. unfold open_write.
  rewrite locate_tame.
  - rewrite parent_snoc, Hn. reflexivity.
  - apply tame_below_missing; auto. discriminate.
  - destruct src; discriminate.
  - intros _ t. rewrite (lookup_below_nondir (fs s) src ["links.json"]);
      [discriminate|rewrite Hn; discriminate|discriminate].
Qed.

Lemma package_missing_source_witness :
  @package_directory Sample.codecs ["home"; "nothere"] Demo.zip (Demo.st [])
  = (Raise (OSError ENOENT), Demo.st []).
Proof.
  apply (@package_missing_source Sample.codecs (Demo.st []) ["home"; "nothere"] Demo.zip).
  - apply tame_child; [discriminate|no_dotdot|reflexivity].
  - reflexivity.
  - reflexivity.
  - reflexivity.
Defined.

(* ----------------------------------------------------------------- *)
(** ** Directories are kept; packing from the command line *)

(** A directory stays where it is when something is written or removed
    at a place that is not a directory. *)
Lemma stable_directory (q : path) (v : option node) :
  leaf v -> stable (fun n => lookup n q = Some KDir) v.
Proof.
  intros Hleaf n loc Hnd _ H.
  rewrite lookup_update_diff; auto. intros ->. congruence.
Qed.

(** Computations that do not write to the file system keep every
    property of it. *)
Lemma preserves_for_fold (A B : Type) Q (body : A -> B -> M B) (l : list A) :
  (forall x b, preserves Q (body x b)) -> forall b, preserves Q (for_fold l body b).
Proof.
  intros Hb. induction l as [|x l IH]; intros b; simpl.
  - apply preserves_ret.
  - apply preserves_bind; auto.
Qed.

Lemma preserves_os_readlink Q p : preserves Q (os_readlink p).
Proof.
  intros s r s' E H. destruct (os_readlink_outcome p s) as [[t E']|[e E']];
    rewrite E' in E; inversion E; subst; auto.
Qed.

Lemma preserves_zf_write Q p arcname : preserves Q (zf_write p arcname).
Proof.
  intros s r s' E H. unfold zf_write in E.
  destruct (locate true (fs s) p) as [e|[loc [[d|t|r0 es]|]]]; inversion E; subst; auto.
Qed.

Lemma preserves_get_relative_link_target Q link_path source_dir :
  preserves Q (get_relative_link_target link_path source_dir).
Proof.
  unfold get_relative_link_target.
  apply preserves_bind; [apply preserves_resolve|]. intros sd.
  apply preserves_try.
  - apply preserves_bind; [apply preserves_os_readlink|]. intros t.
    destruct (negb (isabs t)); [apply preserves_ret|].
    apply preserves_bind; [apply preserves_resolve|]. intros tp.
    apply preserves_bind; [apply preserves_read_fs|]. intros b.
    apply preserves_bind; [|intros _; apply preserves_ret].
    apply preserves_if; [apply preserves_ret|apply preserves_logger].
  - intros e. apply preserves_bind; [apply preserves_logger|]. intros _. apply preserves_ret.
Qed.

Lemma preserves_scan_item Q source_dir root name links :
  preserves Q (scan_item source_dir root name links).
Proof.
  unfold scan_item. destruct (relative_to _ _); [|apply preserves_raise].
  apply preserves_bind; [apply preserves_read_fs|]. intros b.
  destruct b; [|apply preserves_ret].
  apply preserves_bind; [apply preserves_get_relative_link_target|]. intros [t|].
  - destruct (String.eqb t ""); apply preserves_ret.
  - apply preserves_ret.
Qed.

Lemma preserves_add_file Q source_dir root file :
  preserves Q (add_file source_dir root file).
Proof.
  unfold add_file. apply preserves_bind; [apply preserves_read_fs|]. intros b.
  destruct b; [apply preserves_ret|].
  destruct (relative_to _ _); [apply preserves_zf_write|apply preserves_raise].
Qed.

(** The entry at the place that was just written, or that a write did
    not reach. *)
Lemma lookup_update_self (loc : path) (v : option node) (n : node) :
  lookup (update loc v n) loc = option_map kind_of v \/
  lookup (update loc v n) loc = lookup n loc.
Proof.
  destruct (rev_case _ loc) as [->|(p & c & ->)].
  - right. reflexivity.
  - destruct (lookup n p) as [[| |]|] eqn:Ep;
      try (right; rewrite update_noop by (rewrite Ep; discriminate); reflexivity).
    left. now apply lookup_update_same.
Qed.

Lemma preserves_with_ZipFile_w {C : Codecs} Q (target_zip : path) (body : M unit) :
  (forall d, stable Q (Some (File d))) ->
  (forall Q', preserves Q' body) ->
  preserves Q (with_ZipFile_w target_zip body).
Proof.
  intros Hst Hbody s r s' E H. unfold with_ZipFile_w, bind in E.
  destruct (open_write target_zip "" s) as [[loc|e] s1] eqn:E1.
  - assert (Q1 : Q (fs s1)) by (apply (preserves_open_write Q _ _ (Hst "") _ _ _ E1 H)).
    assert (Hloc : lookup (fs s1) loc = None \/ exists d, lookup (fs s1) loc = Some (KFile d)).
    { unfold open_write in E1.
      destruct (locate true (fs s) target_zip) as [e|[loc' x]] eqn:El; [discriminate|].
      destruct x as [[d0|t|r0 es]|] eqn:Ex; inversion E1; subst; cbn [fs];
        unfold locate in El; destruct (namei _ _ _ _ _); inversion El; subst;
        destruct (lookup_update_self loc (Some (File "")) (fs s)) as [Hl|Hl];
        rewrite Hl; unfold lookup; try rewrite H2; simpl; eauto. }
    destruct (body (mkState (fs s1) (log s1) [])) as [r2 s2] eqn:E2.
    pose proof (Hbody (eq (fs s1)) _ _ _ E2 eq_refl) as Hfs. cbn [fs] in Hfs.
    inversion E; subst. cbn [fs]. rewrite <- Hfs. apply Hst; auto.
    + destruct Hloc as [Hl|[d Hl]]; rewrite Hl; discriminate.
    + intros _. destruct Hloc as [Hl|[d Hl]]; [now left|right; eauto].
  - inversion E; subst. apply (preserves_open_write Q _ _ (Hst "") _ _ _ E1 H).
Qed.

Lemma preserves_package_directory {C : Codecs} Q (src zip : path) :
  (forall d, stable Q (Some (File d))) -> stable Q None ->
  preserves Q (package_directory src zip).
Proof.
  intros Hf Hn. unfold package_directory.
  apply preserves_bind; [apply preserves_resolve|]. intros sd.
  apply preserves_bind; [apply preserves_resolve|]. intros tz.
  apply preserves_bind; [apply preserves_read_fs|]. intros tree.
  apply preserves_bind.
  { apply preserves_for_fold. intros [[root dirs] files] links.
    apply preserves_for_fold. intros name b. apply preserves_scan_item. }
  intros links.
  apply preserves_bind; [apply preserves_open_write, Hf|]. intros _.
  apply preserves_bind; [|intros _; apply preserves_os_unlink, Hn].
  apply preserves_with_ZipFile_w; [exact Hf|]. intros Q'.
  apply preserves_bind; [apply preserves_zf_write|]. intros _.
  apply preserves_bind; [apply preserves_read_fs|]. intros tree'.
  apply preserves_for_each. intros [[root dirs] files].
  apply preserves_for_each. intros file. apply preserves_add_file.
Qed.

Lemma preserves_unpackage_directory {C : Codecs} Q (zip tgt : path) :
  stable Q (Some (Dir true [])) -> (forall d, stable Q (Some (File d))) ->
  stable Q None -> (forall t, stable Q (Some (Link t))) ->
  preserves Q (unpackage_directory zip tgt).
Proof.
  intros Hd Hf Hn Hl. unfold unpackage_directory.
  apply preserves_bind; [apply preserves_resolve|]. intros sz.
  apply preserves_bind; [apply preserves_resolve|]. intros td.
  apply preserves_bind; [apply preserves_mkdir_parents, Hd|]. intros _.
  apply preserves_bind; [apply preserves_read_file|]. intros bytes.
  destruct (zip_decode bytes) as [a|]; [|apply preserves_raise].
  destruct (getinfo a "links.json") as [data|]; [|apply preserves_raise].
  destruct (json_loads data) as [links|]; [|apply preserves_raise].
  apply preserves_bind.
  { apply preserves_for_each. intros member.
    apply preserves_if; [apply preserves_ret|apply preserves_zf_extract; auto]. }
  intros _.
  apply preserves_bind; [apply preserves_read_fs|]. intros b.
  apply preserves_bind.
  { apply preserves_if; [apply preserves_os_unlink, Hn|apply preserves_ret]. }
  intros _. destruct links as [items|]; [|apply preserves_raise].
  apply preserves_for_each. intros item. apply preserves_restore_link; auto.
Qed.

(** X9.  [package_directory] never removes or replaces a directory:
    whatever the arguments, the symbolic links on the way and the
    outcome, a directory that was there before the call is there after
    it. *)
Theorem package_directory_keeps_directories {C : Codecs} (src zip : path)
        (s : state) (r : result unit) (s' : state) (q : path) :
  package_directory src zip s = (r, s') ->
  lookup (fs s) q = Some KDir ->
  lookup (fs s') q = Some KDir.
Proof.
  intros E H.
  apply (preserves_package_directory (fun n => lookup n q = Some KDir) src zip
           (fun d => stable_directory q (Some (File d)) I)
           (stable_directory q None I) s r s' E H).
Qed.

Lemma package_directory_keeps_directories_witness :
  lookup (Demo.root [("src", Dir true [("links.json", File (@json_dumps Sample.codecs []))])])
         Demo.src
  = Some KDir.
Proof.
  apply (@package_directory_keeps_directories Sample.codecs
           Demo.src ["home"; "missing"; "out.zip"]
           (Demo.st [("src", Dir true [])]) (Raise (OSError ENOENT))
           (Demo.st [("src", Dir true [("links.json", File (@json_dumps Sample.codecs []))])])
           Demo.src); reflexivity.
Defined.

(** X10.  [unpackage_directory] never removes or replaces a directory:
    whatever the container, the manifest and the outcome, a directory
    that was there before the call is there after it. *)
Theorem unpackage_directory_keeps_directories {C : Codecs} (zip tgt : path)
        (s : state) (r : result unit) (s' : state) (q : path) :
  unpackage_directory zip tgt s = (r, s') ->
  lookup (fs s) q = Some KDir ->
  lookup (fs s') q = Some KDir.
Proof.
  intros E H.
  apply (preserves_unpackage_directory (fun n => lookup n q = Some KDir) zip tgt
           (stable_directory q (Some (Dir true [])) eq_refl)
           (fun d => stable_directory q (Some (File d)) I)
           (stable_directory q None I)
           (fun t => stable_directory q (Some (Link t)) I) s r s' E H).
Qed.

Lemma unpackage_directory_keeps_directories_witness :
  lookup (Demo.root [("dst", Dir true [("a", Dir true [])]);
                     ("out.zip", Demo.container [("a", "x"); ("b", "y")] [])])
         ["home"; "dst"; "a"]
  = Some KDir.
Proof.
  apply (@unpackage_directory_keeps_directories Sample.codecs Demo.zip Demo.dst
           (Demo.st [("dst", Dir true [("a", Dir true [])]);
                     ("out.zip", Demo.container [("a", "x"); ("b", "y")] [])])
           (Raise (OSError EISDIR))
           (Demo.st [("dst", Dir true [("a", Dir true [])]);
                     ("out.zip", Demo.container [("a", "x"); ("b", "y")] [])])
           ["home"; "dst"; "a"]); reflexivity.
Defined.



(* ----------------------------------------------------------------- *)
(** ** Errors of [unpackage_directory], and links below new directories *)

(** A path to a directory that is there or is to be made does not pass
    through a regular file, and not through a missing entry that is to
    stay missing. *)
Lemma not_above_target (f : node) (zip tgt : path) :
  tame f tgt -> lookup f tgt = None \/ lookup f tgt = Some KDir ->
  tgt <> zip ->
  lookup f zip <> Some KDir ->
  (lookup f zip = None -> is_prefix zip tgt = false) ->
  is_prefix zip tgt = false.
Proof.
  intros Ht Hk Hne Hz Hnone.
  destruct (is_prefix zip tgt) eqn:E; auto.
  apply is_prefix_spec in E. destruct E as [t E]. destruct t as [|c t].
  - rewrite app_nil_r in E. congruence.
  - assert (H : lookup f zip = None \/ lookup f zip = Some KDir).
    { apply (tame_above f zip (c :: t)); [now rewrite <- E|discriminate]. }
    destruct H as [H|H]; [|congruence]. apply Hnone in H. discriminate.
Qed.

(** The first steps of [unpackage_directory]: the target directory is
    made, with the directories above it, before the container is
    looked at. *)
Lemma unpackage_directory_mkdir (s : state) (zip tgt : path) :
  tame (fs s) tgt -> lookup (fs s) tgt = None \/ lookup (fs s) tgt = Some KDir ->
  tame (fs s) zip -> is_prefix zip tgt = false ->
  exists s1,
    mkdir_parents tgt s = (Ok tt, s1)
    /\ dirs_made (fs s) (fs s1) tgt
    /\ tame (fs s1) zip
    /\ lookup (fs s1) zip = lookup (fs s) zip.
Proof.
  intros Ht Hk Htz Hpre.
  destruct (mkdir_parents_spec tgt s Ht Hk) as (s1 & E1 & Hd1).
  exists s1. split; [exact E1|]. split; [exact Hd1|]. split.
  - apply tame_transfer with (f := fs s); [exact Htz| |].
    + rewrite Hd1. reflexivity.
    + intros q r' _ _. rewrite Hd1. destruct (is_prefix q tgt); auto.
  - now rewrite Hd1, Hpre.
Qed.







(* ----------------------------------------------------------------- *)
(** ** Nothing is added on the way there and back *)

Section Exact.

Context {C : Codecs} {COk : CodecsOk C}.

(** Unpacking the container of a source into a fresh target leaves a
    target that mirrors the source. *)
Lemma unpackage_directory_mirrors (f0 : node) (src tgt zip : path) (r : bool)
      (es : list (string * node)) (m : dict) (a : archive) (s : state) :
  get f0 src = Some (Dir r es) ->
  names_ok (Dir r es) = true ->
  assoc "links.json" es = None ->
  NoDup (map fst m) ->
  (forall k v, In (k, v) m <-> link_at f0 src (Dir r es) k v) ->
  (forall k d, In (k, d) a <->
               (k = "links.json" /\ d = json_dumps m) \/ file_at (Dir r es) k d) ->
  (forall k v, In (k, v) m -> link_target_ok v = true) ->
  lookup (fs s) zip = Some (KFile (zip_encode a)) ->
  tame (fs s) zip ->
  tame (fs s) tgt ->
  lookup (fs s) tgt = None \/ lookup (fs s) tgt = Some KDir ->
  (forall rel, rel <> [] -> lookup (fs s) (tgt ++ rel) = None) ->
  exists s',
    unpackage_directory zip tgt s = (Ok tt, s') /\ mirrors f0 src tgt (fs s').
Proof.
  intros Hsrc Hok Hlj Hnd Hm Ha Hlt Hz Htz Htt Htk Hempty.
  assert (Hnlz : not_link (fs s) zip) by (intros t; rewrite Hz; discriminate).
  assert (Hnlt : not_link (fs s) tgt).
  { intros t. destruct Htk as [H|H]; rewrite H; discriminate. }
  assert (Hpre : is_prefix zip tgt = false).
  { apply (not_above_target (fs s)); auto.
    - intros ->. destruct Htk as [H|H]; congruence.
    - congruence.
    - congruence. }
  destruct (unpackage_directory_mkdir s zip tgt Htt Htk Htz Hpre)
    as (s1 & E1 & Hd1 & Htz1 & Hz1).
  rewrite Hz in Hz1.
  assert (Hmir1 : mirrors f0 src tgt (fs s1)).
  { split; [apply Htt|]. split.
    - rewrite Hd1, is_prefix_refl. reflexivity.
    - intros rel k Hne Hk. rewrite Hd1 in Hk.
      destruct (is_prefix (tgt ++ rel) tgt) eqn:E.
      + apply is_prefix_spec in E. destruct E as [t E].
        apply (f_equal (@length _)) in E. rewrite !length_app in E.
        destruct rel; [congruence|]. simpl in E. lia.
      + rewrite Hempty in Hk; auto. discriminate. }
  destruct (@extract_loop C f0 src tgt r es m a Hsrc Hok Hlj Ha s1 Hmir1)
    as (s2 & E2 & Hmir2 & _).
  assert (Hlj2 : lookup (fs s2) (tgt ++ ["links.json"]) = None).
  { destruct (lookup (fs s2) (tgt ++ ["links.json"])) as [k|] eqn:E; auto.
    apply Hmir2 in E; [|discriminate].
    rewrite (mirror_links_json f0 src r es Hsrc Hlj) in E. discriminate. }
  destruct (restore_loop f0 src tgt r es m Hsrc Hok Hm Hlt s2 Hmir2)
    as (s3 & E3 & Hmir3 & _).
  exists s3. split; [|exact Hmir3].
  unfold unpackage_directory.
  unfold bind at 1. rewrite (resolve_tame s zip Htz Hnlz).
  unfold bind at 1. rewrite (resolve_tame s tgt Htt Hnlt).
  unfold bind at 1. rewrite E1.
  unfold bind at 1. rewrite (read_file_tame s1 zip _ Htz1 Hz1).
  rewrite zip_roundtrip.
  rewrite (getinfo_functional a "links.json" (json_dumps m)
             (@archive_functional C r es m a Hok Hlj Ha))
    by (apply Ha; now left).
  rewrite json_roundtrip by exact Hnd.
  unfold bind at 1. rewrite E2.
  rewrite joinpath_name by reflexivity.
  unfold bind at 1. unfold read_fs at 1.
  rewrite path_exists_tame, Hlj2.
  - unfold bind at 1. unfold ret at 1. unfold json_of_dict. exact E3.
  - apply tame_parent; [|apply Hmir2].
    intros Hin. apply in_app_or in Hin. destruct Hin as [Hin|[Hin|[]]]; [|discriminate].
    now apply Hmir2.
  - intros t. rewrite Hlj2. discriminate.
Qed.

(** Packing, then unpacking into a fresh target: the target mirrors
    the source. *)
Lemma roundtrip_mirrors (s : state) (src zip tgt : path) (r : bool)
      (es : list (string * node)) :
  pack_ready (fs s) src zip r es ->
  links_portable (fs s) src src (Dir r es) = true ->
  fresh_target (fs s) tgt ->
  is_prefix tgt zip = false ->
  is_prefix zip tgt = false ->
  exists s1 s2,
    package_directory src zip s = (Ok tt, s1)
    /\ unpackage_directory zip tgt s1 = (Ok tt, s2)
    /\ mirrors (fs s) src tgt (fs s2).
Proof.
  intros Hr Hlinks (Htt & Htk & Hempty) Htz Hzt.
  pose proof Hr as (Hsrc & Hdd & Hok & Hlj & _).
  destruct (package_directory_ok s src zip r es Hr)
    as (s1 & m & a & E1 & Hz1 & Hsame & Hnd & Hm & Ha).
  assert (Hzn : forall q, is_prefix tgt q = true -> q <> zip).
  { intros q H ->. congruence. }
  assert (Hdirs : forall q, lookup (fs s) q = Some KDir -> lookup (fs s1) q = Some KDir).
  { intros q H. rewrite Hsame; auto. intros ->.
    now apply (pk_zip_notdir (fs s) src zip r es Hr). }
  assert (Htt1 : tame (fs s1) tgt).
  { apply tame_transfer with (f := fs s); [exact Htt| |].
    - apply Hdirs. apply Htt.
    - intros q t E Ht. left. apply Hsame. intros ->.
      assert (H : is_prefix zip tgt = true) by (apply is_prefix_spec; eauto). congruence. }
  assert (Htk1 : lookup (fs s1) tgt = None \/ lookup (fs s1) tgt = Some KDir).
  { rewrite Hsame; auto. apply Hzn, is_prefix_refl. }
  assert (Hempty1 : forall rel, rel <> [] -> lookup (fs s1) (tgt ++ rel) = None).
  { intros rel Hne. rewrite Hsame; auto. apply Hzn, is_prefix_app. }
  assert (Hlt : forall k v, In (k, v) m -> link_target_ok v = true).
  { intros k v Hin. apply Hm in Hin. destruct Hin as (rel & t & _ & _ & Hg & _ & -> & _).
    now apply links_portable_get with (n := Dir r es). }
  destruct (unpackage_directory_mirrors (fs s) src tgt zip r es m a s1
              Hsrc Hok Hlj Hnd Hm Ha Hlt Hz1
              (pk_tame_zip (fs s) src zip r es Hr (fs s1) Hdirs)
              Htt1 Htk1 Hempty1)
    as (s2 & E2 & Hmir).
  exists s1, s2. auto.
Qed.



End Exact.



(* ----------------------------------------------------------------- *)
(** ** The temporary manifest, and the command line there and back *)

(** X17.  A successful [package_directory] leaves no entry
    [links.json] at the top of the source directory, whatever was there
    before: a file of that name that belonged to the source is
    overwritten by the manifest and removed with it. *)
Theorem package_directory_removes_links_json {C : Codecs} (s : state) (src zip : path)
        (s' : state) :
  tame (fs s) src -> lookup (fs s) src = Some KDir ->
  package_directory src zip s = (Ok tt, s') ->
  lookup (fs s') (src ++ ["links.json"]) = None.
Proof.
  intros Ht Hk E.
  assert (Hnl : not_link (fs s) src) by (intros t; rewrite Hk; discriminate).
  set (L := src ++ ["links.json"]).
  set (Q := fun n => lookup n src = Some KDir).
  assert (HfQ : forall d, stable Q (Some (File d))).
  { intros d. apply stable_directory. exact I. }
  unfold package_directory in E.
  unfold bind at 1 in E. rewrite (resolve_tame s src Ht Hnl) in E.
  unfold bind at 1 in E.
  destruct (resolve_outcome zip s) as [Ez|Ez]; rewrite Ez in E; [|discriminate].
  unfold bind at 1 in E. unfold read_fs at 1 in E.
  unfold bind at 1 in E.
  match type of E with
  | context [for_fold ?l ?body [] s] =>
      destruct (for_fold l body [] s) as [[links|e] s2] eqn:E2; [|discriminate];
      assert (Q2 : Q (fs s2))
  end.
  { refine (preserves_for_fold _ _ Q _ _ _ _ _ _ _ E2 Hk). intros [[root dirs] files] b.
    apply preserves_for_fold. intros name b'. apply preserves_scan_item. }
  rewrite joinpath_name in E by reflexivity. fold L in E.
  unfold bind at 1 in E.
  destruct (open_write L (json_dumps links) s2) as [[loc|e] s3] eqn:E3; [|discriminate].
  assert (Q3 : Q (fs s3)) by (apply (preserves_open_write Q _ _ (HfQ _) _ _ _ E3 Q2)).
  unfold bind at 1 in E.
  match type of E with
  | context [with_ZipFile_w ?z ?body s3] =>
      destruct (with_ZipFile_w z body s3) as [[[]|e] s4] eqn:E4; [|discriminate];
      assert (Q4 : Q (fs s4))
  end.
  { refine (preserves_with_ZipFile_w Q _ _ HfQ _ _ _ _ E4 Q3). intros Q'.
    apply preserves_bind; [apply preserves_zf_write|]. intros _.
    apply preserves_bind; [apply preserves_read_fs|]. intros tree'.
    apply preserves_for_each. intros [[root dirs] files].
    apply preserves_for_each. intros file. apply preserves_add_file. }
  assert (HtL : tame (fs s4) L).
  { apply tame_parent; [|exact Q4]. intros Hin. apply in_app_or in Hin.
    destruct Hin as [Hin|[Hin|[]]]; [|discriminate]. now apply Ht. }
  assert (HLne : L <> []) by (unfold L; destruct src; discriminate).
  unfold os_unlink in E. rewrite (locate_tame (fs s4) false L HtL HLne) in E by discriminate.
  unfold L in E at 1. rewrite parent_snoc in E. unfold Q in Q4. rewrite Q4 in E.
  destruct (get (fs s4) L) as [[d0|t|r0 es0]|] eqn:Eg; inversion E; subst; cbn [fs];
    (rewrite lookup_write;
     [destruct (path_eq_dec L L); [reflexivity|congruence]
     |exact HLne
     |unfold L; rewrite parent_snoc; exact Q4
     |exact I
     |unfold lookup; rewrite Eg; discriminate]).
Qed.

Lemma package_directory_removes_links_json_witness :
  lookup (Demo.root [("src", Dir true []);
                     ("out.zip",
                      File (@zip_encode Sample.codecs
                              [("links.json", @json_dumps Sample.codecs []);
                               ("links.json", @json_dumps Sample.codecs [])]))])
         (Demo.src ++ ["links.json"])
  = None.
Proof.
  apply (@package_directory_removes_links_json Sample.codecs
           (Demo.st [("src", Dir true [("links.json", File "mine")])]) Demo.src Demo.zip
           (Demo.st [("src", Dir true []);
                     ("out.zip",
                      File (@zip_encode Sample.codecs
                              [("links.json", @json_dumps Sample.codecs []);
                               ("links.json", @json_dumps Sample.codecs [])]))])).
  - apply tame_child; [discriminate|no_dotdot|reflexivity].
  - reflexivity.
  - reflexivity.
Defined.

Section CommandLine.

Context {C : Codecs} {COk : CodecsOk C}.


End CommandLine.

